(** * Kinematics, inverse kinematics, physics and interpolation of the puppet rig

    A shallow embedding of the engine core (kinematics, ik, physics,
    interpolation and the shared types) together with the properties it is
    specified to have.

    Numbers.  The program computes with JavaScript numbers.  They are modelled
    here by the real numbers [R]: every statement below is about the exact
    arithmetic the code denotes, without rounding, overflow, infinities or NaN.
    [Math.hypot], [Math.cos], [Math.sin] and [Math.atan2] are their
    mathematical counterparts.  Where the code gets a NaN out of [undefined]
    rather than out of numbers, the model says so ([NotANumber]) and stops.

    Objects.  A JavaScript object used as a string-keyed dictionary
    ([Skeleton.joints], [hierarchy], the [Map] of a physics body) is an
    association list in insertion order, because the code iterates over
    [Object.entries] and [Object.keys].  The list holds the own properties;
    a plain object also answers for the keys of [Object.prototype], which
    [getProperty] tells apart where the physics step reads a target. *)

From Stdlib Require Import Reals Lra Lia List String Ascii Bool Arith.
Import ListNotations.
Set Warnings "-register-all".
Open Scope string_scope.
Open Scope list_scope.
Open Scope R_scope.

(** ** Shared types (types.ts) *)

Record Point := mkPoint { px : R; py : R }.

Record LimbData := mkLimb {
  shoulder : R; elbow : R; hand : R; hip : R; knee : R; foot : R }.

Record PoseData := mkPose {
  groundTilt : R;
  offset : Point;
  torso : R;
  waist : R;
  head : R;
  left : LimbData;
  right : LimbData }.

Inductive Shape := line | polygon | curve | circle | custom.

Record BoneSegment := mkBone {
  bkey : string;
  bstart : Point;
  bend : Point;
  bwidth : R;
  bangle : R;
  bshape : Shape }.

(** A string-keyed JavaScript object, keys in insertion order. *)
Definition dict (A : Type) := list (string * A).

Fixpoint dict_get {A} (k : string) (d : dict A) : option A :=
  match d with
  | [] => None
  | (k', v) :: d' => if String.eqb k k' then Some v else dict_get k d'
  end.

(** [d[k] = v]: an existing key keeps its place, a new key goes last. *)
Fixpoint dict_set {A} (k : string) (v : A) (d : dict A) : dict A :=
  match d with
  | [] => [(k, v)]
  | (k', v') :: d' =>
      if String.eqb k k' then (k', v) :: d' else (k', v') :: dict_set k v d'
  end.

Record Skeleton := mkSkeleton {
  joints : dict Point;
  bones : list BoneSegment }.

Record PhysicsParticle := mkParticle {
  pid : string;
  pos : Point;
  prevPos : Point;
  mass : R }.

Record PhysicsConstraint := mkConstraint {
  particleAIndex : nat;
  particleBIndex : nat;
  restLength : R }.

Record PhysicsBody := mkBody {
  particles : list PhysicsParticle;
  constraints : list PhysicsConstraint;
  particleMap : dict nat }.

(** [Math.hypot] on two arguments. *)
Definition hypot (a b : R) : R := sqrt (a * a + b * b).

(** [Math.atan2 y x] on real arguments. *)
Definition atan2 (y x : R) : R :=
  if Rlt_dec 0 x then atan (y / x)
  else if Rlt_dec x 0 then
    (if Rle_dec 0 y then atan (y / x) + PI else atan (y / x) - PI)
  else if Rlt_dec 0 y then PI / 2
  else if Rlt_dec y 0 then - (PI / 2)
  else 0.

(** Comparisons of the source as booleans. *)
Definition Rgtb (a b : R) : bool := if Rlt_dec b a then true else false.
Definition Rltb (a b : R) : bool := if Rlt_dec a b then true else false.
Definition Reqb (a b : R) : bool := if Req_dec_T a b then true else false.

(** [s.includes(sub)]. *)
Definition includes (s sub : string) : bool :=
  match String.index 0 sub s with Some _ => true | None => false end.

(** [s.split('.')]. *)
Fixpoint split_dot_aux (s acc : string) : list string :=
  match s with
  | EmptyString => [acc]
  | String c s' =>
      if Ascii.eqb c "."%char then acc :: split_dot_aux s' ""
      else split_dot_aux s' (String.append acc (String c ""))
  end.

Definition split_dot (s : string) : list string := split_dot_aux s "".

(** ** Kinematics (kinematics.ts) *)

Module Kinematics.

Definition W : R := 800.
Definition H : R := 800.

Definition HEAD_UNIT : R := 64.
Definition HEAD_SIZE : R := 51.
Definition TORSO_HEIGHT : R := HEAD_UNIT * 2.25.
Definition WAIST_HEIGHT : R := HEAD_UNIT * 1.25.
Definition NECK_LENGTH : R := 0.
Definition L_ARM : R := HEAD_UNIT * 1.5.
Definition L_FOREARM : R := HEAD_UNIT * 1.5.
Definition L_HAND : R := HEAD_UNIT * 0.75.
Definition L_THIGH : R := HEAD_UNIT * 1.75.
Definition L_SHIN : R := HEAD_UNIT * 1.75.
Definition L_FOOT : R := HEAD_UNIT * 0.75.

Record HNode := mkNode { parent : option string; children : list string }.

Definition hierarchy : dict HNode :=
  [ ("ground", mkNode None ["root"]);
    ("root", mkNode (Some "ground") ["torso"; "waist"]);
    ("torso", mkNode (Some "root") ["head"; "left.shoulder"; "right.shoulder"]);
    ("waist", mkNode (Some "root") ["left.hip"; "right.hip"]);
    ("head", mkNode (Some "torso") []);
    ("left.shoulder", mkNode (Some "torso") ["left.elbow"]);
    ("left.elbow", mkNode (Some "left.shoulder") ["left.hand"]);
    ("left.hand", mkNode (Some "left.elbow") []);
    ("right.shoulder", mkNode (Some "torso") ["right.elbow"]);
    ("right.elbow", mkNode (Some "right.shoulder") ["right.hand"]);
    ("right.hand", mkNode (Some "right.elbow") []);
    ("left.hip", mkNode (Some "waist") ["left.knee"]);
    ("left.knee", mkNode (Some "left.hip") ["left.foot"]);
    ("left.foot", mkNode (Some "left.knee") []);
    ("right.hip", mkNode (Some "waist") ["right.knee"]);
    ("right.knee", mkNode (Some "right.hip") ["right.foot"]);
    ("right.foot", mkNode (Some "right.knee") []) ].

Definition rad (deg : R) : R := deg * PI / 180.

Definition getDefaultPose : PoseData :=
  mkPose 0 (mkPoint 0 0) 0 0 0
    (mkLimb (rad 180) 0 0 (rad 100) 0 0)
    (mkLimb (rad 0) 0 0 (rad 80) 0 0).

Definition rotatePoint (x y angle : R) : Point :=
  mkPoint (x * cos angle - y * sin angle) (x * sin angle + y * cos angle).

Definition getEndPoint (start : Point) (angle length : R) : Point :=
  mkPoint (px start + cos angle * length) (py start + sin angle * length).

(** The two sides a limb record can be read from, [pose[side]]. *)
Inductive Side := SLeft | SRight.

Definition sideName (s : Side) : string :=
  match s with SLeft => "left" | SRight => "right" end.

Definition limb (s : Side) (pose : PoseData) : LimbData :=
  match s with SLeft => left pose | SRight => right pose end.

(** The caches [computeSkeleton] fills: [jointCache] and [boneCache]. *)
Definition Caches : Type := dict Point * list BoneSegment.

Definition storeJoint (key : string) (p : Point) (c : Caches) : Caches :=
  (dict_set key p (fst c), snd c).

Definition storeBone (key : string) (s e : Point) (width angle : R)
    (c : Caches) : Caches :=
  (fst c, snd c ++ [mkBone key s e width angle custom]).

(** Body of the first [forEach] over the sides: shoulder, elbow, hand. *)
Definition armSide (pose : PoseData) (neckPos : Point) (torsoAngle : R)
    (side : Side) (c : Caches) : Caches :=
  let shoulderWidth := 48 in
  let shoulderX := match side with SLeft => - shoulderWidth | SRight => shoulderWidth end in
  let sOffset := rotatePoint shoulderX 0 torsoAngle in
  let sPos := mkPoint (px neckPos + px sOffset) (py neckPos + py sOffset) in
  let sKey := String.append (sideName side) ".shoulder" in
  let c := storeJoint sKey sPos c in
  let sAngle := torsoAngle + shoulder (limb side pose) in
  let ePos := getEndPoint sPos sAngle L_ARM in
  let c := storeBone sKey sPos ePos 36 sAngle c in
  let eKey := String.append (sideName side) ".elbow" in
  let c := storeJoint eKey ePos c in
  let eAngle := sAngle + elbow (limb side pose) in
  let hPos := getEndPoint ePos eAngle L_FOREARM in
  let c := storeBone eKey ePos hPos 28 eAngle c in
  let hKey := String.append (sideName side) ".hand" in
  let c := storeJoint hKey hPos c in
  let hAngle := eAngle + hand (limb side pose) in
  let handEnd := getEndPoint hPos hAngle L_HAND in
  storeBone hKey hPos handEnd 16 hAngle c.

(** Body of the second [forEach] over the sides: hip, knee, foot. *)
Definition legSide (pose : PoseData) (waistEnd : Point) (waistAngle : R)
    (side : Side) (c : Caches) : Caches :=
  let hipWidth := 29 in
  let hipX := match side with SLeft => - hipWidth | SRight => hipWidth end in
  let hipAttachPoint := waistEnd in
  let hOffset := rotatePoint hipX 0 waistAngle in
  let hPos := mkPoint (px hipAttachPoint + px hOffset) (py hipAttachPoint + py hOffset) in
  let hKey := String.append (sideName side) ".hip" in
  let c := storeJoint hKey hPos c in
  let hAngle := waistAngle + hip (limb side pose) in
  let kPos := getEndPoint hPos hAngle L_THIGH in
  let c := storeBone hKey hPos kPos 44 (hAngle - PI / 2) c in
  let kKey := String.append (sideName side) ".knee" in
  let c := storeJoint kKey kPos c in
  let kAngle := hAngle + knee (limb side pose) in
  let fPos := getEndPoint kPos kAngle L_SHIN in
  let c := storeBone kKey kPos fPos 32 (kAngle - PI / 2) c in
  let fKey := String.append (sideName side) ".foot" in
  let c := storeJoint fKey fPos c in
  let fAngle := kAngle + foot (limb side pose) in
  let footEnd := getEndPoint fPos fAngle L_FOOT in
  storeBone fKey fPos footEnd 18 (fAngle - PI / 2) c.

Definition computeSkeleton (pose : PoseData) : Skeleton :=
  let c : Caches := ([], []) in
  let groundBaseYOffset := WAIST_HEIGHT + L_THIGH + L_SHIN in
  let groundBasePos := mkPoint (W / 2) (650 + py (offset pose)) in
  let rootPos := mkPoint (W / 2 + px (offset pose)) (py groundBasePos - groundBaseYOffset) in
  let groundAngle := groundTilt pose in
  let torsoAngle := groundAngle + torso pose in
  let waistAngle := groundAngle + waist pose in
  let c := storeJoint "root" rootPos c in
  let c := storeJoint "ground" groundBasePos c in
  let c := storeBone "ground" groundBasePos groundBasePos 100 groundAngle c in
  let neckAttachOffset := TORSO_HEIGHT in
  let neckPos := getEndPoint rootPos (torsoAngle - PI / 2) neckAttachOffset in
  let c := storeJoint "torso" neckPos c in
  let c := storeBone "torso" rootPos neckPos 100 torsoAngle c in
  let waistEnd := getEndPoint rootPos (waistAngle + PI / 2) WAIST_HEIGHT in
  let c := storeJoint "waist" waistEnd c in
  let c := storeBone "waist" rootPos waistEnd 60 waistAngle c in
  let neckEndPos := getEndPoint neckPos (torsoAngle - PI / 2) NECK_LENGTH in
  let c := storeBone "neck" neckPos neckEndPos 13 torsoAngle c in
  let headAngle := torsoAngle + head pose in
  let headEnd := getEndPoint neckPos headAngle 1 in
  let c := storeBone "head" neckPos headEnd HEAD_SIZE headAngle c in
  let c := storeJoint "head" neckPos c in
  let c := fold_left (fun c side => armSide pose neckPos torsoAngle side c)
             [SLeft; SRight] c in
  let c := fold_left (fun c side => legSide pose waistEnd waistAngle side c)
             [SLeft; SRight] c in
  mkSkeleton (fst c) (snd c).

(** What a call of [getParentWorldAngle] can do: return a number, return
    [null], or fail with a TypeError (reading a property of [undefined], when
    the side of a dotted parent key is not a limb record of the pose). *)
Inductive AngleResult := Angle (a : R) | Null | Raised.

(** [pose[side]] for the side a parent key was split into. *)
Definition poseSide (side : string) (pose : PoseData) : option LimbData :=
  if String.eqb side "left" then Some (left pose)
  else if String.eqb side "right" then Some (right pose)
  else None.

Definition getParentWorldAngle (key : string) (pose : PoseData) : AngleResult :=
  (* hierarchy[key]?.parent, then the falsy test on it *)
  match match dict_get key hierarchy with
        | Some n => parent n
        | None => None
        end with
  | None => Angle 0
  | Some parentKey =>
      if String.eqb parentKey "" then Angle 0
      else if String.eqb parentKey "ground" then Angle (groundTilt pose)
      else if String.eqb parentKey "torso" then Angle (groundTilt pose + torso pose)
      else if String.eqb parentKey "waist" then Angle (groundTilt pose + waist pose)
      else if String.eqb parentKey "root" then Angle (groundTilt pose)
      else
        let parts := split_dot parentKey in
        let side := nth 0 parts "" in
        let jointName := nth 1 parts "" in
        let withSide (f : LimbData -> R) : AngleResult :=
          match poseSide side pose with
          | Some l => Angle (f l)
          | None => Raised
          end in
        if String.eqb jointName "shoulder" then
          withSide (fun l => groundTilt pose + torso pose + shoulder l)
        else if String.eqb jointName "elbow" then
          withSide (fun l => groundTilt pose + torso pose + shoulder l + elbow l)
        else if String.eqb jointName "hip" then
          withSide (fun l => groundTilt pose + waist pose + hip l)
        else if String.eqb jointName "knee" then
          withSide (fun l => groundTilt pose + waist pose + hip l + knee l)
        else Null
  end.

End Kinematics.

(** ** Outcomes of calls that can fail

    No function of the core throws on purpose, but reading a property of
    [undefined] raises a TypeError.  [Ok] is a normal return, [TypeError] that
    exception, [OutOfFuel] the recursion bound of the model being reached (the
    source has no such bound; the hierarchy is finite and acyclic).
    [NotANumber] is an arithmetic operation on [undefined]: it gives NaN and
    the code goes on with it; the numbers of the model are reals, and the
    model follows the code no further. *)

Inductive Res (A : Type) := Ok (a : A) | TypeError | OutOfFuel | NotANumber.
Arguments Ok {A} a.
Arguments TypeError {A}.
Arguments OutOfFuel {A}.
Arguments NotANumber {A}.

Definition bind {A B} (m : Res A) (f : A -> Res B) : Res B :=
  match m with
  | Ok a => f a
  | TypeError => TypeError
  | OutOfFuel => OutOfFuel
  | NotANumber => NotANumber
  end.

Notation "x <- m ;; k" := (bind m (fun x => k))
  (at level 61, m at next level, right associativity).

(** [for (const x of l) st = f st x], stopping at the first failure. *)
Fixpoint foldRes {A S} (f : S -> A -> Res S) (l : list A) (st : S) : Res S :=
  match l with
  | [] => Ok st
  | x :: l' => st' <- f st x ;; foldRes f l' st'
  end.

(** [a[i]] where the element is then dereferenced. *)
Definition at_index {A} (l : list A) (i : nat) : Res A :=
  match nth_error l i with Some a => Ok a | None => TypeError end.

(** [a[i] = v] for an index inside the array. *)
Fixpoint set_index {A} (i : nat) (v : A) (l : list A) : list A :=
  match l, i with
  | [], _ => []
  | _ :: l', O => v :: l'
  | x :: l', S i' => x :: set_index i' v l'
  end.

(** ** Physics (physics.ts) *)

Module Physics.
Import Kinematics.

Definition GRAVITY : Point := mkPoint 0 (9.8 * 100).
Definition FRICTION : R := 0.99.
Definition GROUND_FRICTION : R := 0.85.
Definition SOLVER_ITERATIONS : nat := 10.
Definition GROUND_PLANE_Y : R := H - 40.
Definition STIFFNESS : R := 0.6.
Definition DAMPING : R := 0.4.

(** The mass a particle gets from its joint key. *)
Definition particleMass (key : string) : R :=
  let m := 1.0 in
  let m := if String.eqb key "root" || String.eqb key "waist"
              || String.eqb key "torso" || String.eqb key "neck"
           then 3.0 else m in
  if includes key "hand" || includes key "foot" then 0.5 else m.

(** One round of the [forEach] over [Object.entries(skeleton.joints)]. *)
Definition addParticle (st : list PhysicsParticle * dict nat)
    (entry : string * Point) : list PhysicsParticle * dict nat :=
  let '(key, point) := entry in
  if String.eqb key "ground" then st
  else
    let particle := mkParticle key point point (particleMass key) in
    (fst st ++ [particle], dict_set key (List.length (fst st)) (snd st)).

(** One round of the inner [forEach] over the children of a parent key. *)
Definition addChildConstraint (ps : list PhysicsParticle) (pmap : dict nat)
    (parentIndex : nat) (parentParticle : PhysicsParticle)
    (cs : list PhysicsConstraint) (childKey : string)
    : Res (list PhysicsConstraint) :=
  match dict_get childKey pmap with
  | None => Ok cs
  | Some childIndex =>
      childParticle <- at_index ps childIndex ;;
      let restLength :=
        hypot (px (pos childParticle) - px (pos parentParticle))
              (py (pos childParticle) - py (pos parentParticle)) in
      if Rgtb restLength 0.1
      then Ok (cs ++ [mkConstraint parentIndex childIndex restLength])
      else Ok cs
  end.

(** One round of the outer [forEach] over [Object.keys(hierarchy)]. *)
Definition addParentConstraints (ps : list PhysicsParticle) (pmap : dict nat)
    (cs : list PhysicsConstraint) (entry : string * HNode)
    : Res (list PhysicsConstraint) :=
  let parentKey := fst entry in
  if String.eqb parentKey "ground" then Ok cs
  else
    match dict_get parentKey pmap with
    | None => Ok cs
    | Some parentIndex =>
        match nth_error ps parentIndex with
        | None =>
            (* parentParticle is undefined; it is read only when a child
               has a particle *)
            foldRes (fun cs childKey =>
                       match dict_get childKey pmap with
                       | None => Ok cs
                       | Some _ => TypeError
                       end) (children (snd entry)) cs
        | Some parentParticle =>
            foldRes (addChildConstraint ps pmap parentIndex parentParticle)
                    (children (snd entry)) cs
        end
    end.

Definition createPhysicsBodyFromPose (pose : PoseData) : Res PhysicsBody :=
  let skeleton := computeSkeleton pose in
  let '(ps, pmap) := fold_left addParticle (joints skeleton) ([], []) in
  cs <- foldRes (addParentConstraints ps pmap) hierarchy [] ;;
  Ok (mkBody ps cs pmap).

(** [targetSkeleton.joints] is a plain object: a key it does not hold itself
    is looked up on [Object.prototype].  These are the keys found there; what
    is found is a function, or for ["__proto__"] the prototype itself: a
    truthy value that has no [x] and no [y]. *)
Definition objectPrototypeKeys : list string :=
  [ "constructor"; "__defineGetter__"; "__defineSetter__"; "hasOwnProperty";
    "__lookupGetter__"; "__lookupSetter__"; "isPrototypeOf";
    "propertyIsEnumerable"; "toString"; "valueOf"; "__proto__";
    "toLocaleString" ].

Inductive Property (A : Type) := Own (a : A) | Inherited | Absent.
Arguments Own {A} a.
Arguments Inherited {A}.
Arguments Absent {A}.

(** [o[key]] on a plain object whose own properties are those of [o]. *)
Definition getProperty {A} (key : string) (o : dict A) : Property A :=
  match dict_get key o with
  | Some a => Own a
  | None =>
      if existsb (String.eqb key) objectPrototypeKeys then Inherited else Absent
  end.

(** Step 1 of [updatePhysicsBody] on one particle: forces and integration.
    With an inherited [targetPos] the spring force is [undefined - p.pos.x],
    which is NaN, and so are the acceleration and the new position. *)
Definition integrate (dtSq : R) (targetSkeleton : option Skeleton)
    (p : PhysicsParticle) : Res PhysicsParticle :=
  if Reqb (mass p) 0 then Ok p
  else
    let velocity := mkPoint ((px (pos p) - px (prevPos p)) * FRICTION)
                            ((py (pos p) - py (prevPos p)) * FRICTION) in
    let prevPos' := pos p in
    let accel := mkPoint (px GRAVITY) (py GRAVITY) in
    accel <-
      match targetSkeleton with
      | None => Ok accel
      | Some sk =>
          match getProperty (pid p) (joints sk) with
          | Absent => Ok accel
          | Inherited => NotANumber
          | Own targetPos =>
              let springForce :=
                mkPoint ((px targetPos - px (pos p)) * STIFFNESS)
                        ((py targetPos - py (pos p)) * STIFFNESS) in
              let dampingForce :=
                mkPoint ((- px velocity) * DAMPING) ((- py velocity) * DAMPING) in
              let totalForce :=
                mkPoint (px springForce + px dampingForce)
                        (py springForce + py dampingForce) in
              Ok (mkPoint (px accel + px totalForce / mass p)
                          (py accel + py totalForce / mass p))
          end
      end ;;
    Ok (mkParticle (pid p)
          (mkPoint (px (pos p) + (px velocity + px accel * dtSq))
                   (py (pos p) + (py velocity + py accel * dtSq)))
          prevPos' (mass p)).

(** The [forEach] of step 1; [false] when a position became NaN, with the
    particles before it integrated and the others as they were. *)
Fixpoint integratePass (dtSq : R) (targetSkeleton : option Skeleton)
    (ps : list PhysicsParticle) : list PhysicsParticle * bool :=
  match ps with
  | [] => ([], true)
  | p :: ps' =>
      match integrate dtSq targetSkeleton p with
      | Ok p' =>
          let '(qs, numeric) := integratePass dtSq targetSkeleton ps' in
          (p' :: qs, numeric)
      | _ => (p :: ps', false)
      end
  end.

(** [p.pos.x += dx; p.pos.y += dy] on the particle at index [i]. *)
Definition movePos (i : nat) (dx dy : R) (ps : list PhysicsParticle)
    : list PhysicsParticle :=
  match nth_error ps i with
  | None => ps
  | Some p =>
      set_index i (mkParticle (pid p)
                     (mkPoint (px (pos p) + dx) (py (pos p) + dy))
                     (prevPos p) (mass p)) ps
  end.

(** Step 2 on one constraint.  [pA] and [pB] are the same object when the two
    indices are equal, so the second pair of writes reads the array again. *)
Definition relaxConstraint (ps : list PhysicsParticle) (c : PhysicsConstraint)
    : Res (list PhysicsParticle) :=
  match nth_error ps (particleAIndex c), nth_error ps (particleBIndex c) with
  | Some pA, Some pB =>
      let delta := mkPoint (px (pos pB) - px (pos pA)) (py (pos pB) - py (pos pA)) in
      let dist := hypot (px delta) (py delta) in
      if Rltb dist 0.001 then Ok ps
      else
        let diff := (dist - restLength c) / dist in
        let totalMass := mass pA + mass pB in
        if Reqb totalMass 0 then Ok ps
        else
          let pAShare := if Rgtb (mass pA) 0 then mass pA / totalMass else 1 in
          let pBShare := if Rgtb (mass pB) 0 then mass pB / totalMass else 1 in
          let ps := movePos (particleAIndex c)
                      (px delta * diff * pBShare) (py delta * diff * pBShare) ps in
          let ps := movePos (particleBIndex c)
                      (- (px delta * diff * pAShare)) (- (py delta * diff * pAShare)) ps in
          Ok ps
  | _, _ => TypeError
  end.

(** One pass over all constraints; on a TypeError the particles are left as
    they were when it was raised. *)
Fixpoint relaxPass (cs : list PhysicsConstraint) (ps : list PhysicsParticle)
    : list PhysicsParticle * bool :=
  match cs with
  | [] => (ps, true)
  | c :: cs' =>
      match relaxConstraint ps c with
      | Ok ps' => relaxPass cs' ps'
      | _ => (ps, false)
      end
  end.

Fixpoint relaxLoop (n : nat) (cs : list PhysicsConstraint)
    (ps : list PhysicsParticle) : list PhysicsParticle * bool :=
  match n with
  | O => (ps, true)
  | S n' =>
      match relaxPass cs ps with
      | (ps', true) => relaxLoop n' cs ps'
      | (ps', false) => (ps', false)
      end
  end.

(** Step 3 on one particle: ground plane and canvas bounds. *)
Definition collide (p : PhysicsParticle) : PhysicsParticle :=
  let p :=
    if Rgtb (py (pos p)) GROUND_PLANE_Y then
      let vel := mkPoint (px (pos p) - px (prevPos p)) (py (pos p) - py (prevPos p)) in
      let pos1 := mkPoint (px (pos p)) GROUND_PLANE_Y in
      let prevY := py pos1 + py vel * 0.1 in
      let prevX := if includes (pid p) "foot" then px pos1
                   else px pos1 - px vel * GROUND_FRICTION in
      mkParticle (pid p) pos1 (mkPoint prevX prevY) (mass p)
    else p in
  let p := if Rltb (px (pos p)) 10
           then mkParticle (pid p) (mkPoint 10 (py (pos p))) (prevPos p) (mass p)
           else p in
  if Rgtb (px (pos p)) (W - 10)
  then mkParticle (pid p) (mkPoint (W - 10) (py (pos p))) (prevPos p) (mass p)
  else p.

(** The body after a call of [updatePhysicsBody], which works in place, and
    whether the call returned or raised a TypeError on the way.  [Poisoned b]
    is a call in which a position became NaN, [b] the body at that point: its
    ids, masses, constraints and map are those the call ends with.  The code
    goes on with the NaN: it stays in that position, relaxation carries it
    along the constraints of the particle, and no comparison of step 3 holds
    of it, so no clamp applies. *)
Inductive Outcome :=
  Returned (b : PhysicsBody) | Threw (b : PhysicsBody) | Poisoned (b : PhysicsBody).

Definition bodyOf (o : Outcome) : PhysicsBody :=
  match o with Returned b => b | Threw b => b | Poisoned b => b end.

Definition updatePhysicsBody (body : PhysicsBody) (dt : R)
    (targetSkeleton : option Skeleton) : Outcome :=
  let dtSq := dt * dt in
  match integratePass dtSq targetSkeleton (particles body) with
  | (ps, false) => Poisoned (mkBody ps (constraints body) (particleMap body))
  | (ps, true) =>
      match relaxLoop SOLVER_ITERATIONS (constraints body) ps with
      | (ps, false) => Threw (mkBody ps (constraints body) (particleMap body))
      | (ps, true) =>
          Returned (mkBody (map collide ps) (constraints body) (particleMap body))
      end
  end.

(** [getParticlePos]: the position of the particle of a joint key, if any. *)
Definition getParticlePos (body : PhysicsBody) (key : string) : Res (option Point) :=
  match dict_get key (particleMap body) with
  | None => Ok None
  | Some index => p <- at_index (particles body) index ;; Ok (Some (pos p))
  end.

Definition setLimbField (name : string) (v : R) (l : LimbData) : LimbData :=
  if String.eqb name "shoulder" then mkLimb v (elbow l) (hand l) (hip l) (knee l) (foot l)
  else if String.eqb name "elbow" then mkLimb (shoulder l) v (hand l) (hip l) (knee l) (foot l)
  else if String.eqb name "hand" then mkLimb (shoulder l) (elbow l) v (hip l) (knee l) (foot l)
  else if String.eqb name "hip" then mkLimb (shoulder l) (elbow l) (hand l) v (knee l) (foot l)
  else if String.eqb name "knee" then mkLimb (shoulder l) (elbow l) (hand l) (hip l) v (foot l)
  else if String.eqb name "foot" then mkLimb (shoulder l) (elbow l) (hand l) (hip l) (knee l) v
  else l.

(** [newPose[parts[0]][parts[1]] = v] and [newPose[childKey] = v].  Only the
    keys of the hierarchy reach these writes; a key that names no numeric
    field of [PoseData] adds a property the record does not have. *)
Definition setPoseAngle (childKey : string) (v : R) (p : PoseData) : Res PoseData :=
  let parts := split_dot childKey in
  if Nat.eqb (List.length parts) 2 then
    let side := nth 0 parts "" in
    let name := nth 1 parts "" in
    if String.eqb side "left" then
      Ok (mkPose (groundTilt p) (offset p) (torso p) (waist p) (head p)
            (setLimbField name v (left p)) (right p))
    else if String.eqb side "right" then
      Ok (mkPose (groundTilt p) (offset p) (torso p) (waist p) (head p)
            (left p) (setLimbField name v (right p)))
    else TypeError
  else if String.eqb childKey "groundTilt" then
    Ok (mkPose v (offset p) (torso p) (waist p) (head p) (left p) (right p))
  else if String.eqb childKey "torso" then
    Ok (mkPose (groundTilt p) (offset p) v (waist p) (head p) (left p) (right p))
  else if String.eqb childKey "waist" then
    Ok (mkPose (groundTilt p) (offset p) (torso p) v (head p) (left p) (right p))
  else if String.eqb childKey "head" then
    Ok (mkPose (groundTilt p) (offset p) (torso p) (waist p) v (left p) (right p))
  else Ok p.

(** [calculateAngles]; the state is [newPose] and the [worldAngles] map. *)
Fixpoint calculateAngles (fuel : nat) (body : PhysicsBody) (parentKey : string)
    (parentWorldAngle : R) (st : PoseData * dict R) : Res (PoseData * dict R) :=
  match fuel with
  | O => OutOfFuel
  | S fuel' =>
      match dict_get parentKey hierarchy with
      | None => TypeError
      | Some node =>
          foldRes (fun st childKey =>
            parentPos <- getParticlePos body parentKey ;;
            childPos <- getParticlePos body childKey ;;
            match parentPos, childPos with
            | Some parentPos, Some childPos =>
                let dx := px childPos - px parentPos in
                let dy := py childPos - py parentPos in
                let childWorldAngle := atan2 dy dx in
                let worldAngles := dict_set childKey childWorldAngle (snd st) in
                let localAngle := childWorldAngle - parentWorldAngle in
                newPose <- setPoseAngle childKey localAngle (fst st) ;;
                calculateAngles fuel' body childKey childWorldAngle
                  (newPose, worldAngles)
            | _, _ => Ok st
            end) (children node) st
      end
  end.

Definition extractPoseFromPhysicsBody (body : PhysicsBody)
    (initialPose : PoseData) : Res PoseData :=
  let newPose := initialPose in
  let worldAngles : dict R := [] in
  rootPos <- getParticlePos body "root" ;;
  torsoPos <- getParticlePos body "torso" ;;
  waistPos <- getParticlePos body "waist" ;;
  match rootPos, torsoPos, waistPos with
  | Some rootPos, Some torsoPos, Some waistPos =>
      let avgCoreX := (px torsoPos + px waistPos) / 2 in
      let avgCoreY := (py torsoPos + py waistPos) / 2 in
      let groundAngle :=
        atan2 (avgCoreY - py rootPos) (avgCoreX - px rootPos) - PI / 2 in
      let newPose := mkPose groundAngle (offset newPose) (torso newPose)
                       (waist newPose) (head newPose) (left newPose) (right newPose) in
      let worldAngles := dict_set "root" groundAngle worldAngles in
      let newPose := mkPose (groundTilt newPose)
                       (mkPoint (px rootPos - W / 2) (py (offset newPose)))
                       (torso newPose) (waist newPose) (head newPose)
                       (left newPose) (right newPose) in
      let groundBaseYOffset := WAIST_HEIGHT + L_THIGH + L_SHIN in
      let newPose := mkPose (groundTilt newPose)
                       (mkPoint (px (offset newPose))
                                (py rootPos + groundBaseYOffset - 650))
                       (torso newPose) (waist newPose) (head newPose)
                       (left newPose) (right newPose) in
      st <- calculateAngles (List.length hierarchy) body "root" groundAngle
              (newPose, worldAngles) ;;
      Ok (fst st)
  | _, _, _ => Ok newPose
  end.

End Physics.

(** ** Interpolation (interpolation.ts) *)

Module Interpolation.

(** The values [recursiveInterpolate] walks: numbers, plain objects with
    their keys in order, [null], and the other primitives. *)
Inductive value :=
  | VNum (r : R)
  | VObj (fields : list (string * value))
  | VNull
  | VStr (s : string)
  | VBool (b : bool).

(** A [PoseData] as the object the code receives. *)
Definition pointValue (p : Point) : value :=
  VObj [("x", VNum (px p)); ("y", VNum (py p))].

Definition limbValue (l : LimbData) : value :=
  VObj [("shoulder", VNum (shoulder l)); ("elbow", VNum (elbow l));
        ("hand", VNum (hand l)); ("hip", VNum (hip l));
        ("knee", VNum (knee l)); ("foot", VNum (foot l))].

Definition poseValue (p : PoseData) : value :=
  VObj [("groundTilt", VNum (groundTilt p)); ("offset", pointValue (offset p));
        ("torso", VNum (torso p)); ("waist", VNum (waist p));
        ("head", VNum (head p)); ("left", limbValue (left p));
        ("right", limbValue (right p))].

(** [t < 0.5 ? a : b] *)
Definition fallback (a b : value) (t : R) : value :=
  if Rltb t 0.5 then a else b.

(** [key in b] raises a TypeError when [b] is a primitive. *)
Fixpoint recursiveInterpolate (a b : value) (t : R) (easingFn : R -> R)
    {struct a} : Res value :=
  match a with
  | VNum x =>
      match b with
      | VNum y => let easedT := easingFn t in Ok (VNum (x * (1 - easedT) + y * easedT))
      | _ => Ok (fallback a b t)
      end
  | VObj fa =>
      match b with
      | VNull => Ok (fallback a b t)
      | _ =>
          r <- (fix loop (fs : list (string * value)) (result : dict value)
                  {struct fs} : Res (dict value) :=
                  match fs with
                  | [] => Ok result
                  | (key, va) :: fs' =>
                      match b with
                      | VObj fb =>
                          match dict_get key fb with
                          | Some vb =>
                              v <- recursiveInterpolate va vb t easingFn ;;
                              loop fs' (dict_set key v result)
                          | None => loop fs' result
                          end
                      | _ => TypeError
                      end
                  end) fa [] ;;
          Ok (VObj r)
      end
  | _ => Ok (fallback a b t)
  end.

Definition linearEase (t : R) : R := t.
Definition sineEase (t : R) : R := 0.5 * (1 - cos (t * PI)).

Inductive Easing := linear | sine.

Definition interpolatePose (poseA poseB : PoseData) (t : R) (easing : Easing)
    : Res value :=
  let easingFn := match easing with linear => linearEase | sine => sineEase end in
  let clampedT := Rmax 0 (Rmin 1 t) in
  recursiveInterpolate (poseValue poseA) (poseValue poseB) clampedT easingFn.

(** The field-wise arithmetic mean of two poses. *)
Definition meanLimb (a b : LimbData) : LimbData :=
  mkLimb ((shoulder a + shoulder b) / 2) ((elbow a + elbow b) / 2)
         ((hand a + hand b) / 2) ((hip a + hip b) / 2)
         ((knee a + knee b) / 2) ((foot a + foot b) / 2).

Definition meanPose (a b : PoseData) : PoseData :=
  mkPose ((groundTilt a + groundTilt b) / 2)
         (mkPoint ((px (offset a) + px (offset b)) / 2)
                  ((py (offset a) + py (offset b)) / 2))
         ((torso a + torso b) / 2) ((waist a + waist b) / 2)
         ((head a + head b) / 2)
         (meanLimb (left a) (left b)) (meanLimb (right a) (right b)).

End Interpolation.

(** ** Inverse kinematics (ik.ts), on values *)

Module Ik.

Definition distance (p1 p2 : Point) : R :=
  hypot (px p1 - px p2) (py p1 - py p2).

Definition origin : Point := mkPoint 0 0.

(** [chain[i]] and [lengths[i]]; every index the loops of [solveFabrik] use
    lies inside the array. *)
Definition pt (chain : list Point) (i : nat) : Point := nth i chain origin.
Definition len (lengths : list R) (i : nat) : R := nth i lengths 0.

(** [{ x: (1 - lambda) * a.x + lambda * b.x, y: ... }] *)
Definition blend (lambda : R) (a b : Point) : Point :=
  mkPoint ((1 - lambda) * px a + lambda * px b)
          ((1 - lambda) * py a + lambda * py b).

Definition segmentLengths (chain : list Point) : list R :=
  map (fun i => distance (pt chain i) (pt chain (S i)))
      (seq 0 (List.length chain - 1)).

Definition totalLength (lengths : list R) : R := fold_left Rplus lengths 0.

(** The loop of the unreachable branch. *)
Definition stretchStep (lengths : list R) (target : Point)
    (sc : list Point) (i : nat) : list Point :=
  let r := distance (pt sc i) target in
  let lambda := len lengths i / r in
  set_index (S i) (blend lambda (pt sc i) target) sc.

Definition stretch (lengths : list R) (target : Point) (sc : list Point)
    : list Point :=
  fold_left (stretchStep lengths target) (seq 0 (List.length sc - 1)) sc.

(** The forward pass, from the end effector to the root. *)
Definition forwardStep (lengths : list R) (sc : list Point) (i : nat)
    : list Point :=
  let r := distance (pt sc i) (pt sc (S i)) in
  let lambda := len lengths i / r in
  set_index i (blend lambda (pt sc (S i)) (pt sc i)) sc.

Definition forwardPass (lengths : list R) (target : Point) (sc : list Point)
    : list Point :=
  let sc := set_index (List.length sc - 1) target sc in
  fold_left (forwardStep lengths) (rev (seq 0 (List.length sc - 1))) sc.

(** The backward pass, from the root to the end effector. *)
Definition backwardStep (lengths : list R) (sc : list Point) (i : nat)
    : list Point :=
  let r := distance (pt sc i) (pt sc (S i)) in
  let lambda := len lengths i / r in
  set_index (S i) (blend lambda (pt sc i) (pt sc (S i))) sc.

Definition backwardPass (lengths : list R) (root : Point) (sc : list Point)
    : list Point :=
  let sc := set_index 0 root sc in
  fold_left (backwardStep lengths) (seq 0 (List.length sc - 1)) sc.

(** The [while] loop; [remaining] is [iterations - iter].  The second
    component counts the rounds that were run. *)
Fixpoint iterate (remaining : nat) (lengths : list R) (root target : Point)
    (tolerance : R) (sc : list Point) : list Point * nat :=
  match remaining with
  | O => (sc, O)
  | S remaining' =>
      let endEffector := pt sc (List.length sc - 1) in
      if Rgtb (distance endEffector target) tolerance then
        let sc := forwardPass lengths target sc in
        let sc := backwardPass lengths root sc in
        let '(sc, n) := iterate remaining' lengths root target tolerance sc in
        (sc, S n)
      else (sc, O)
  end.

(** [solveFabrik] with the number of rounds of the [while] loop it ran.
    [iterations] is a count, a natural number. *)
Definition solveFabrikRounds (chain : list Point) (target : Point)
    (iterations : nat) (tolerance : R) : list Point * nat :=
  if Nat.eqb (List.length chain) 0 then ([], O)
  else
    let solvedChain := map (fun p => mkPoint (px p) (py p)) chain in
    let lengths := segmentLengths solvedChain in
    let total := totalLength lengths in
    let root := mkPoint (px (pt solvedChain 0)) (py (pt solvedChain 0)) in
    let distToTarget := distance root target in
    if Rgtb distToTarget total then (stretch lengths target solvedChain, O)
    else iterate iterations lengths root target tolerance solvedChain.

Definition solveFabrik (chain : list Point) (target : Point)
    (iterations : nat) (tolerance : R) : list Point :=
  fst (solveFabrikRounds chain target iterations tolerance).

(** The sum of the segment lengths of a chain. *)
Definition chainLength (chain : list Point) : R :=
  totalLength (segmentLengths chain).

End Ik.

(** ** Inverse kinematics (ik.ts), on objects

    The same function with the identity of the objects it touches: points and
    arrays live in a heap, a reference is an index into it, the object
    literals and [chain.map] allocate, and [solvedChain[i] = ...] writes a
    slot of an array.  [lengths] holds numbers and never leaves the call; it
    stays a list. *)

Module IkHeap.
Import Ik.

Inductive Obj := OPoint (p : Point) | OArray (elems : list nat).

Definition Heap := list Obj.

Definition getPoint (h : Heap) (l : nat) : Point :=
  match nth_error h l with Some (OPoint p) => p | _ => origin end.

Definition getArray (h : Heap) (l : nat) : list nat :=
  match nth_error h l with Some (OArray es) => es | _ => [] end.

(** The points an array of references stands for. *)
Definition view (h : Heap) (a : nat) : list Point :=
  map (getPoint h) (getArray h a).

Definition alloc (o : Obj) (h : Heap) : Heap * nat :=
  (h ++ [o], List.length h).

(** [a[i] = { x: ..., y: ... }]: a new point object goes into slot [i]. *)
Definition assignNew (a i : nat) (p : Point) (h : Heap) : Heap :=
  let '(h, l) := alloc (OPoint p) h in
  match nth_error h a with
  | Some (OArray es) => set_index a (OArray (set_index i l es)) h
  | _ => h
  end.

(** [chain.map(p => ({ ...p }))], the copies in order. *)
Fixpoint copyPoints (h : Heap) (ls : list nat) : Heap * list nat :=
  match ls with
  | [] => (h, [])
  | l :: ls' =>
      let '(h, l') := alloc (OPoint (getPoint h l)) h in
      let '(h, r) := copyPoints h ls' in
      (h, l' :: r)
  end.

Definition stretchStepH (lengths : list R) (target sc : nat)
    (h : Heap) (i : nat) : Heap :=
  let r := distance (pt (view h sc) i) (getPoint h target) in
  let lambda := len lengths i / r in
  assignNew sc (S i) (blend lambda (pt (view h sc) i) (getPoint h target)) h.

Definition stretchH (lengths : list R) (target sc : nat) (h : Heap) : Heap :=
  fold_left (stretchStepH lengths target sc)
            (seq 0 (List.length (getArray h sc) - 1)) h.

Definition forwardStepH (lengths : list R) (sc : nat) (h : Heap) (i : nat)
    : Heap :=
  let r := distance (pt (view h sc) i) (pt (view h sc) (S i)) in
  let lambda := len lengths i / r in
  assignNew sc i (blend lambda (pt (view h sc) (S i)) (pt (view h sc) i)) h.

Definition forwardPassH (lengths : list R) (target sc : nat) (h : Heap) : Heap :=
  let h := assignNew sc (List.length (getArray h sc) - 1) (getPoint h target) h in
  fold_left (forwardStepH lengths sc)
            (rev (seq 0 (List.length (getArray h sc) - 1))) h.

Definition backwardStepH (lengths : list R) (sc : nat) (h : Heap) (i : nat)
    : Heap :=
  let r := distance (pt (view h sc) i) (pt (view h sc) (S i)) in
  let lambda := len lengths i / r in
  assignNew sc (S i) (blend lambda (pt (view h sc) i) (pt (view h sc) (S i))) h.

Definition backwardPassH (lengths : list R) (root sc : nat) (h : Heap) : Heap :=
  let h := assignNew sc 0 (getPoint h root) h in
  fold_left (backwardStepH lengths sc)
            (seq 0 (List.length (getArray h sc) - 1)) h.

Fixpoint iterateH (remaining : nat) (lengths : list R) (root target : nat)
    (tolerance : R) (sc : nat) (h : Heap) : Heap :=
  match remaining with
  | O => h
  | S remaining' =>
      let endEffector := pt (view h sc) (List.length (getArray h sc) - 1) in
      if Rgtb (distance endEffector (getPoint h target)) tolerance then
        let h := forwardPassH lengths target sc h in
        let h := backwardPassH lengths root sc h in
        iterateH remaining' lengths root target tolerance sc h
      else h
  end.

(** The heap after the call and the reference it returns. *)
Definition solveFabrikH (h : Heap) (chain target : nat) (iterations : nat)
    (tolerance : R) : Heap * nat :=
  if Nat.eqb (List.length (getArray h chain)) 0 then alloc (OArray []) h
  else
    let '(h, copies) := copyPoints h (getArray h chain) in
    let '(h, sc) := alloc (OArray copies) h in
    let lengths := segmentLengths (view h sc) in
    let total := totalLength lengths in
    let '(h, root) := alloc (OPoint (pt (view h sc) 0)) h in
    let distToTarget := distance (getPoint h root) (getPoint h target) in
    if Rgtb distToTarget total then (stretchH lengths target sc h, sc)
    else (iterateH iterations lengths root target tolerance sc h, sc).

(** The arguments are what their types say: [chain] refers to an array of
    references to points and [target] to a point, all allocated. *)
Definition isPoint (h : Heap) (l : nat) : bool :=
  match nth_error h l with Some (OPoint _) => true | _ => false end.

Definition wellTyped (h : Heap) (chain target : nat) : bool :=
  match nth_error h chain with
  | Some (OArray es) => forallb (isPoint h) es && isPoint h target
  | _ => false
  end.

End IkHeap.

(** ** Notions used in the statements *)

Import Kinematics Physics Interpolation Ik IkHeap.

(** *** Kinematics *)

(** The angle recorded on the first bone segment with a given key. *)
Definition boneAngle (key : string) (sk : Skeleton) : option R :=
  option_map bangle (find (fun b => String.eqb (bkey b) key) (bones sk)).

Definition limbAngle (name : string) (l : LimbData) : option R :=
  if String.eqb name "shoulder" then Some (shoulder l)
  else if String.eqb name "elbow" then Some (elbow l)
  else if String.eqb name "hand" then Some (hand l)
  else if String.eqb name "hip" then Some (hip l)
  else if String.eqb name "knee" then Some (knee l)
  else if String.eqb name "foot" then Some (foot l)
  else None.

(** The local angle a pose holds for a joint key; [ground] and [root] have
    none. *)
Definition localAngle (key : string) (pose : PoseData) : option R :=
  let parts := split_dot key in
  if Nat.eqb (List.length parts) 2 then
    match poseSide (nth 0 parts "") pose with
    | Some l => limbAngle (nth 1 parts "") l
    | None => None
    end
  else if String.eqb key "torso" then Some (torso pose)
  else if String.eqb key "waist" then Some (waist pose)
  else if String.eqb key "head" then Some (head pose)
  else None.

(** In the words of the specification: [groundTilt] plus the local angles
    along the ancestor chain of a joint, the joint itself included. *)
Fixpoint ancestorSum (fuel : nat) (key : string) (pose : PoseData) : R :=
  match fuel with
  | O => 0
  | S fuel' =>
      match dict_get key hierarchy with
      | None => 0
      | Some node =>
          match parent node with
          | None => groundTilt pose
          | Some p => ancestorSum fuel' p pose
          end + match localAngle key pose with Some a => a | None => 0 end
      end
  end.

Definition legJoint (key : string) : bool :=
  existsb (String.eqb key)
    ["left.hip"; "left.knee"; "left.foot"; "right.hip"; "right.knee"; "right.foot"].

(** The joints of the hierarchy that have a parent joint and a local angle. *)
Definition childJoints : list string :=
  filter (fun k => negb (String.eqb k "ground" || String.eqb k "root"))
         (map fst hierarchy).

(** The composition property as the specification words it. *)
Definition fkComposition (key : string) (pose : PoseData) : Prop :=
  exists pa la ba,
    getParentWorldAngle key pose = Angle pa /\
    localAngle key pose = Some la /\
    boneAngle key (computeSkeleton pose) = Some ba /\
    ba = pa + la.

(** The composition property the code has: the bones of the legs are stored
    a quarter turn back. *)
Definition fkCompositionLegs (key : string) (pose : PoseData) : Prop :=
  exists pa la ba,
    getParentWorldAngle key pose = Angle pa /\
    localAngle key pose = Some la /\
    boneAngle key (computeSkeleton pose) = Some ba /\
    pa + la = ancestorSum (List.length hierarchy) key pose /\
    ba = pa + la - (if legJoint key then PI / 2 else 0).

(** *** Physics *)

(** The particles and the map of every body made from a pose. *)
Definition bodyParticles (pose : PoseData) : list PhysicsParticle :=
  fst (fold_left addParticle (joints (computeSkeleton pose)) ([], [])).

Definition bodyMap : dict nat :=
  [("root", 0); ("torso", 1); ("waist", 2); ("head", 3);
   ("left.shoulder", 4); ("left.elbow", 5); ("left.hand", 6);
   ("right.shoulder", 7); ("right.elbow", 8); ("right.hand", 9);
   ("left.hip", 10); ("left.knee", 11); ("left.foot", 12);
   ("right.hip", 13); ("right.knee", 14); ("right.foot", 15)]%nat.

(** The constraints of every body made from a pose: the bone lengths. *)
Definition bodyConstraints : list PhysicsConstraint :=
  [ mkConstraint 0 1 TORSO_HEIGHT; mkConstraint 0 2 WAIST_HEIGHT;
    mkConstraint 1 4 48; mkConstraint 1 7 48;
    mkConstraint 2 10 29; mkConstraint 2 13 29;
    mkConstraint 4 5 L_ARM; mkConstraint 5 6 L_FOREARM;
    mkConstraint 7 8 L_ARM; mkConstraint 8 9 L_FOREARM;
    mkConstraint 10 11 L_THIGH; mkConstraint 11 12 L_SHIN;
    mkConstraint 13 14 L_THIGH; mkConstraint 14 15 L_SHIN ].

Definition sameIndices (pmap : dict nat) (k1 k2 : string)
    (c : PhysicsConstraint) : bool :=
  match dict_get k1 pmap, dict_get k2 pmap with
  | Some a, Some b => Nat.eqb a (particleAIndex c) && Nat.eqb b (particleBIndex c)
  | _, _ => false
  end.

(** The constraint joins the particles of a joint and of one of its
    children in the hierarchy. *)
Definition linksParentChild (pmap : dict nat) (c : PhysicsConstraint) : bool :=
  existsb (fun entry =>
             existsb (fun childKey => sameIndices pmap (fst entry) childKey c)
                     (children (snd entry)))
          hierarchy.

(** Some constraint of the body joins the particles of the two keys. *)
Definition linked (body : PhysicsBody) (k1 k2 : string) : bool :=
  existsb (sameIndices (particleMap body) k1 k2) (constraints body).

(** The positions [computeSkeleton] gives the three joints of the core. *)
Definition rootJoint (pose : PoseData) : Point :=
  mkPoint (W / 2 + px (offset pose))
          (650 + py (offset pose) - (WAIST_HEIGHT + L_THIGH + L_SHIN)).

Definition torsoJoint (pose : PoseData) : Point :=
  getEndPoint (rootJoint pose) (groundTilt pose + torso pose - PI / 2) TORSO_HEIGHT.

Definition waistJoint (pose : PoseData) : Point :=
  getEndPoint (rootJoint pose) (groundTilt pose + waist pose + PI / 2) WAIST_HEIGHT.

(** The direction from the root to the middle of torso and waist, and from
    the root to the torso, as [extractPoseFromPhysicsBody] measures them. *)
Definition coreDirection (pose : PoseData) : R :=
  atan2 ((py (torsoJoint pose) + py (waistJoint pose)) / 2 - py (rootJoint pose))
        ((px (torsoJoint pose) + px (waistJoint pose)) / 2 - px (rootJoint pose)).

Definition torsoDirection (pose : PoseData) : R :=
  atan2 (py (torsoJoint pose) - py (rootJoint pose))
        (px (torsoJoint pose) - px (rootJoint pose)).

(** Inside the canvas and not below the ground plane. *)
Definition inBounds (p : PhysicsParticle) : Prop :=
  py (pos p) <= GROUND_PLANE_Y /\ 10 <= px (pos p) <= W - 10.

Definition inRange (n : nat) (c : PhysicsConstraint) : bool :=
  Nat.ltb (particleAIndex c) n && Nat.ltb (particleBIndex c) n.

(** Every constraint of the body refers to particles of the body. *)
Definition constraintsInRange (body : PhysicsBody) : bool :=
  forallb (inRange (List.length (particles body))) (constraints body).

(** The target a step reads for the particle is a point or nothing: no
    skeleton is given, or step 1 skips the particle (mass 0), or what the
    joints of the skeleton have under the id of the particle is not inherited
    from [Object.prototype]. *)
Definition numericTarget (targetSkeleton : option Skeleton)
    (p : PhysicsParticle) : Prop :=
  match targetSkeleton with
  | None => True
  | Some sk => mass p = 0 \/ getProperty (pid p) (joints sk) <> Inherited
  end.

(** The fields of a particle a step has no business with. *)
Definition identity (p : PhysicsParticle) : string * R := (pid p, mass p).

(** The full correction one relaxation of a constraint computes. *)
Definition correction (pA pB : PhysicsParticle) (rest : R) : Point :=
  let dx := px (pos pB) - px (pos pA) in
  let dy := py (pos pB) - py (pos pA) in
  let dist := hypot dx dy in
  mkPoint (dx * ((dist - rest) / dist)) (dy * ((dist - rest) / dist)).

(** A massless anchor and a bob hanging two units from it on a rod of
    length one. *)
Definition anchor : PhysicsParticle :=
  mkParticle "anchor" (mkPoint 100 100) (mkPoint 100 100) 0.

Definition bob : PhysicsParticle :=
  mkParticle "bob" (mkPoint 102 100) (mkPoint 102 100) 1.

Definition pendulum : PhysicsBody :=
  mkBody [anchor; bob] [mkConstraint 0 1 1] [("anchor", 0%nat); ("bob", 1%nat)].

(** Where a step leaves the two of them. *)
Definition anchorMoved : PhysicsParticle :=
  mkParticle "anchor" (mkPoint 101 100) (mkPoint 100 100) 0.

Definition bobMoved : PhysicsParticle :=
  mkParticle "bob" (mkPoint 101 100) (mkPoint 102 100) 1.


(** *** Interpolation *)

Definition blendLimb (a b : LimbData) (s : R) : LimbData :=
  mkLimb (shoulder a * (1 - s) + shoulder b * s) (elbow a * (1 - s) + elbow b * s)
         (hand a * (1 - s) + hand b * s) (hip a * (1 - s) + hip b * s)
         (knee a * (1 - s) + knee b * s) (foot a * (1 - s) + foot b * s).

Definition blendPose (a b : PoseData) (s : R) : PoseData :=
  mkPose (groundTilt a * (1 - s) + groundTilt b * s)
         (mkPoint (px (offset a) * (1 - s) + px (offset b) * s)
                  (py (offset a) * (1 - s) + py (offset b) * s))
         (torso a * (1 - s) + torso b * s) (waist a * (1 - s) + waist b * s)
         (head a * (1 - s) + head b * s)
         (blendLimb (left a) (left b) s) (blendLimb (right a) (right b) s).

Definition easingOf (e : Easing) : R -> R :=
  match e with linear => linearEase | sine => sineEase end.

Definition clamp01 (t : R) : R := Rmax 0 (Rmin 1 t).

(** *** Inverse kinematics *)

(** The point at parameter [s] on the ray from [p] through [t]. *)
Definition onRay (p t : Point) (s : R) : Point :=
  mkPoint (px p + s * (px t - px p)) (py p + s * (py t - py p)).

(** The array at [sc] holds references to points. *)
Definition okArr (sc : nat) (h : Heap) : Prop :=
  exists es, nth_error h sc = Some (OArray es) /\
             Forall (fun e => isPoint h e = true) es.

(** [h'] has every object of [h], unchanged but for the one at [sc]. *)
Definition Ext (sc : nat) (h h' : Heap) : Prop :=
  (List.length h <= List.length h')%nat /\
  forall l, (l < List.length h)%nat -> l <> sc -> nth_error h' l = nth_error h l.

(** What the loops of [solveFabrik] keep true of the heap, from the heap
    [hi] they start in. *)
Definition LoopInv (hi : Heap) (sc : nat) (h : Heap) : Prop :=
  okArr sc h /\ Ext sc hi h.

(** The heap once the copies [cv] of the chain and the array of their
    references are allocated, followed by [ext]. *)
Definition prepared (h : Heap) (cv : list Point) (ext : Heap) : Heap :=
  h ++ map OPoint cv ++ OArray (seq (List.length h) (List.length cv)) :: ext.

(** A chain of three points on a line, its array, and a target out of reach. *)
Definition sampleHeap : Heap :=
  [ OPoint (mkPoint 0 0); OPoint (mkPoint 1 0); OPoint (mkPoint 2 0);
    OArray [0; 1; 2]%nat; OPoint (mkPoint 4 0) ].

(** * Further parts of the program *)

From Stdlib Require Import ZArith.

(** ** History (history.ts) *)

Module History.

Section Generic.

(** The states of the history and [JSON.stringify] on them. *)
Variable T : Type.
Variable stringify : T -> string.

Record History := mkHistory { past : list T; present : T; future : list T }.

Definition getInitialHistory (initialState : T) : History :=
  mkHistory [] initialState [].

Definition pushHistory (history : History) (newState : T) : History :=
  if String.eqb (stringify newState) (stringify (present history)) then history
  else mkHistory (past history ++ [present history]) newState [].

(** [history.past[history.past.length - 1]] is read when the array is not
    empty, so the index is inside it. *)
Definition undoHistory (history : History) : History :=
  if Nat.eqb (List.length (past history)) 0 then history
  else
    match nth_error (past history) (List.length (past history) - 1) with
    | None => history
    | Some previous =>
        let newPast := firstn (List.length (past history) - 1) (past history) in
        mkHistory newPast previous (present history :: future history)
    end.

Definition redoHistory (history : History) : History :=
  match future history with
  | [] => history
  | next :: newFuture =>
      mkHistory (past history ++ [present history]) next newFuture
  end.

(** [canUndo] and [canRedo] of the hook (useHistory.ts). *)
Definition canUndo (history : History) : bool :=
  Nat.ltb 0 (List.length (past history)).

Definition canRedo (history : History) : bool :=
  Nat.ltb 0 (List.length (future history)).

(** Every state the history holds, oldest first. *)
Definition states (history : History) : list T :=
  past history ++ present history :: future history.

End Generic.

Arguments mkHistory {T}.
Arguments past {T}.
Arguments present {T}.
Arguments future {T}.
Arguments getInitialHistory {T}.
Arguments pushHistory {T}.
Arguments undoHistory {T}.
Arguments redoHistory {T}.
Arguments canUndo {T}.
Arguments canRedo {T}.
Arguments states {T}.

End History.

(** ** The timeline of frames (usePuppet.ts) *)

Module Puppet.

Record Frame := mkFrame {
  fid : R;
  fpose : PoseData;
  fassets : option (dict (option string)) }.

Record Timeline := mkTimeline { frames : list Frame }.

(** [frames.filter((_, i) => i !== index)] *)
Definition removeAt {A} (index : nat) (l : list A) : list A :=
  map snd (filter (fun entry => negb (Nat.eqb (fst entry) index))
                  (combine (seq 0 (List.length l)) l)).

(** [addFrame]: the timeline given to [setTimeline] and the index returned;
    [now] is [Date.now()].  [JSON.parse(JSON.stringify(v))] copies [v]. *)
Definition addFrame (timeline : Timeline) (now : R) (currentKeyframeIndex : nat)
    : Res (Timeline * nat) :=
  match match nth_error (frames timeline) currentKeyframeIndex with
        | Some f => Some f
        | None => nth_error (frames timeline) 0
        end with
  | None => TypeError
  | Some currentFrame =>
      let newFrame :=
        mkFrame now (fpose currentFrame)
          (Some (match fassets currentFrame with Some a => a | None => [] end)) in
      let newFrames :=
        firstn (currentKeyframeIndex + 1) (frames timeline)
        ++ [newFrame]
        ++ skipn (currentKeyframeIndex + 1) (frames timeline) in
      Ok (mkTimeline newFrames, (currentKeyframeIndex + 1)%nat)
  end.

(** [deleteFrame], [commitPose], [bindAsset]: the timeline given to
    [setTimeline], or [None] when the function returns without calling it. *)
Definition deleteFrame (timeline : Timeline) (currentKeyframeIndex : nat)
    : option Timeline :=
  if Nat.leb (List.length (frames timeline)) 1 then None
  else Some (mkTimeline (removeAt currentKeyframeIndex (frames timeline))).

Definition commitPose (timeline : Timeline) (newPose : PoseData)
    (currentKeyframeIndex : nat) : option Timeline :=
  let newFrames := frames timeline in
  match nth_error newFrames currentKeyframeIndex with
  | None => None
  | Some frameToUpdate =>
      Some (mkTimeline
              (set_index currentKeyframeIndex
                 (mkFrame (fid frameToUpdate) newPose (fassets frameToUpdate))
                 newFrames))
  end.

Definition bindAsset (timeline : Timeline) (partKey assetDataUrl : string)
    (currentKeyframeIndex : nat) : option Timeline :=
  let newFrames := frames timeline in
  match nth_error newFrames currentKeyframeIndex with
  | None => None
  | Some frameToUpdate =>
      let newAssets :=
        dict_set partKey (Some assetDataUrl)
          (match fassets frameToUpdate with Some a => a | None => [] end) in
      Some (mkTimeline
              (set_index currentKeyframeIndex
                 (mkFrame (fid frameToUpdate) (fpose frameToUpdate) (Some newAssets))
                 newFrames))
  end.

End Puppet.

(** ** Playback (usePlayback.ts) *)

Module Playback.

(** The update [animate] gives to [setPlayhead], with the [direction] ref it
    writes: from the playhead and the direction before, the ones after. *)
Definition tick (numFrames : nat) (playbackSpeed delta : R)
    (currentPlayhead direction : R) : R * R :=
  let maxPlayhead := INR numFrames - 1 in
  if Rle_dec maxPlayhead 0 then (0, direction)
  else
    let nextPlayhead :=
      currentPlayhead + direction * (delta / 1000) * playbackSpeed in
    if Rle_dec maxPlayhead nextPlayhead then (maxPlayhead, -1)
    else if Rle_dec nextPlayhead 0 then (0, 1)
    else (nextPlayhead, direction).

(** The effect that caps the playhead when frames are removed. *)
Definition capPlayhead (numFrames : nat) (playhead : R) : R :=
  let maxPlayhead := if Nat.ltb 0 numFrames then INR numFrames - 1 else 0 in
  if Rgtb playhead maxPlayhead then maxPlayhead else playhead.

End Playback.

(** ** Samples for the hooks *)

(** A serialisation of the naturals that tells 0 from the others. *)
Definition digit (n : nat) : string := if Nat.eqb n 0 then "0" else "1".

(** Two key frames, the second with the rig tilted. *)
Definition frameOne : Puppet.Frame := Puppet.mkFrame 1 getDefaultPose None.

Definition frameTwo : Puppet.Frame :=
  Puppet.mkFrame 2
    (mkPose 1 (offset getDefaultPose) (torso getDefaultPose) (waist getDefaultPose)
            (head getDefaultPose) (left getDefaultPose) (right getDefaultPose))
    None.

Definition twoFrames : Puppet.Timeline := Puppet.mkTimeline [frameOne; frameTwo].

(** ** The physics loop (usePhysics.ts) *)

Module PhysicsHook.

(** One frame of [animate] once the body exists: [dt] is the time since the
    frame before, in seconds.  The state is the body and the pose shown. *)
Definition physicsFrame (targetPose : PoseData) (st : PhysicsBody * PoseData)
    (dt : R) : Res (PhysicsBody * PoseData) :=
  if Rgtb dt 0 then
    let targetSkeleton := computeSkeleton targetPose in
    match updatePhysicsBody (fst st) (Rmin dt (1 / 30)) (Some targetSkeleton) with
    | Threw _ => TypeError
    | Poisoned _ => NotANumber
    | Returned body =>
        physicalPose <- extractPoseFromPhysicsBody body (snd st) ;;
        Ok (body, physicalPose)
    end
  else Ok st.

(** A run of frames. *)
Definition runFrames (targetPose : PoseData) (st : PhysicsBody * PoseData)
    (dts : list R) : Res (PhysicsBody * PoseData) :=
  foldRes (physicsFrame targetPose) dts st.

End PhysicsHook.

(** *** Notions for the physics loop *)

(** Every index of the map refers to a particle of the body. *)
Definition mapInRange (body : PhysicsBody) : bool :=
  forallb (fun entry => Nat.ltb (snd entry) (List.length (particles body)))
          (particleMap body).

(** The body has the map, the constraints and the ids and masses of a body
    made from a pose. *)
Definition rigShaped (body : PhysicsBody) : Prop :=
  particleMap body = bodyMap /\
  constraints body = bodyConstraints /\
  map identity (particles body)
  = [("root", 3.0); ("torso", 3.0); ("waist", 3.0); ("head", 1.0);
     ("left.shoulder", 1.0); ("left.elbow", 1.0); ("left.hand", 0.5);
     ("right.shoulder", 1.0); ("right.elbow", 1.0); ("right.hand", 0.5);
     ("left.hip", 1.0); ("left.knee", 1.0); ("left.foot", 0.5);
     ("right.hip", 1.0); ("right.knee", 1.0); ("right.foot", 0.5)].

(** The mass-weighted sum of two positions, along each axis. *)
Definition momentOf (pA pB : PhysicsParticle) : Point :=
  mkPoint (mass pA * px (pos pA) + mass pB * px (pos pB))
          (mass pA * py (pos pA) + mass pB * py (pos pB)).

(** A body of one particle that is not of the core. *)
Definition looseHand : PhysicsBody :=
  mkBody [mkParticle "left.hand" (mkPoint 50 50) (mkPoint 50 50) 0.5] []
         [("left.hand", 0%nat)].

(** Two particles of mass 1 and 3, four units apart. *)
Definition lightEnd : PhysicsParticle :=
  mkParticle "a" (mkPoint 100 100) (mkPoint 100 100) 1.

Definition heavyEnd : PhysicsParticle :=
  mkParticle "b" (mkPoint 104 100) (mkPoint 104 100) 3.

(** *** Notions for the skeleton *)

(** The first bone segment with a given key. *)
Definition findBone (key : string) (sk : Skeleton) : option BoneSegment :=
  find (fun b => String.eqb (bkey b) key) (bones sk).

(** The bone of [key] runs from the joint [from] to the joint [to]. *)
Definition boneJoins (sk : Skeleton) (edge : string * string * string) : Prop :=
  let '(key, from, to) := edge in
  exists b, findBone key sk = Some b /\
            dict_get from (joints sk) = Some (bstart b) /\
            dict_get to (joints sk) = Some (bend b).

(** The bones that run from a joint to the next, with the two joints. *)
Definition jointedBones : list (string * string * string) :=
  [ ("torso", "root", "torso"); ("waist", "root", "waist");
    ("left.shoulder", "left.shoulder", "left.elbow");
    ("left.elbow", "left.elbow", "left.hand");
    ("right.shoulder", "right.shoulder", "right.elbow");
    ("right.elbow", "right.elbow", "right.hand");
    ("left.hip", "left.hip", "left.knee");
    ("left.knee", "left.knee", "left.foot");
    ("right.hip", "right.hip", "right.knee");
    ("right.knee", "right.knee", "right.foot") ].

(** The pose with its offset moved by [(dx, dy)]. *)
Definition movedBy (dx dy : R) (pose : PoseData) : PoseData :=
  mkPose (groundTilt pose)
         (mkPoint (px (offset pose) + dx) (py (offset pose) + dy))
         (torso pose) (waist pose) (head pose) (left pose) (right pose).

(** Where a joint goes with it: the ground marker keeps its column. *)
Definition shiftJoint (dx dy : R) (entry : string * Point) : string * Point :=
  (fst entry,
   if String.eqb (fst entry) "ground"
   then mkPoint (px (snd entry)) (py (snd entry) + dy)
   else mkPoint (px (snd entry) + dx) (py (snd entry) + dy)).

Definition shiftPoint (key : string) (dx dy : R) (p : Point) : Point :=
  if String.eqb key "ground" then mkPoint (px p) (py p + dy)
  else mkPoint (px p + dx) (py p + dy).

Definition shiftBone (dx dy : R) (b : BoneSegment) : BoneSegment :=
  mkBone (bkey b) (shiftPoint (bkey b) dx dy (bstart b))
         (shiftPoint (bkey b) dx dy (bend b)) (bwidth b) (bangle b) (bshape b).

(** *** Notions for interpolation *)





(** ** Joint limits (kinematics.ts) *)

Module Limits.

(** All joint constraints have been removed. *)
Definition jointConstraints : dict (R * R) := [].

(** [while (normAngle > Math.PI) normAngle -= 2 * Math.PI], with a bound on
    the number of rounds; [None] when the bound is reached. *)
Fixpoint lower (fuel : nat) (normAngle : R) : option R :=
  match fuel with
  | O => None
  | S fuel' =>
      if Rgtb normAngle PI then lower fuel' (normAngle - 2 * PI)
      else Some normAngle
  end.

(** [while (normAngle < -Math.PI) normAngle += 2 * Math.PI] *)
Fixpoint raise (fuel : nat) (normAngle : R) : option R :=
  match fuel with
  | O => None
  | S fuel' =>
      if Rltb normAngle (- PI) then raise fuel' (normAngle + 2 * PI)
      else Some normAngle
  end.

Definition clampAngle (fuel : nat) (angle min max : R) : Res R :=
  match lower fuel angle with
  | None => OutOfFuel
  | Some normAngle =>
      match raise fuel normAngle with
      | None => OutOfFuel
      | Some normAngle => Ok (Rmax min (Rmin max normAngle))
      end
  end.

End Limits.

(** ** Picking a bone (Canvas.tsx) *)

Module Canvas.

Definition distToSegment (p v w : Point) : R :=
  let l2 := (px v - px w) ^ 2 + (py v - py w) ^ 2 in
  if Reqb l2 0 then hypot (px p - px v) (py p - py v)
  else
    let t := ((px p - px v) * (px w - px v) + (py p - py v) * (py w - py v)) / l2 in
    let t := Rmax 0 (Rmin 1 t) in
    let proj := mkPoint (px v + t * (px w - px v)) (py v + t * (py w - py v)) in
    hypot (px p - px proj) (py p - py proj).

(** [jointConstraints[key]] and the clamp, unless the constraints are
    bypassed. *)
Definition constrained (fuel : nat) (bypassConstraints : bool) (key : string)
    (angle : R) : Res R :=
  if bypassConstraints then Ok angle
  else match dict_get key Limits.jointConstraints with
       | Some (lo, hi) => Limits.clampAngle fuel angle lo hi
       | None => Ok angle
       end.

(** [newPose[side][name] = v] for a [side] that is ['left'] or ['right']. *)
Definition setSideAngle (side name : string) (v : R) (p : PoseData) : PoseData :=
  if String.eqb side "left" then
    mkPose (groundTilt p) (offset p) (torso p) (waist p) (head p)
           (setLimbField name v (left p)) (right p)
  else
    mkPose (groundTilt p) (offset p) (torso p) (waist p) (head p)
           (left p) (setLimbField name v (right p)).

(** [handleIk]: [Ok None] where the handler returns without an update,
    otherwise the updater it passes to [setLocalPose].  [draggedPartKey] and
    [localPose] are the state the handler closes over; [solveFabrik] is
    called with its default [iterations] and [tolerance]. *)
Definition handleIk (fuel : nat) (draggedPartKey : option string)
    (localPose : PoseData) (skeleton : Skeleton) (snappedPos : Point)
    (bypassConstraints : bool) : Res (option (PoseData -> PoseData)) :=
  match draggedPartKey with
  | None => Ok None
  | Some draggedPartKey =>
      if String.eqb draggedPartKey "" then Ok None
      else
      let isHand := includes draggedPartKey "hand" in
      let isFoot := includes draggedPartKey "foot" in
      if negb isHand && negb isFoot then Ok None
      else
        let side := if String.prefix "left" draggedPartKey then "left" else "right" in
        let isArm := isHand in
        let rootKey := (side ++ (if isArm then ".shoulder" else ".hip"))%string in
        let midKey := (side ++ (if isArm then ".elbow" else ".knee"))%string in
        let endKey := (side ++ (if isArm then ".hand" else ".foot"))%string in
        match dict_get rootKey (joints skeleton),
              dict_get midKey (joints skeleton),
              dict_get endKey (joints skeleton) with
        | Some p0, Some p1, Some p2 =>
            match solveFabrik [p0; p1; p2] snappedPos 10 0.1 with
            | newRootPos :: newMidPos :: newEndPos :: _ =>
                match getParentWorldAngle rootKey localPose with
                | Raised => TypeError
                | Null => Ok None
                | Angle parentAngle =>
                    let newRootWorldAngle :=
                      atan2 (py newMidPos - py newRootPos)
                            (px newMidPos - px newRootPos) in
                    let newRootLocalAngle := newRootWorldAngle - parentAngle in
                    let newMidWorldAngle :=
                      atan2 (py newEndPos - py newMidPos)
                            (px newEndPos - px newMidPos) in
                    let newMidLocalAngle := newMidWorldAngle - newRootWorldAngle in
                    newRootLocalAngle <-
                      constrained fuel bypassConstraints rootKey newRootLocalAngle ;;
                    newMidLocalAngle <-
                      constrained fuel bypassConstraints midKey newMidLocalAngle ;;
                    Ok (Some (fun p =>
                      let newPose := p in
                      let newPose :=
                        setSideAngle side (if isArm then "shoulder" else "hip")
                                     newRootLocalAngle newPose in
                      setSideAngle side (if isArm then "elbow" else "knee")
                                   newMidLocalAngle newPose))
                end
            | _ => TypeError
            end
        | _, _, _ => Ok None
        end
  end.

(** [handleAim]; [activePivot] is the state set when the drag began. *)
Definition handleAim (draggedPartKey : option string) (activePivot : option Point)
    (localPose : PoseData) (pos : Point) : Res (option (PoseData -> PoseData)) :=
  match draggedPartKey, activePivot with
  | Some draggedPartKey, Some activePivot =>
      if String.eqb draggedPartKey "" then Ok None
      else
        let side := if String.prefix "left" draggedPartKey then "left" else "right" in
        let isArm := existsb (fun p => includes draggedPartKey p)
                             ["shoulder"; "elbow"; "hand"] in
        let limbRootKey := (side ++ (if isArm then ".shoulder" else ".hip"))%string in
        match getParentWorldAngle limbRootKey localPose with
        | Raised => TypeError
        | Null => Ok None
        | Angle parentAngle =>
            let newWorldAngle :=
              atan2 (py pos - py activePivot) (px pos - px activePivot) in
            let newLocalAngle := newWorldAngle - parentAngle in
            Ok (Some (fun p =>
              let newPose := p in
              if isArm then
                let newPose := setSideAngle side "shoulder" newLocalAngle newPose in
                if negb (includes draggedPartKey "shoulder") then
                  let newPose := setSideAngle side "elbow" 0 newPose in
                  setSideAngle side "hand" 0 newPose
                else newPose
              else
                let newPose := setSideAngle side "hip" newLocalAngle newPose in
                if negb (includes draggedPartKey "hip") then
                  let newPose := setSideAngle side "knee" 0 newPose in
                  setSideAngle side "foot" 0 newPose
                else newPose))
        end
  | _, _ => Ok None
  end.

(** [handleGroundDrag]; [initialPoseRef] and [initialMousePosRef] are the
    refs set when the drag began. *)
Definition handleGroundDrag (initialPoseRef : option PoseData)
    (initialMousePosRef : Point) (pos : Point) : option (PoseData -> PoseData) :=
  match initialPoseRef with
  | None => None
  | Some initialPose =>
      let initialMouse := initialMousePosRef in
      let deltaX := px pos - px initialMouse in
      let deltaY := py pos - py initialMouse in
      let ROTATION_SENSITIVITY := 0.005 in
      let newGroundTilt := groundTilt initialPose + deltaX * ROTATION_SENSITIVITY in
      let newOffsetY := py (offset initialPose) + deltaY in
      Some (fun p =>
        mkPose newGroundTilt (mkPoint (px (offset initialPose)) newOffsetY)
               (torso p) (waist p) (head p) (left p) (right p))
  end.

Definition DAMPING_FACTOR : R := 0.15.

Definition lerp (a b t : R) : R := a * (1 - t) + b * t.

(** [recursiveLerp] on two poses: both have the keys of [PoseData], so the
    result has them, each number the [lerp] of the two. *)
Definition lerpLimb (a b : LimbData) (t : R) : LimbData :=
  mkLimb (lerp (shoulder a) (shoulder b) t) (lerp (elbow a) (elbow b) t)
         (lerp (hand a) (hand b) t) (lerp (hip a) (hip b) t)
         (lerp (knee a) (knee b) t) (lerp (foot a) (foot b) t).

Definition recursiveLerp (a b : PoseData) (t : R) : PoseData :=
  mkPose (lerp (groundTilt a) (groundTilt b) t)
         (mkPoint (lerp (px (offset a)) (px (offset b)) t)
                  (lerp (py (offset a)) (py (offset b)) t))
         (lerp (torso a) (torso b) t) (lerp (waist a) (waist b) t)
         (lerp (head a) (head b) t)
         (lerpLimb (left a) (left b) t) (lerpLimb (right a) (right b) t).

(** [isClose] with its default [threshold], on numbers and on poses. *)
Definition closeNumber (a b : R) : bool := Rltb (Rabs (a - b)) 0.001.

Definition closeLimb (a b : LimbData) : bool :=
  closeNumber (shoulder a) (shoulder b) && closeNumber (elbow a) (elbow b)
  && closeNumber (hand a) (hand b) && closeNumber (hip a) (hip b)
  && closeNumber (knee a) (knee b) && closeNumber (foot a) (foot b).

Definition isClose (a b : PoseData) : bool :=
  closeNumber (groundTilt a) (groundTilt b)
  && (closeNumber (px (offset a)) (px (offset b))
      && closeNumber (py (offset a)) (py (offset b)))
  && closeNumber (torso a) (torso b) && closeNumber (waist a) (waist b)
  && closeNumber (head a) (head b)
  && closeLimb (left a) (left b) && closeLimb (right a) (right b).

(** The updater [animate] passes to [setDisplayedPose], run once a frame
    while the displayed pose is not the local pose. *)
Definition animate (localPose current : PoseData) : PoseData :=
  if isClose current localPose then localPose
  else recursiveLerp current localPose DAMPING_FACTOR.

End Canvas.

(** The joint of a key in the skeleton of a pose. *)
Definition jointOf (key : string) (pose : PoseData) : option Point :=
  dict_get key (joints (computeSkeleton pose)).


(** A point turned by [angle] about a centre, in the sense of [rotatePoint]. *)
Definition turnAbout (centre : Point) (angle : R) (p : Point) : Point :=
  let q := rotatePoint (px p - px centre) (py p - py centre) angle in
  mkPoint (px centre + px q) (py centre + py q).

(** Where a ground drag takes a joint: the ground marker goes down by [dy],
    every other joint is turned about the root joint and goes down by [dy]. *)
Definition groundDragged (root : Point) (angle dy : R) (entry : string * Point)
    : string * Point :=
  (fst entry,
   if String.eqb (fst entry) "ground"
   then mkPoint (px (snd entry)) (py (snd entry) + dy)
   else let q := turnAbout root angle (snd entry) in
        mkPoint (px q) (py q + dy)).

(** The numbers of a pose, as the fields they are read from. *)
Definition poseNumbers : list (PoseData -> R) :=
  [ groundTilt; (fun p => px (offset p)); (fun p => py (offset p));
    torso; waist; head;
    (fun p => shoulder (left p)); (fun p => elbow (left p));
    (fun p => hand (left p)); (fun p => hip (left p));
    (fun p => knee (left p)); (fun p => foot (left p));
    (fun p => shoulder (right p)); (fun p => elbow (right p));
    (fun p => hand (right p)); (fun p => hip (right p));
    (fun p => knee (right p)); (fun p => foot (right p)) ].

(** ** The two-bone solver (kinematics.ts) *)

Module AnalyticIk.

Record IkAngles := mkAngles { angle1 : R; angle2 : R }.

(** [Math.sqrt] and [Math.acos] are [sqrt] and [acos]; where the code would
    have [NaN] (an argument of [acos] outside [[-1, 1]]) the model has some
    number, and no statement below is about such a call. *)
Definition solveIK (rootPos targetPos : Point) (l1 l2 : R) : option IkAngles :=
  let dx := px targetPos - px rootPos in
  let dy := py targetPos - py rootPos in
  let distSq := dx * dx + dy * dy in
  let dist := sqrt distSq in
  if Rgtb dist (l1 + l2) then Some (mkAngles (atan2 dy dx) 0)
  else if Rltb dist (Rabs (l1 - l2)) then None
  else
    let a1 := acos ((distSq + l1 * l1 - l2 * l2) / (2 * dist * l1)) in
    let a2 := acos ((l1 * l1 + l2 * l2 - distSq) / (2 * l1 * l2)) in
    Some (mkAngles (atan2 dy dx - a1) (PI - a2)).

End AnalyticIk.

(** Where two bones of lengths [l1] and [l2] end when the first leaves
    [rootPos] at the world angle [a1] and the second is turned by [a2] from
    the first, as [computeSkeleton] lays out a limb. *)
Definition twoBoneEnd (rootPos : Point) (a1 a2 l1 l2 : R) : Point :=
  getEndPoint (getEndPoint rootPos a1 l1) (a1 + a2) l2.

(** ** Keeping the rig on the canvas (utils.ts) *)

Module Utils.





End Utils.


(** * Properties *)

(** ** Comparisons, arrays, dictionaries *)

Lemma Rgtb_true a b : b < a -> Rgtb a b = true.
Proof. intros H. unfold Rgtb. destruct (Rlt_dec b a); [reflexivity | contradiction]. Qed.

Lemma Rgtb_false a b : a <= b -> Rgtb a b = false.
Proof. intros H. unfold Rgtb. destruct (Rlt_dec b a); [lra | reflexivity]. Qed.

Lemma Rltb_false a b : b <= a -> Rltb a b = false.
Proof. intros H. unfold Rltb. destruct (Rlt_dec a b); [lra | reflexivity]. Qed.

Lemma Reqb_false a b : a <> b -> Reqb a b = false.
Proof. intros H. unfold Reqb. destruct (Req_dec_T a b); [contradiction | reflexivity]. Qed.

Lemma Reqb_true a b : a = b -> Reqb a b = true.
Proof. intros H. unfold Reqb. destruct (Req_dec_T a b); [reflexivity | contradiction]. Qed.

Lemma Rltb_true a b : a < b -> Rltb a b = true.
Proof. intros H. unfold Rltb. destruct (Rlt_dec a b); [reflexivity | contradiction]. Qed.

Lemma point_eta p : mkPoint (px p) (py p) = p.
Proof. now destruct p. Qed.

Section SetIndex.
Context {A : Type}.

Lemma set_index_length (i : nat) (v : A) l :
  List.length (set_index i v l) = List.length l.
Proof.
  revert i; induction l as [| x l IH]; intros [| i]; cbn; auto.
Qed.

Lemma nth_error_set_index_eq (i : nat) (v : A) l :
  (i < List.length l)%nat -> nth_error (set_index i v l) i = Some v.
Proof.
  revert i; induction l as [| x l IH]; intros [| i] H; cbn in *; try lia; auto.
  apply IH; lia.
Qed.

Lemma nth_error_set_index_neq (i j : nat) (v : A) l :
  i <> j -> nth_error (set_index i v l) j = nth_error l j.
Proof.
  revert i j; induction l as [| x l IH]; intros [| i] [| j] H; cbn; auto; try lia.
Qed.

Lemma map_set_index {B} (f : A -> B) (i : nat) (v : A) l :
  map f (set_index i v l) = set_index i (f v) (map f l).
Proof.
  revert i; induction l as [| x l IH]; intros [| i]; cbn; auto.
  now rewrite IH.
Qed.

Lemma set_index_same (i : nat) (v : A) l :
  nth_error l i = Some v -> set_index i v l = l.
Proof.
  revert i; induction l as [| x l IH]; intros [| i]; cbn; auto.
  - now intros [= ->].
  - intros H. now rewrite IH.
Qed.

Lemma In_set_index (i : nat) (v x : A) l :
  In x (set_index i v l) -> x = v \/ In x l.
Proof.
  revert i; induction l as [| y l IH]; intros [| i]; cbn; auto.
  - intros [-> | H]; auto.
  - intros [-> | H]; auto. destruct (IH _ H); auto.
Qed.

Lemma hd_error_set_index_S (i : nat) (v : A) l :
  hd_error (set_index (S i) v l) = hd_error l.
Proof. now destruct l. Qed.

End SetIndex.

Lemma map_length_eq {A B} (f : A -> B) l l' :
  map f l = map f l' -> List.length l = List.length l'.
Proof. intros H. rewrite <- (length_map f l), H. apply length_map. Qed.

Lemma dict_get_In {A} k (d : dict A) v : dict_get k d = Some v -> In (k, v) d.
Proof.
  induction d as [| [k' v'] d IH]; cbn; [discriminate |].
  destruct (String.eqb k k') eqn:E.
  - apply String.eqb_eq in E. intros [= ->]. left; congruence.
  - auto.
Qed.

(** ** Forward kinematics *)

(** [getParentWorldAngle] has a number for every key whatsoever: the [null]
    at its end is out of reach, and so is the TypeError. *)
Lemma getParentWorldAngle_number key pose :
  exists a, getParentWorldAngle key pose = Angle a.
Proof.
  unfold getParentWorldAngle.
  destruct (dict_get key hierarchy) as [n |] eqn:E; [| eexists; reflexivity].
  apply dict_get_In in E. cbn in E.
  repeat (destruct E as [E | E]; [injection E as <- <-; eexists; reflexivity |]).
  contradiction.
Qed.

(** C5 (the code departs from it).  A key that is no key of the hierarchy
    does not get the [null] sentinel: [hierarchy[key]?.parent] is
    [undefined], the test [!parentKey] holds, and the function returns the
    number 0, which is also what it returns for the [ground] joint. *)
Theorem unknown_key_parent_angle_is_zero key pose :
  dict_get key hierarchy = None ->
  getParentWorldAngle key pose = Angle 0 /\
  getParentWorldAngle key pose = getParentWorldAngle "ground" pose.
Proof.
  intros H. unfold getParentWorldAngle. rewrite H. split; reflexivity.
Qed.

Lemma unknown_key_tail :
  dict_get "tail" hierarchy = None /\
  getParentWorldAngle "tail" getDefaultPose = Angle 0 /\
  getParentWorldAngle "tail" getDefaultPose
  = getParentWorldAngle "ground" getDefaultPose.
Proof.
  split; [reflexivity |].
  apply (unknown_key_parent_angle_is_zero "tail" getDefaultPose). reflexivity.
Defined.

(** C2 as stated fails: the bone of the left hip of the default pose does
    not carry the parent's world angle plus the local angle of the hip. *)
Lemma fk_composition_fails_on_left_hip :
  ~ (forall pose key, In key childJoints -> fkComposition key pose).
Proof.
  intros Hc.
  destruct (Hc getDefaultPose "left.hip") as (pa & la & ba & H1 & H2 & H3 & H4).
  - cbn. tauto.
  - cbn in H1, H2, H3. injection H1 as <-. injection H2 as <-. injection H3 as <-.
    generalize PI_RGT_0. lra.
Qed.

(** C2, amended.  For every pose and every joint of the hierarchy below the
    root, [getParentWorldAngle] plus the local angle of the joint is
    [groundTilt] plus the local angles along the ancestor chain, the joint
    included; the bone of the joint carries that angle, less a quarter turn
    on the joints of the legs (hip, knee, foot).  The bone of the left elbow
    carries [groundTilt + torso + left.shoulder + left.elbow], and the bone of
    the ground marker [groundTilt]. *)
Theorem fk_composition_with_leg_offset :
  (forall pose key, In key childJoints -> fkCompositionLegs key pose) /\
  (forall pose, boneAngle "left.elbow" (computeSkeleton pose)
                = Some (groundTilt pose + torso pose + shoulder (left pose)
                        + elbow (left pose))) /\
  (forall pose, boneAngle "ground" (computeSkeleton pose) = Some (groundTilt pose)).
Proof.
  split; [| split; reflexivity].
  intros pose key Hin. unfold fkCompositionLegs. cbn in Hin.
  repeat (destruct Hin as [<- | Hin];
    [ do 3 eexists; split; [reflexivity |]; split; [reflexivity |];
      split; [reflexivity |]; split; cbn; lra | ]).
  contradiction.
Qed.

Lemma fk_composition_left_elbow :
  In "left.elbow" childJoints /\ fkCompositionLegs "left.elbow" getDefaultPose.
Proof.
  assert (H : In "left.elbow" childJoints) by (cbn; tauto).
  split; [exact H |].
  exact (proj1 fk_composition_with_leg_offset getDefaultPose "left.elbow" H).
Defined.

(** ** Lengths *)

Lemma hypot_nonneg a b : 0 <= hypot a b.
Proof. apply sqrt_pos. Qed.

Lemma hypot_scale k u v : hypot (k * u) (k * v) = Rabs k * hypot u v.
Proof.
  unfold hypot.
  replace (k * u * (k * u) + k * v * (k * v)) with (Rsqr k * (u * u + v * v))
    by (unfold Rsqr; ring).
  rewrite sqrt_mult; [| apply Rle_0_sqr | nra].
  now rewrite sqrt_Rsqr_abs.
Qed.

Lemma hypot_unit a : hypot (cos a) (sin a) = 1.
Proof.
  unfold hypot. replace (cos a * cos a + sin a * sin a) with 1.
  - apply sqrt_1.
  - generalize (sin2_cos2 a). unfold Rsqr. lra.
Qed.

Lemma hypot_polar x y a L :
  0 <= L -> hypot (x + cos a * L - x) (y + sin a * L - y) = L.
Proof.
  intros HL.
  replace (x + cos a * L - x) with (L * cos a) by ring.
  replace (y + sin a * L - y) with (L * sin a) by ring.
  rewrite hypot_scale, hypot_unit, Rabs_right; lra.
Qed.

Lemma hypot_rot x y t w :
  hypot (x + (w * cos t - 0 * sin t) - x) (y + (w * sin t + 0 * cos t) - y)
  = Rabs w.
Proof.
  replace (x + (w * cos t - 0 * sin t) - x) with (w * cos t) by ring.
  replace (y + (w * sin t + 0 * cos t) - y) with (w * sin t) by ring.
  rewrite hypot_scale, hypot_unit. ring.
Qed.

Lemma hypot_same x y : hypot (x - x) (y - y) = 0.
Proof.
  unfold hypot. replace ((x - x) * (x - x) + (y - y) * (y - y)) with 0 by ring.
  apply sqrt_0.
Qed.

Lemma Rgtb_polar x y a L :
  0.1 < L -> Rgtb (hypot (x + cos a * L - x) (y + sin a * L - y)) 0.1 = true.
Proof. intros H. rewrite hypot_polar by lra. apply Rgtb_true, H. Qed.

Lemma Rgtb_rot x y t w :
  0.1 < Rabs w ->
  Rgtb (hypot (x + (w * cos t - 0 * sin t) - x)
              (y + (w * sin t + 0 * cos t) - y)) 0.1 = true.
Proof. intros H. rewrite hypot_rot. apply Rgtb_true, H. Qed.

Lemma Rgtb_same x y : Rgtb (hypot (x - x) (y - y)) 0.1 = false.
Proof. rewrite hypot_same. apply Rgtb_false. lra. Qed.

(** ** Building the body *)

Lemma bone_lengths :
  0.1 < TORSO_HEIGHT /\ 0.1 < WAIST_HEIGHT /\ 0.1 < L_ARM /\ 0.1 < L_FOREARM /\
  0.1 < L_THIGH /\ 0.1 < L_SHIN.
Proof.
  unfold TORSO_HEIGHT, WAIST_HEIGHT, L_ARM, L_FOREARM, L_THIGH, L_SHIN, HEAD_UNIT.
  lra.
Qed.

Lemma attachment_widths :
  Rabs 48 = 48 /\ Rabs (- (48)) = 48 /\ Rabs 29 = 29 /\ Rabs (- (29)) = 29.
Proof. rewrite !Rabs_Ropp, !Rabs_right by lra. auto. Qed.

(** The body of a pose, whatever the pose: sixteen particles in the order of
    [bodyMap], and the fourteen bones of [bodyConstraints] between them. *)
Lemma createPhysicsBodyFromPose_body pose :
  createPhysicsBodyFromPose pose
  = Ok (mkBody (bodyParticles pose) bodyConstraints bodyMap).
Proof.
  destruct bone_lengths as (H1 & H2 & H3 & H4 & H5 & H6).
  destruct attachment_widths as (W1 & W2 & W3 & W4).
  unfold createPhysicsBodyFromPose, bodyParticles.
  cbn.
  rewrite !Rgtb_polar by assumption.
  rewrite !Rgtb_rot by (rewrite ?W1, ?W2, ?W3, ?W4; lra).
  rewrite !Rgtb_same.
  cbn.
  rewrite !hypot_polar by lra. rewrite !hypot_rot. rewrite W1, W2, W3, W4.
  reflexivity.
Qed.

Lemma created_body_in_range pose body :
  createPhysicsBodyFromPose pose = Ok body -> constraintsInRange body = true.
Proof.
  rewrite createPhysicsBodyFromPose_body. intros [= <-]. reflexivity.
Qed.

(** C10.  Whatever the pose, [createPhysicsBodyFromPose] returns a body in
    which every constraint joins the particles of a joint and of one of its
    children in the hierarchy and has a rest length above 0.1.  Torso and head
    are at one place in the skeleton, and no constraint joins them. *)
Theorem created_constraints_link_hierarchy pose :
  exists body,
    createPhysicsBodyFromPose pose = Ok body /\
    Forall (fun c => 0.1 < restLength c /\
                     linksParentChild (particleMap body) c = true)
           (constraints body) /\
    dict_get "torso" (joints (computeSkeleton pose))
    = dict_get "head" (joints (computeSkeleton pose)) /\
    linked body "torso" "head" = false /\
    linked body "head" "torso" = false.
Proof.
  eexists. split; [apply createPhysicsBodyFromPose_body |].
  destruct bone_lengths as (H1 & H2 & H3 & H4 & H5 & H6).
  cbn [constraints particleMap].
  split; [| repeat split; reflexivity].
  unfold bodyConstraints.
  repeat (apply Forall_cons; [split; [cbn [restLength]; lra | reflexivity] |]).
  apply Forall_nil.
Qed.

(** ** Reading the pose back *)

Lemma atan2_down y : y < 0 -> atan2 y 0 = - (PI / 2).
Proof.
  intros H. unfold atan2.
  destruct (Rlt_dec 0 0); [lra |].
  destruct (Rlt_dec 0 y); [lra |].
  destruct (Rlt_dec y 0); [reflexivity | lra].
Qed.

(** What the extraction writes into [groundTilt] and [torso] on the body of
    a pose. *)
Lemma extract_created pose cs :
  exists pose',
    extractPoseFromPhysicsBody (mkBody (bodyParticles pose) cs bodyMap) pose
    = Ok pose' /\
    groundTilt pose' = coreDirection pose - PI / 2 /\
    torso pose' = torsoDirection pose - (coreDirection pose - PI / 2) /\
    offset pose' = mkPoint (px (rootJoint pose) - W / 2)
                           (py (rootJoint pose) + (WAIST_HEIGHT + L_THIGH + L_SHIN) - 650).
Proof.
  unfold extractPoseFromPhysicsBody, bodyParticles.
  cbn.
  eexists. split; [reflexivity |]. cbn. repeat split; reflexivity.
Qed.

Lemma upright_core pose :
  groundTilt pose = 0 -> torso pose = 0 -> waist pose = 0 ->
  coreDirection pose = - (PI / 2) /\ torsoDirection pose = - (PI / 2).
Proof.
  intros Hg Ht Hw. unfold coreDirection, torsoDirection, torsoJoint, waistJoint.
  rewrite Hg, Ht, Hw. cbn.
  replace (0 + 0 - PI / 2) with (- (PI / 2)) by lra.
  replace (0 + 0 + PI / 2) with (PI / 2) by lra.
  rewrite cos_neg, sin_neg, cos_PI2, sin_PI2.
  unfold TORSO_HEIGHT, WAIST_HEIGHT, HEAD_UNIT.
  split.
  - match goal with
    | |- atan2 ?a ?b = _ => replace b with 0 by lra; replace a with (- (32)) by lra
    end.
    apply atan2_down. lra.
  - match goal with
    | |- atan2 ?a ?b = _ => replace b with 0 by lra; replace a with (- (144)) by lra
    end.
    apply atan2_down. lra.
Qed.

(** C1 (the code departs from it).  On a pose that stands upright
    ([groundTilt], [torso] and [waist] all 0) the body is built and read back
    without a step in between, and the pose that comes back has
    [groundTilt = - PI] and [torso = PI / 2]: the rig is turned by half a turn,
    not reproduced.  The offset does come back. *)
Theorem extraction_after_creation_turns_the_rig pose :
  groundTilt pose = 0 -> torso pose = 0 -> waist pose = 0 ->
  exists body pose',
    createPhysicsBodyFromPose pose = Ok body /\
    extractPoseFromPhysicsBody body pose = Ok pose' /\
    groundTilt pose' = - PI /\
    torso pose' = PI / 2 /\
    px (offset pose') = px (offset pose) /\
    py (offset pose') = py (offset pose).
Proof.
  intros Hg Ht Hw.
  destruct (extract_created pose bodyConstraints) as (pose' & He & H1 & H2 & H3).
  destruct (upright_core pose Hg Ht Hw) as [Hc Hd].
  exists (mkBody (bodyParticles pose) bodyConstraints bodyMap), pose'.
  split; [apply createPhysicsBodyFromPose_body |].
  split; [exact He |].
  rewrite H1, H2, H3, Hc, Hd. cbn.
  repeat split; lra.
Qed.

Lemma extraction_after_creation_default_pose :
  groundTilt getDefaultPose = 0 /\
  exists body pose',
    createPhysicsBodyFromPose getDefaultPose = Ok body /\
    extractPoseFromPhysicsBody body getDefaultPose = Ok pose' /\
    groundTilt pose' = - PI /\
    torso pose' = PI / 2 /\
    px (offset pose') = px (offset getDefaultPose) /\
    py (offset pose') = py (offset getDefaultPose).
Proof.
  split; [reflexivity |].
  apply (extraction_after_creation_turns_the_rig getDefaultPose); reflexivity.
Defined.

(** ** The physics step *)

(** C4 (the code departs from it).  Relaxing a constraint whose first
    endpoint has mass 0 and whose second has a positive mass moves the second
    endpoint by the full correction, and moves the massless endpoint by the
    full correction too, towards the other: its share is [pBShare], which is
    [mass pB / (0 + mass pB) = 1]. *)
Theorem relax_moves_zero_mass_endpoint pA pB rest :
  mass pA = 0 -> 0 < mass pB ->
  0.001 <= hypot (px (pos pB) - px (pos pA)) (py (pos pB) - py (pos pA)) ->
  exists pA' pB',
    relaxConstraint [pA; pB] (mkConstraint 0 1 rest) = Ok [pA'; pB'] /\
    px (pos pA') = px (pos pA) + px (correction pA pB rest) /\
    py (pos pA') = py (pos pA) + py (correction pA pB rest) /\
    px (pos pB') = px (pos pB) - px (correction pA pB rest) /\
    py (pos pB') = py (pos pB) - py (correction pA pB rest).
Proof.
  intros HA HB Hd. unfold relaxConstraint.
  cbn [nth_error particleAIndex particleBIndex restLength px py].
  rewrite Rltb_false by exact Hd.
  rewrite Reqb_false by lra.
  rewrite (Rgtb_false (mass pA)) by lra.
  rewrite (Rgtb_true (mass pB)) by lra.
  unfold movePos; cbn.
  do 2 eexists; split; [reflexivity |]. unfold correction; cbn.
  rewrite HA. repeat split; field; lra.
Qed.

Lemma pendulum_rod : hypot (102 - 100) (100 - 100) = 2.
Proof.
  unfold hypot.
  replace ((102 - 100) * (102 - 100) + (100 - 100) * (100 - 100)) with (2 * 2) by lra.
  apply sqrt_square. lra.
Qed.

Lemma relax_moves_the_anchor :
  mass anchor = 0 /\ 0 < mass bob /\
  exists pA' pB',
    relaxConstraint [anchor; bob] (mkConstraint 0 1 1) = Ok [pA'; pB'] /\
    px (pos anchor) = 100 /\ px (pos pA') = 101 /\ px (pos pB') = 101.
Proof.
  split; [reflexivity |]. split; [cbn; lra |].
  destruct (relax_moves_zero_mass_endpoint anchor bob 1)
    as (a & b & E & Hax & Hay & Hbx & Hby).
  - reflexivity.
  - cbn; lra.
  - cbn. rewrite pendulum_rod. lra.
  - exists a, b. split; [exact E |]. split; [reflexivity |].
    rewrite Hax, Hbx. unfold correction; cbn. rewrite pendulum_rod. lra.
Defined.

Ltac particle_eq :=
  repeat match goal with
         | |- _ :: _ = _ :: _ => f_equal
         | |- mkParticle _ _ _ _ = mkParticle _ _ _ _ => f_equal
         | |- mkPoint _ _ = mkPoint _ _ => f_equal
         end.

Lemma pendulum_integrate :
  integratePass (0 * 0) None [anchor; bob] = ([anchor; bob], true).
Proof.
  unfold integratePass, integrate, anchor, bob; cbn.
  rewrite Reqb_true by reflexivity. rewrite Reqb_false by lra.
  f_equal. particle_eq; lra.
Qed.

Lemma pendulum_first_relax :
  relaxConstraint [anchor; bob] (mkConstraint 0 1 1) = Ok [anchorMoved; bobMoved].
Proof.
  unfold relaxConstraint, anchor, bob; cbn.
  rewrite pendulum_rod.
  rewrite Rltb_false by lra. rewrite Reqb_false by lra.
  rewrite (Rgtb_false 0) by lra. rewrite (Rgtb_true 1) by lra.
  unfold movePos; cbn. unfold anchorMoved, bobMoved.
  f_equal. particle_eq; lra.
Qed.

Lemma pendulum_later_relax :
  relaxConstraint [anchorMoved; bobMoved] (mkConstraint 0 1 1)
  = Ok [anchorMoved; bobMoved].
Proof.
  unfold relaxConstraint, anchorMoved, bobMoved; cbn.
  rewrite hypot_same. rewrite Rltb_true by lra. reflexivity.
Qed.

Lemma collide_inside p :
  py (pos p) <= GROUND_PLANE_Y -> 10 <= px (pos p) <= W - 10 -> collide p = p.
Proof.
  intros Hy Hx. unfold collide.
  rewrite (Rgtb_false (py (pos p))) by exact Hy.
  rewrite (Rltb_false (px (pos p))) by lra.
  rewrite (Rgtb_false (px (pos p))) by lra. reflexivity.
Qed.

(** The same on a whole step: with [dt = 0] and no target, the massless
    anchor of the pendulum ends one unit from where it was. *)
Lemma step_moves_the_massless_anchor :
  updatePhysicsBody pendulum 0 None
  = Returned (mkBody [anchorMoved; bobMoved]
                     (constraints pendulum) (particleMap pendulum)).
Proof.
  unfold updatePhysicsBody, pendulum. cbn [particles constraints particleMap].
  rewrite pendulum_integrate.
  unfold SOLVER_ITERATIONS. cbn [relaxLoop relaxPass].
  rewrite pendulum_first_relax. rewrite !pendulum_later_relax.
  cbn [map]. rewrite !collide_inside; try reflexivity;
    unfold GROUND_PLANE_Y, W, H; cbn; lra.
Qed.

Lemma integrate_identity dtSq ts p p' :
  integrate dtSq ts p = Ok p' -> identity p' = identity p.
Proof.
  unfold integrate. destruct (Reqb (mass p) 0); [now intros [= <-] |].
  destruct ts as [sk |]; [destruct (getProperty (pid p) (joints sk)) |];
    cbn [bind]; try discriminate; now intros [= <-].
Qed.

Lemma integratePass_identity dtSq ts ps :
  map identity (fst (integratePass dtSq ts ps)) = map identity ps.
Proof.
  induction ps as [| p ps IH]; cbn [integratePass]; [reflexivity |].
  destruct (integrate dtSq ts p) as [p' | | |] eqn:E; try reflexivity.
  destruct (integratePass dtSq ts ps) as [qs numeric]. cbn [fst map] in *.
  now rewrite IH, (integrate_identity _ _ _ _ E).
Qed.

(** Step 1 computes with numbers where every target is a point or nothing,
    and only there. *)
Lemma integrate_numeric dtSq ts p :
  numericTarget ts p -> exists p', integrate dtSq ts p = Ok p'.
Proof.
  unfold numericTarget, integrate. intros H.
  destruct (Reqb (mass p) 0) eqn:Em; [eauto |].
  destruct ts as [sk |]; [| cbn [bind]; eauto].
  destruct H as [H | H].
  - unfold Reqb in Em. destruct (Req_dec_T (mass p) 0); [discriminate | contradiction].
  - destruct (getProperty (pid p) (joints sk)); cbn [bind]; eauto. contradiction.
Qed.


Lemma integratePass_numeric dtSq ts ps :
  Forall (numericTarget ts) ps -> snd (integratePass dtSq ts ps) = true.
Proof.
  induction 1 as [| p ps Hp _ IH]; cbn [integratePass]; [reflexivity |].
  destruct (integrate_numeric dtSq ts p Hp) as [p' ->].
  now destruct (integratePass dtSq ts ps).
Qed.


Lemma getProperty_own_key {A} key (o : dict A) :
  existsb (String.eqb key) objectPrototypeKeys = false ->
  getProperty key o <> Inherited.
Proof.
  intros H. unfold getProperty. rewrite H. now destruct (dict_get key o).
Qed.

Lemma collide_identity p : identity (collide p) = identity p.
Proof.
  unfold collide.
  repeat match goal with |- context [if ?b then _ else _] => destruct b end;
    reflexivity.
Qed.

Lemma movePos_identity i dx dy ps :
  map identity (movePos i dx dy ps) = map identity ps.
Proof.
  unfold movePos. destruct (nth_error ps i) as [p |] eqn:E; [| reflexivity].
  rewrite map_set_index. apply set_index_same.
  rewrite nth_error_map, E. reflexivity.
Qed.

Lemma relaxConstraint_identity ps c ps' :
  relaxConstraint ps c = Ok ps' -> map identity ps' = map identity ps.
Proof.
  unfold relaxConstraint.
  destruct (nth_error ps (particleAIndex c)) as [pA |]; [| discriminate].
  destruct (nth_error ps (particleBIndex c)) as [pB |]; [| discriminate].
  destruct (Rltb _ _); [now intros [= <-] |].
  destruct (Reqb _ _); [now intros [= <-] |].
  intros [= <-]. now rewrite !movePos_identity.
Qed.

Lemma relaxPass_identity cs ps :
  map identity (fst (relaxPass cs ps)) = map identity ps.
Proof.
  revert ps; induction cs as [| c cs IH]; intros ps; cbn; [reflexivity |].
  destruct (relaxConstraint ps c) as [ps' | | |] eqn:E; try reflexivity.
  rewrite IH. eapply relaxConstraint_identity, E.
Qed.

Lemma relaxLoop_identity n cs ps :
  map identity (fst (relaxLoop n cs ps)) = map identity ps.
Proof.
  revert ps; induction n as [| n IH]; intros ps; cbn; [reflexivity |].
  generalize (relaxPass_identity cs ps).
  destruct (relaxPass cs ps) as [ps' [|]]; cbn; intros H; [| exact H].
  now rewrite IH.
Qed.

(** C9.  After a call of [updatePhysicsBody], returned or not, the body has
    the constraints and the map it had, as many particles as it had, and
    every particle has the id and the mass it had. *)
Theorem step_changes_positions_only body dt targetSkeleton :
  let body' := bodyOf (updatePhysicsBody body dt targetSkeleton) in
  constraints body' = constraints body /\
  particleMap body' = particleMap body /\
  List.length (particles body') = List.length (particles body) /\
  map pid (particles body') = map pid (particles body) /\
  map mass (particles body') = map mass (particles body).
Proof.
  assert (Hid : map identity (particles (bodyOf (updatePhysicsBody body dt targetSkeleton)))
                = map identity (particles body)).
  { unfold updatePhysicsBody.
    generalize (integratePass_identity (dt * dt) targetSkeleton (particles body)).
    destruct (integratePass _ _ _) as [qs [|]]; cbn [fst]; intros Hq;
      [| exact Hq].
    generalize (relaxLoop_identity SOLVER_ITERATIONS (constraints body) qs).
    destruct (relaxLoop _ _ _) as [ps [|]]; cbn; intros H.
    - rewrite map_map. rewrite (map_ext _ _ collide_identity).
      now rewrite H.
    - now rewrite H. }
  cbn zeta. repeat split.
  - unfold updatePhysicsBody. destruct (integratePass _ _ _) as [qs [|]];
      [| reflexivity].
    destruct (relaxLoop _ _ _) as [ps [|]]; reflexivity.
  - unfold updatePhysicsBody. destruct (integratePass _ _ _) as [qs [|]];
      [| reflexivity].
    destruct (relaxLoop _ _ _) as [ps [|]]; reflexivity.
  - eapply map_length_eq, Hid.
  - apply (f_equal (map fst)) in Hid. now rewrite !map_map in Hid.
  - apply (f_equal (map snd)) in Hid. now rewrite !map_map in Hid.
Qed.

Lemma collide_inBounds p : inBounds (collide p).
Proof.
  unfold inBounds, collide, Rgtb, Rltb, GROUND_PLANE_Y, W, H.
  repeat match goal with |- context [Rlt_dec ?a ?b] => destruct (Rlt_dec a b) end;
    cbn in *; lra.
Qed.

Lemma relaxConstraint_total ps c :
  inRange (List.length ps) c = true -> exists ps', relaxConstraint ps c = Ok ps'.
Proof.
  intros H. apply andb_prop in H as [HA HB]. apply Nat.ltb_lt in HA, HB.
  unfold relaxConstraint.
  destruct (nth_error ps (particleAIndex c)) eqn:EA;
    [| apply nth_error_None in EA; lia].
  destruct (nth_error ps (particleBIndex c)) eqn:EB;
    [| apply nth_error_None in EB; lia].
  destruct (Rltb _ _); [eauto |]. destruct (Reqb _ _); eauto.
Qed.

Lemma relaxPass_total cs ps :
  forallb (inRange (List.length ps)) cs = true -> snd (relaxPass cs ps) = true.
Proof.
  revert ps; induction cs as [| c cs IH]; intros ps H; cbn in *; [reflexivity |].
  apply andb_prop in H as [Hc Hcs].
  destruct (relaxConstraint_total ps c Hc) as [ps' E]. rewrite E.
  apply IH. apply relaxConstraint_identity, map_length_eq in E. now rewrite E.
Qed.

Lemma relaxLoop_total n cs ps :
  forallb (inRange (List.length ps)) cs = true -> snd (relaxLoop n cs ps) = true.
Proof.
  revert ps; induction n as [| n IH]; intros ps H; cbn; [reflexivity |].
  generalize (relaxPass_total cs ps H) (relaxPass_identity cs ps).
  destruct (relaxPass cs ps) as [ps' b]; cbn. intros -> Hid.
  apply IH. apply map_length_eq in Hid. now rewrite Hid.
Qed.




(** ** Interpolation *)

Ltac record_eq :=
  repeat match goal with
         | |- mkPose _ _ _ _ _ _ _ = mkPose _ _ _ _ _ _ _ => f_equal
         | |- mkLimb _ _ _ _ _ _ = mkLimb _ _ _ _ _ _ => f_equal
         | |- mkPoint _ _ = mkPoint _ _ => f_equal
         end.

(** On two poses the walk over the fields blends every numeric field with the
    eased, clamped time. *)
Lemma interpolatePose_fieldwise a b t e :
  interpolatePose a b t e = Ok (poseValue (blendPose a b (easingOf e (clamp01 t)))).
Proof. destruct e; reflexivity. Qed.

Lemma blendPose_0 a b : blendPose a b 0 = a.
Proof.
  destruct a as [g [ox oy] t w h [] []], b as [g' [ox' oy'] t' w' h' [] []].
  unfold blendPose, blendLimb; cbn. record_eq; ring.
Qed.

Lemma blendPose_1 a b : blendPose a b 1 = b.
Proof.
  destruct a as [g [ox oy] t w h [] []], b as [g' [ox' oy'] t' w' h' [] []].
  unfold blendPose, blendLimb; cbn. record_eq; ring.
Qed.

Lemma blendPose_half a b : blendPose a b 0.5 = meanPose a b.
Proof.
  unfold blendPose, blendLimb, meanPose, meanLimb. record_eq; lra.
Qed.

Lemma clamp01_range t : 0 <= clamp01 t <= 1.
Proof.
  unfold clamp01, Rmin. destruct (Rle_dec 1 t); unfold Rmax;
    match goal with |- context [Rle_dec ?a ?b] => destruct (Rle_dec a b) end; lra.
Qed.

Lemma clamp01_fix t : 0 <= t <= 1 -> clamp01 t = t.
Proof.
  intros H. unfold clamp01, Rmin. destruct (Rle_dec 1 t); unfold Rmax;
    match goal with |- context [Rle_dec ?a ?b] => destruct (Rle_dec a b) end; lra.
Qed.

Lemma ease_0 e : easingOf e 0 = 0.
Proof.
  destruct e; cbn; unfold linearEase, sineEase; [reflexivity |].
  rewrite Rmult_0_l, cos_0. lra.
Qed.

Lemma ease_1 e : easingOf e 1 = 1.
Proof.
  destruct e; cbn; unfold linearEase, sineEase; [reflexivity |].
  rewrite Rmult_1_l, cos_PI. lra.
Qed.

(** C6.  With either easing, [interpolatePose a b 0] is [a] and
    [interpolatePose a b 1] is [b], field by field; with the linear easing
    [interpolatePose a b 0.5] is the mean of [a] and [b], field by field; and
    at any [t] the result is the one at [t] clamped to [0, 1]. *)
Theorem interpolatePose_boundaries a b :
  (forall e, interpolatePose a b 0 e = Ok (poseValue a)) /\
  (forall e, interpolatePose a b 1 e = Ok (poseValue b)) /\
  interpolatePose a b 0.5 linear = Ok (poseValue (meanPose a b)) /\
  (forall t e, interpolatePose a b t e = interpolatePose a b (clamp01 t) e).
Proof.
  repeat split; intros; rewrite ?interpolatePose_fieldwise.
  - rewrite clamp01_fix by lra. now rewrite ease_0, blendPose_0.
  - rewrite clamp01_fix by lra. now rewrite ease_1, blendPose_1.
  - rewrite clamp01_fix by lra. cbn. unfold linearEase. now rewrite blendPose_half.
  - rewrite (clamp01_fix (clamp01 t)) by apply clamp01_range. reflexivity.
Qed.

(** ** Inverse kinematics: the stretch *)

Lemma distance_onRay_from p t s :
  0 <= s -> distance p (onRay p t s) = s * distance p t.
Proof.
  intros Hs. unfold distance, onRay; cbn.
  replace (px p - (px p + s * (px t - px p))) with (s * (px p - px t)) by ring.
  replace (py p - (py p + s * (py t - py p))) with (s * (py p - py t)) by ring.
  rewrite hypot_scale, Rabs_right by lra. reflexivity.
Qed.

Lemma distance_onRay_to p t s :
  s <= 1 -> distance (onRay p t s) t = (1 - s) * distance p t.
Proof.
  intros Hs. unfold distance, onRay; cbn.
  replace (px p + s * (px t - px p) - px t) with ((1 - s) * (px p - px t)) by ring.
  replace (py p + s * (py t - py p) - py t) with ((1 - s) * (py p - py t)) by ring.
  rewrite hypot_scale, Rabs_right by lra. reflexivity.
Qed.

Lemma distance_onRay_between p t s1 s2 :
  s1 <= s2 -> distance (onRay p t s1) (onRay p t s2) = (s2 - s1) * distance p t.
Proof.
  intros Hs. unfold distance, onRay; cbn.
  replace (px p + s1 * (px t - px p) - (px p + s2 * (px t - px p)))
    with ((s2 - s1) * (px p - px t)) by ring.
  replace (py p + s1 * (py t - py p) - (py p + s2 * (py t - py p)))
    with ((s2 - s1) * (py p - py t)) by ring.
  rewrite hypot_scale, Rabs_right by lra. reflexivity.
Qed.

Lemma blend_onRay lambda a t : blend lambda a t = onRay a t lambda.
Proof. unfold blend, onRay. f_equal; ring. Qed.

Lemma onRay_onRay p t s u :
  onRay (onRay p t s) t u = onRay p t (s + u * (1 - s)).
Proof. unfold onRay; cbn. f_equal; ring. Qed.

(** C3.  A chain of three points with segment lengths [l1] and [l2] and a
    target farther than [l1 + l2] from the root: the [while] loop does not run
    a single round, the root stays, the two other points lie on the ray from
    the root through the target, at the parameters [l1 / d] and
    [(l1 + l2) / d] of the way ([d] the distance to the target), so in this
    order and short of the target; each segment keeps its length and the
    chain measures [l1 + l2]. *)
Theorem stretch_towards_unreachable_target p0 p1 p2 target iterations tolerance :
  let l1 := distance p0 p1 in
  let l2 := distance p1 p2 in
  let d := distance p0 target in
  l1 + l2 < d ->
  exists q1 q2,
    solveFabrikRounds [p0; p1; p2] target iterations tolerance
    = ([p0; q1; q2], 0%nat) /\
    q1 = onRay p0 target (l1 / d) /\
    q2 = onRay p0 target ((l1 + l2) / d) /\
    0 <= l1 / d <= (l1 + l2) / d /\ (l1 + l2) / d < 1 /\
    distance p0 q1 = l1 /\ distance q1 q2 = l2 /\
    chainLength [p0; q1; q2] = l1 + l2.
Proof.
  intros l1 l2 d Hd.
  assert (H1 : 0 <= l1) by apply hypot_nonneg.
  assert (H2 : 0 <= l2) by apply hypot_nonneg.
  assert (Hdpos : 0 < d) by lra.
  assert (Hs1 : 0 <= l1 / d) by (apply Rle_mult_inv_pos; lra).
  assert (Hs12 : l1 / d <= (l1 + l2) / d).
  { unfold Rdiv. apply Rmult_le_compat_r; [| lra]. left. now apply Rinv_0_lt_compat. }
  assert (Hs2 : (l1 + l2) / d < 1).
  { apply (Rmult_lt_reg_r d); [lra |]. unfold Rdiv. rewrite Rmult_assoc, Rinv_l; lra. }
  exists (onRay p0 target (l1 / d)), (onRay p0 target ((l1 + l2) / d)).
  assert (Hq1 : distance p0 (onRay p0 target (l1 / d)) = l1).
  { rewrite distance_onRay_from by assumption. fold d. field. lra. }
  assert (Hq2 : distance (onRay p0 target (l1 / d)) (onRay p0 target ((l1 + l2) / d)) = l2).
  { rewrite distance_onRay_between by assumption. fold d. field. lra. }
  split; [| repeat split; try assumption; try lra].
  - unfold solveFabrikRounds. cbn [List.length Nat.eqb map].
    rewrite !point_eta.
    unfold segmentLengths, totalLength, pt.
    cbn [List.length Nat.sub seq map nth fold_left].
    rewrite ?point_eta. fold l1 l2 d.
    rewrite Rgtb_true by lra.
    unfold stretch, stretchStep, pt, len.
    cbn [List.length Nat.sub seq fold_left nth set_index].
    fold d. rewrite !blend_onRay.
    rewrite distance_onRay_to by lra. fold d.
    rewrite onRay_onRay.
    replace (l1 / d + l2 / ((1 - l1 / d) * d) * (1 - l1 / d)) with ((l1 + l2) / d)
      by (field; split; lra).
    reflexivity.
  - unfold chainLength, segmentLengths, totalLength, pt.
    cbn [List.length Nat.sub seq map nth fold_left].
    rewrite Hq1, Hq2. lra.
Qed.

Lemma distance_on_axis a b : a <= b -> distance (mkPoint a 0) (mkPoint b 0) = b - a.
Proof.
  intros H. unfold distance, hypot; cbn.
  replace ((a - b) * (a - b) + (0 - 0) * (0 - 0)) with ((b - a) * (b - a)) by ring.
  apply sqrt_square. lra.
Qed.

Lemma stretch_towards_target_on_axis :
  distance (mkPoint 0 0) (mkPoint 1 0) + distance (mkPoint 1 0) (mkPoint 2 0)
  < distance (mkPoint 0 0) (mkPoint 4 0) /\
  exists q1 q2,
    solveFabrikRounds [mkPoint 0 0; mkPoint 1 0; mkPoint 2 0] (mkPoint 4 0) 10 0.1
    = ([mkPoint 0 0; q1; q2], 0%nat) /\
    distance (mkPoint 0 0) q1 = 1 /\ distance q1 q2 = 1.
Proof.
  assert (H : distance (mkPoint 0 0) (mkPoint 1 0) + distance (mkPoint 1 0) (mkPoint 2 0)
              < distance (mkPoint 0 0) (mkPoint 4 0)).
  { rewrite !distance_on_axis by lra. lra. }
  split; [exact H |].
  destruct (stretch_towards_unreachable_target
              (mkPoint 0 0) (mkPoint 1 0) (mkPoint 2 0) (mkPoint 4 0) 10 0.1 H)
    as (q1 & q2 & E & _ & _ & _ & _ & D1 & D2 & _).
  exists q1, q2. split; [exact E |].
  rewrite D1, D2, !distance_on_axis by lra. split; lra.
Defined.

(** ** Inverse kinematics: the root of the chain *)

Lemma hd_error_fold_S (f : list Point -> nat -> Point) idx sc :
  hd_error (fold_left (fun sc i => set_index (S i) (f sc i) sc) idx sc)
  = hd_error sc.
Proof.
  revert sc; induction idx as [| i idx IH]; intros sc; cbn [fold_left];
    [reflexivity |].
  now rewrite IH, hd_error_set_index_S.
Qed.

Lemma fold_left_length {A} (step : list Point -> A -> list Point) idx sc :
  (forall sc i, List.length (step sc i) = List.length sc) ->
  List.length (fold_left step idx sc) = List.length sc.
Proof.
  intros H. revert sc; induction idx as [| i idx IH]; intros sc; cbn [fold_left];
    [reflexivity |].
  now rewrite IH, H.
Qed.

Lemma stretch_root lengths target sc :
  hd_error (stretch lengths target sc) = hd_error sc.
Proof. unfold stretch, stretchStep. apply hd_error_fold_S. Qed.

Lemma backwardPass_root lengths root sc :
  sc <> [] -> hd_error (backwardPass lengths root sc) = Some root.
Proof.
  intros H. unfold backwardPass, backwardStep.
  rewrite hd_error_fold_S. destruct sc; [contradiction | reflexivity].
Qed.

Lemma forwardPass_length lengths target sc :
  List.length (forwardPass lengths target sc) = List.length sc.
Proof.
  unfold forwardPass. rewrite fold_left_length.
  - apply set_index_length.
  - intros. apply set_index_length.
Qed.

Lemma iterate_root n lengths root target tolerance sc :
  hd_error sc = Some root ->
  hd_error (fst (iterate n lengths root target tolerance sc)) = Some root.
Proof.
  revert sc; induction n as [| n IH]; intros sc H; cbn; [exact H |].
  destruct (Rgtb _ _); [| exact H].
  specialize (IH (backwardPass lengths root (forwardPass lengths target sc))).
  destruct (iterate n _ _ _ _ _) as [sc' k]; cbn in *. apply IH.
  apply backwardPass_root. intros Hc.
  apply (f_equal (@List.length _)) in Hc. rewrite forwardPass_length in Hc.
  destruct sc; discriminate.
Qed.

(** The first point of the result is the first point of the chain. *)
Lemma solveFabrik_root chain target iterations tolerance :
  hd_error (solveFabrik chain target iterations tolerance) = hd_error chain.
Proof.
  unfold solveFabrik, solveFabrikRounds.
  destruct chain as [| p chain]; [reflexivity |].
  cbn [List.length Nat.eqb].
  rewrite (map_ext _ (fun p => p) point_eta), map_id.
  destruct (Rgtb _ _); cbn [fst].
  - apply stretch_root.
  - unfold pt; cbn [nth hd_error]. rewrite point_eta. now apply iterate_root.
Qed.

(** ** Inverse kinematics: the objects *)

Lemma Ext_refl sc h : Ext sc h h.
Proof. split; auto. Qed.

Lemma Ext_trans sc h1 h2 h3 : Ext sc h1 h2 -> Ext sc h2 h3 -> Ext sc h1 h3.
Proof.
  intros [L1 E1] [L2 E2]. split; [lia |].
  intros l Hl Hne. rewrite E2, E1; auto. lia.
Qed.

Lemma isPoint_lt h l : isPoint h l = true -> (l < List.length h)%nat.
Proof.
  unfold isPoint. destruct (nth_error h l) eqn:E; [| discriminate].
  intros _. apply nth_error_Some. congruence.
Qed.

Lemma isPoint_not_array h l es :
  isPoint h l = true -> nth_error h l = Some (OArray es) -> False.
Proof. unfold isPoint. intros H E. rewrite E in H. discriminate. Qed.

Lemma Ext_getPoint sc h h' l :
  Ext sc h h' -> (l < List.length h)%nat -> l <> sc -> getPoint h' l = getPoint h l.
Proof. intros [_ E] Hl Hne. unfold getPoint. now rewrite E. Qed.

Lemma assignNew_Ext sc i p h : Ext sc h (assignNew sc i p h).
Proof.
  unfold assignNew, alloc. split.
  - destruct (nth_error (h ++ [OPoint p]) sc) as [[q | es] |];
      rewrite ?set_index_length, length_app; cbn; lia.
  - intros l Hl Hne.
    destruct (nth_error (h ++ [OPoint p]) sc) as [[q | es] |];
      rewrite ?nth_error_set_index_neq by auto; now apply nth_error_app1.
Qed.

Lemma assignNew_array sc i p h es :
  nth_error h sc = Some (OArray es) ->
  nth_error (assignNew sc i p h) sc
  = Some (OArray (set_index i (List.length h) es)).
Proof.
  intros E.
  assert (Hsc : (sc < List.length h)%nat) by (apply nth_error_Some; congruence).
  unfold assignNew, alloc. rewrite nth_error_app1, E by exact Hsc.
  apply nth_error_set_index_eq. rewrite length_app. lia.
Qed.

Lemma assignNew_new sc i p h es :
  nth_error h sc = Some (OArray es) ->
  nth_error (assignNew sc i p h) (List.length h) = Some (OPoint p).
Proof.
  intros E.
  assert (Hsc : (sc < List.length h)%nat) by (apply nth_error_Some; congruence).
  unfold assignNew, alloc. rewrite nth_error_app1, E by exact Hsc.
  rewrite nth_error_set_index_neq by lia.
  rewrite nth_error_app2, Nat.sub_diag by lia. reflexivity.
Qed.

Lemma assignNew_okArr sc i p h : okArr sc h -> okArr sc (assignNew sc i p h).
Proof.
  intros (es & E & Hes). exists (set_index i (List.length h) es). split.
  - now apply assignNew_array.
  - apply Forall_forall. intros e He. apply In_set_index in He as [-> | He].
    + unfold isPoint. now rewrite (assignNew_new sc i p h es E).
    + rewrite Forall_forall in Hes. specialize (Hes e He).
      unfold isPoint. destruct (assignNew_Ext sc i p h) as [_ Hx].
      rewrite Hx; [exact Hes | now apply isPoint_lt |].
      intros ->. eapply isPoint_not_array; eauto.
Qed.

(** Writing a new point into a slot of the array, seen from the points. *)
Lemma assignNew_view sc i p h :
  okArr sc h -> view (assignNew sc i p h) sc = set_index i p (view h sc).
Proof.
  intros (es & E & Hes). unfold view, getArray.
  rewrite (assignNew_array sc i p h es E), E, map_set_index.
  f_equal.
  - unfold getPoint. now rewrite (assignNew_new sc i p h es E).
  - apply map_ext_in. intros e He.
    rewrite Forall_forall in Hes. specialize (Hes e He).
    apply (Ext_getPoint sc); [apply assignNew_Ext | now apply isPoint_lt |].
    intros ->. eapply isPoint_not_array; eauto.
Qed.

Lemma view_length sc h : List.length (view h sc) = List.length (getArray h sc).
Proof. apply length_map. Qed.

Section Simulation.

(** The heap [hi] the loops start in, the solved chain, and the two points
    the loops read besides it, with their values. *)
Variables (hi : Heap) (sc target root : nat) (tv rv : Point).
Hypothesis target_alloc : (target < List.length hi)%nat.
Hypothesis root_alloc : (root < List.length hi)%nat.
Hypothesis target_other : target <> sc.
Hypothesis root_other : root <> sc.
Hypothesis target_value : getPoint hi target = tv.
Hypothesis root_value : getPoint hi root = rv.

Lemma LoopInv_target h : LoopInv hi sc h -> getPoint h target = tv.
Proof. intros [_ HE]. rewrite <- target_value. now apply (Ext_getPoint sc). Qed.

Lemma LoopInv_root h : LoopInv hi sc h -> getPoint h root = rv.
Proof. intros [_ HE]. rewrite <- root_value. now apply (Ext_getPoint sc). Qed.

Lemma LoopInv_assignNew h i p : LoopInv hi sc h -> LoopInv hi sc (assignNew sc i p h).
Proof.
  intros [Hok HE]. split; [now apply assignNew_okArr |].
  eapply Ext_trans; [exact HE | apply assignNew_Ext].
Qed.

Lemma fold_sim (stepH : Heap -> nat -> Heap)
    (stepP : list Point -> nat -> list Point) :
  (forall h i, LoopInv hi sc h ->
     LoopInv hi sc (stepH h i) /\ view (stepH h i) sc = stepP (view h sc) i) ->
  forall idx h, LoopInv hi sc h ->
    LoopInv hi sc (fold_left stepH idx h) /\
    view (fold_left stepH idx h) sc = fold_left stepP idx (view h sc).
Proof.
  intros Hstep idx. induction idx as [| i idx IH]; intros h HJ; cbn [fold_left].
  - auto.
  - destruct (Hstep h i HJ) as [HJ' Hv]. rewrite <- Hv. now apply IH.
Qed.

Lemma stretchH_sim lengths h :
  LoopInv hi sc h ->
  LoopInv hi sc (stretchH lengths target sc h) /\
  view (stretchH lengths target sc h) sc = stretch lengths tv (view h sc).
Proof.
  intros HJ. unfold stretchH, stretch. rewrite view_length.
  apply fold_sim; [| exact HJ].
  intros h' i HJ'. unfold stretchStepH, stretchStep.
  rewrite (LoopInv_target h' HJ'). split; [now apply LoopInv_assignNew |].
  apply assignNew_view, HJ'.
Qed.

Lemma forwardPassH_sim lengths h :
  LoopInv hi sc h ->
  LoopInv hi sc (forwardPassH lengths target sc h) /\
  view (forwardPassH lengths target sc h) sc = forwardPass lengths tv (view h sc).
Proof.
  intros HJ. unfold forwardPassH, forwardPass.
  rewrite (LoopInv_target h HJ).
  set (h1 := assignNew sc (List.length (getArray h sc) - 1) tv h).
  assert (HJ1 : LoopInv hi sc h1) by now apply LoopInv_assignNew.
  assert (Hv1 : view h1 sc = set_index (List.length (view h sc) - 1) tv (view h sc)).
  { unfold h1. rewrite view_length. apply assignNew_view, HJ. }
  rewrite <- Hv1. rewrite (view_length sc h1).
  apply fold_sim; [| exact HJ1].
  intros h' i HJ'. unfold forwardStepH, forwardStep.
  split; [now apply LoopInv_assignNew |]. apply assignNew_view, HJ'.
Qed.

Lemma backwardPassH_sim lengths h :
  LoopInv hi sc h ->
  LoopInv hi sc (backwardPassH lengths root sc h) /\
  view (backwardPassH lengths root sc h) sc = backwardPass lengths rv (view h sc).
Proof.
  intros HJ. unfold backwardPassH, backwardPass.
  rewrite (LoopInv_root h HJ).
  set (h1 := assignNew sc 0 rv h).
  assert (HJ1 : LoopInv hi sc h1) by now apply LoopInv_assignNew.
  assert (Hv1 : view h1 sc = set_index 0 rv (view h sc)).
  { unfold h1. apply assignNew_view, HJ. }
  rewrite <- Hv1. rewrite (view_length sc h1).
  apply fold_sim; [| exact HJ1].
  intros h' i HJ'. unfold backwardStepH, backwardStep.
  split; [now apply LoopInv_assignNew |]. apply assignNew_view, HJ'.
Qed.

Lemma iterateH_sim n lengths tolerance h :
  LoopInv hi sc h ->
  LoopInv hi sc (iterateH n lengths root target tolerance sc h) /\
  view (iterateH n lengths root target tolerance sc h) sc
  = fst (iterate n lengths rv tv tolerance (view h sc)).
Proof.
  revert h; induction n as [| n IH]; intros h HJ; cbn [iterateH iterate].
  - auto.
  - rewrite (LoopInv_target h HJ), <- view_length.
    destruct (Rgtb _ _); [| auto].
    destruct (forwardPassH_sim lengths h HJ) as [HJ1 Hv1].
    destruct (backwardPassH_sim lengths _ HJ1) as [HJ2 Hv2].
    destruct (IH _ HJ2) as [HJ3 Hv3].
    split; [exact HJ3 |]. rewrite Hv3, Hv2, Hv1. clear Hv3.
    destruct (iterate n lengths rv tv tolerance _) as [sc' k]. reflexivity.
Qed.

End Simulation.

Lemma getPoint_app h ext l :
  (l < List.length h)%nat -> getPoint (h ++ ext) l = getPoint h l.
Proof. intros H. unfold getPoint. now rewrite nth_error_app1. Qed.

Lemma isPoint_app h ext l : isPoint h l = true -> isPoint (h ++ ext) l = true.
Proof.
  intros H. unfold isPoint. rewrite nth_error_app1 by now apply isPoint_lt.
  exact H.
Qed.

(** [chain.map] appends the copies and returns their references. *)
Lemma copyPoints_spec h es :
  Forall (fun e => isPoint h e = true) es ->
  copyPoints h es
  = (h ++ map OPoint (map (getPoint h) es), seq (List.length h) (List.length es)).
Proof.
  revert h; induction es as [| e es IH]; intros h Hes;
    cbn [copyPoints map List.length seq].
  - now rewrite app_nil_r.
  - inversion Hes as [| ? ? He Hes']; subst. unfold alloc.
    rewrite IH by (eapply Forall_impl; [| exact Hes']; intros l; apply isPoint_app).
    rewrite (map_ext_in (getPoint (h ++ _)) (getPoint h)).
    + rewrite length_app, <- app_assoc; cbn [List.length app].
      now rewrite Nat.add_1_r.
    + intros l Hl. apply getPoint_app, isPoint_lt.
      rewrite Forall_forall in Hes'. auto.
Qed.

Lemma nth_error_fresh (h : Heap) ps ext k :
  (k < List.length ps)%nat ->
  nth_error (h ++ map OPoint ps ++ ext) (List.length h + k)
  = option_map OPoint (nth_error ps k).
Proof.
  intros Hk. rewrite nth_error_app2 by lia.
  replace (List.length h + k - List.length h)%nat with k by lia.
  rewrite nth_error_app1 by (rewrite length_map; exact Hk).
  apply nth_error_map.
Qed.

Lemma view_fresh (h : Heap) ps ext :
  map (getPoint (h ++ map OPoint ps ++ ext)) (seq (List.length h) (List.length ps))
  = ps.
Proof.
  apply nth_error_ext. intros k.
  rewrite nth_error_map, nth_error_seq.
  destruct (Nat.ltb_spec k (List.length ps)) as [Hk | Hk]; cbn [option_map].
  - unfold getPoint. rewrite nth_error_fresh by exact Hk.
    destruct (nth_error ps k) eqn:E; [reflexivity |].
    apply nth_error_None in E. lia.
  - symmetry. now apply nth_error_None.
Qed.

Lemma isPoint_fresh (h : Heap) ps ext :
  Forall (fun e => isPoint (h ++ map OPoint ps ++ ext) e = true)
         (seq (List.length h) (List.length ps)).
Proof.
  apply Forall_forall. intros e He. apply in_seq in He.
  unfold isPoint.
  replace e with (List.length h + (e - List.length h))%nat by lia.
  rewrite nth_error_fresh by lia.
  destruct (nth_error ps (e - List.length h)) eqn:E; [reflexivity |].
  apply nth_error_None in E. lia.
Qed.

Lemma prepared_array h cv ext :
  nth_error (prepared h cv ext) (List.length h + List.length cv)
  = Some (OArray (seq (List.length h) (List.length cv))).
Proof.
  unfold prepared. rewrite nth_error_app2 by lia.
  rewrite nth_error_app2 by (rewrite length_map; lia).
  rewrite length_map.
  replace (List.length h + List.length cv - List.length h - List.length cv)%nat
    with 0%nat by lia.
  reflexivity.
Qed.

Lemma prepared_okArr h cv ext :
  okArr (List.length h + List.length cv) (prepared h cv ext).
Proof.
  eexists. split; [apply prepared_array | apply isPoint_fresh].
Qed.

Lemma prepared_view h cv ext :
  view (prepared h cv ext) (List.length h + List.length cv) = cv.
Proof. unfold view, getArray. rewrite prepared_array. apply view_fresh. Qed.

Lemma prepared_frame h cv ext l :
  (l < List.length h)%nat -> nth_error (prepared h cv ext) l = nth_error h l.
Proof. intros Hl. unfold prepared. now apply nth_error_app1. Qed.

Lemma prepared_length h cv ext :
  List.length (prepared h cv ext)
  = (List.length h + List.length cv + S (List.length ext))%nat.
Proof. unfold prepared. rewrite !length_app, length_map. cbn. lia. Qed.

Lemma prepared_root h cv rootv :
  getPoint (prepared h cv [OPoint rootv]) (S (List.length h + List.length cv))
  = rootv.
Proof.
  unfold getPoint, prepared. rewrite nth_error_app2 by lia.
  rewrite nth_error_app2 by (rewrite length_map; lia).
  rewrite length_map.
  replace (S (List.length h + List.length cv) - List.length h - List.length cv)%nat
    with 1%nat by lia.
  reflexivity.
Qed.

(** The call on objects: what it leaves alone and what it returns. *)
Lemma solveFabrikH_spec h chain target iterations tolerance es :
  nth_error h chain = Some (OArray es) ->
  Forall (fun e => isPoint h e = true) es ->
  isPoint h target = true ->
  (forall l, (l < List.length h)%nat ->
     nth_error (fst (solveFabrikH h chain target iterations tolerance)) l
     = nth_error h l) /\
  view (fst (solveFabrikH h chain target iterations tolerance))
       (snd (solveFabrikH h chain target iterations tolerance))
  = solveFabrik (map (getPoint h) es) (getPoint h target) iterations tolerance.
Proof.
  intros Echain Hes Htarget.
  assert (Htl : (target < List.length h)%nat) by now apply isPoint_lt.
  unfold solveFabrikH.
  replace (getArray h chain) with es by (unfold getArray; now rewrite Echain).
  destruct es as [| e es'].
  - cbn [List.length Nat.eqb alloc fst snd map]. split.
    + intros l Hl. now apply nth_error_app1.
    + unfold view, getArray. rewrite nth_error_app2, Nat.sub_diag by lia.
      reflexivity.
  - cbn [List.length Nat.eqb].
    rewrite copyPoints_spec by exact Hes.
    set (cv := map (getPoint h) (e :: es')).
    assert (Hlen : List.length (e :: es') = List.length cv)
      by (unfold cv; now rewrite length_map).
    rewrite Hlen.
    unfold alloc. rewrite !length_app, !length_map.
    rewrite <- !app_assoc. cbn [app List.length]. rewrite !Nat.add_1_r.
    fold (prepared h cv []).
    rewrite (prepared_view h cv []).
    set (sc := (List.length h + List.length cv)%nat).
    set (rv := pt cv 0).
    fold (prepared h cv [OPoint rv]).
    set (h3 := prepared h cv [OPoint rv]).
    assert (Hroot : getPoint h3 (S sc) = rv) by apply prepared_root.
    assert (Htv : getPoint h3 target = getPoint h target)
      by (unfold h3, prepared; now apply getPoint_app).
    assert (Hl3 : List.length h3 = (sc + 2)%nat)
      by apply (prepared_length h cv [OPoint rv]).
    assert (HJ : LoopInv h3 sc h3)
      by (split; [apply prepared_okArr | apply Ext_refl]).
    assert (Hv3 : view h3 sc = cv) by apply prepared_view.
    rewrite Hroot, Htv.
    assert (Hpure : solveFabrik cv (getPoint h target) iterations tolerance
              = if Rgtb (distance rv (getPoint h target))
                        (totalLength (segmentLengths cv))
                then stretch (segmentLengths cv) (getPoint h target) cv
                else fst (iterate iterations (segmentLengths cv) rv
                            (getPoint h target) tolerance cv)).
    { unfold solveFabrik, solveFabrikRounds.
      rewrite (map_ext _ (fun p => p) point_eta), map_id, point_eta.
      fold rv. unfold cv at 1. cbn [map List.length Nat.eqb].
      now destruct (Rgtb _ _). }
    rewrite Hpure.
    assert (Hfr : forall hf, Ext sc h3 hf -> forall l, (l < List.length h)%nat ->
                    nth_error hf l = nth_error h l).
    { intros hf [_ HE] l Hl. rewrite HE by (unfold sc; lia).
      now apply prepared_frame. }
    destruct (Rgtb _ _); cbn [fst snd].
    + destruct (stretchH_sim h3 sc target (getPoint h target)
                  ltac:(lia) ltac:(unfold sc; lia) Htv (segmentLengths cv) h3 HJ)
        as [[_ HE] Hv].
      split; [now apply Hfr | now rewrite Hv, Hv3].
    + destruct (iterateH_sim h3 sc target (S sc) (getPoint h target) rv
                  ltac:(lia) ltac:(lia) ltac:(unfold sc; lia) ltac:(lia) Htv Hroot
                  iterations (segmentLengths cv) tolerance h3 HJ)
        as [[_ HE] Hv].
      split; [now apply Hfr | now rewrite Hv, Hv3].
Qed.

(** C8.  [solveFabrik] touches nothing it is given.  On a heap where [chain]
    refers to an array of points and [target] to a point, every object that
    was there before the call is the same after it, so the array [chain] has
    the references it had and they refer to the points they did; the array
    that is returned holds what the function computes from the values; its
    first point is the first point of the input, and it is empty when the
    input is. *)
Theorem solveFabrik_leaves_its_input h chain target iterations tolerance :
  wellTyped h chain target = true ->
  let h' := fst (solveFabrikH h chain target iterations tolerance) in
  let result := snd (solveFabrikH h chain target iterations tolerance) in
  (forall l, (l < List.length h)%nat -> nth_error h' l = nth_error h l) /\
  getArray h' chain = getArray h chain /\
  view h' chain = view h chain /\
  view h' result
  = solveFabrik (view h chain) (getPoint h target) iterations tolerance /\
  hd_error (view h' result) = hd_error (view h chain) /\
  (view h chain = [] -> view h' result = []).
Proof.
  intros Hwt h' result.
  unfold wellTyped in Hwt.
  destruct (nth_error h chain) as [[q | es] |] eqn:Echain; try discriminate.
  apply andb_prop in Hwt as [Hes Htarget].
  rewrite forallb_forall in Hes. apply Forall_forall in Hes.
  assert (Hchain : (chain < List.length h)%nat) by (apply nth_error_Some; congruence).
  assert (Hframe : forall l, (l < List.length h)%nat -> nth_error h' l = nth_error h l).
  { intros l Hl. now apply (solveFabrikH_spec h chain target iterations tolerance es). }
  assert (Harr : getArray h' chain = getArray h chain).
  { unfold getArray. now rewrite Hframe. }
  assert (Hview : view h' chain = view h chain).
  { unfold view. rewrite Harr. apply map_ext_in. intros e He.
    unfold getPoint. rewrite Hframe; [reflexivity |].
    unfold getArray in He. rewrite Echain in He.
    rewrite Forall_forall in Hes. now apply isPoint_lt, Hes. }
  assert (Hres : view h' result
                 = solveFabrik (view h chain) (getPoint h target) iterations tolerance).
  { unfold view at 2, getArray. rewrite Echain.
    now apply (solveFabrikH_spec h chain target iterations tolerance es). }
  repeat split; auto.
  - rewrite Hres. apply solveFabrik_root.
  - intros Hnil. rewrite Hres, Hnil. reflexivity.
Qed.

Lemma solveFabrik_leaves_sample_heap :
  wellTyped sampleHeap 3 4 = true /\
  view (fst (solveFabrikH sampleHeap 3 4 10 0.1)) 3
  = [mkPoint 0 0; mkPoint 1 0; mkPoint 2 0] /\
  hd_error (view (fst (solveFabrikH sampleHeap 3 4 10 0.1))
                 (snd (solveFabrikH sampleHeap 3 4 10 0.1)))
  = Some (mkPoint 0 0).
Proof.
  split; [reflexivity |].
  destruct (solveFabrik_leaves_its_input sampleHeap 3 4 10 0.1 eq_refl)
    as (_ & _ & Hv & _ & Hhd & _).
  split; [exact Hv | exact Hhd].
Defined.

(** * Further properties *)
(** ** History *)

Import History.

Lemma history_eta {T} (h : History T) :
  mkHistory (past h) (present h) (future h) = h.
Proof. now destruct h. Qed.

Lemma undo_snoc {T} (l : list T) (x y : T) (f : list T) :
  undoHistory (mkHistory (l ++ [x]) y f) = mkHistory l x (y :: f).
Proof.
  unfold undoHistory. cbn [past present future].
  rewrite length_app. cbn [List.length].
  replace (List.length l + 1 - 1)%nat with (List.length l) by lia.
  replace (Nat.eqb (List.length l + 1) 0) with false
    by (symmetry; apply Nat.eqb_neq; lia).
  rewrite nth_error_app2, Nat.sub_diag by lia. cbn [nth_error].
  now rewrite firstn_app, Nat.sub_diag, firstn_all, app_nil_r.
Qed.

(** X1.  A push that changes the state can be undone: undo gives back the
    past and the present from before the push, with the pushed state as the
    only one to redo, and redo then gives the history after the push.  The
    push itself leaves nothing to redo. *)
Theorem undo_after_push {T} (stringify : T -> string) (h : History T) (s : T) :
  stringify s <> stringify (present h) ->
  undoHistory (pushHistory stringify h s) = mkHistory (past h) (present h) [s] /\
  redoHistory (undoHistory (pushHistory stringify h s)) = pushHistory stringify h s /\
  canRedo (pushHistory stringify h s) = false /\
  canUndo (pushHistory stringify h s) = true.
Proof.
  intros Hne. unfold pushHistory.
  replace (String.eqb (stringify s) (stringify (present h))) with false
    by (symmetry; now apply String.eqb_neq).
  rewrite undo_snoc. repeat split.
  unfold canUndo. cbn [past]. rewrite length_app. cbn [List.length].
  apply Nat.ltb_lt. lia.
Qed.

Lemma undo_after_push_example :
  digit 1 <> digit (present (getInitialHistory 0%nat)) /\
  undoHistory (pushHistory digit (getInitialHistory 0%nat) 1%nat)
  = mkHistory [] 0%nat [1%nat].
Proof.
  assert (H : digit 1 <> digit (present (getInitialHistory 0%nat)))
    by (cbn; discriminate).
  split; [exact H |].
  exact (proj1 (undo_after_push digit (getInitialHistory 0%nat) 1%nat H)).
Defined.

(** X2.  Undo and redo are inverse to each other: redo after an undo that
    had something to undo gives the history back, and so does undo after a
    redo that had something to redo.  With nothing to undo (to redo), undo
    (redo) leaves the history as it is. *)
Theorem undo_redo_inverse {T} (h : History T) :
  (past h <> [] -> redoHistory (undoHistory h) = h) /\
  (future h <> [] -> undoHistory (redoHistory h) = h) /\
  (past h = [] -> undoHistory h = h) /\
  (future h = [] -> redoHistory h = h).
Proof.
  destruct h as [p x f]. cbn [past present future]. repeat split.
  - intros Hne. destruct (exists_last Hne) as (l & y & ->).
    now rewrite undo_snoc.
  - intros Hne. destruct f as [| y f]; [contradiction |].
    unfold redoHistory. cbn [past present future]. now rewrite undo_snoc.
  - now intros ->.
  - now intros ->.
Qed.

Lemma undo_redo_inverse_example :
  past (mkHistory [1%nat] 2%nat [3%nat]) <> [] /\
  redoHistory (undoHistory (mkHistory [1%nat] 2%nat [3%nat]))
  = mkHistory [1%nat] 2%nat [3%nat].
Proof.
  assert (H : past (mkHistory [1%nat] 2%nat [3%nat]) <> []) by (cbn; discriminate).
  split; [exact H |].
  exact (proj1 (undo_redo_inverse (mkHistory [1%nat] 2%nat [3%nat])) H).
Defined.

(** X3.  Undo and redo only move the cursor: the states the history holds,
    oldest first, are the same before and after, none lost, none reordered. *)
Theorem undo_redo_keep_states {T} (h : History T) :
  states (undoHistory h) = states h /\ states (redoHistory h) = states h.
Proof.
  destruct h as [p x f]. split.
  - destruct p as [| a p] using rev_ind; [reflexivity |].
    rewrite undo_snoc. unfold states. cbn [past present future].
    now rewrite <- app_assoc.
  - destruct f as [| y f]; [reflexivity |].
    unfold redoHistory, states. cbn [past present future].
    now rewrite <- app_assoc.
Qed.

(** ** The timeline of frames *)

Import Puppet.

Lemma removeAt_from {A} (l : list A) (start index : nat) :
  map snd (filter (fun entry => negb (Nat.eqb (fst entry) (start + index)))
                  (combine (seq start (List.length l)) l))
  = firstn index l ++ skipn (S index) l.
Proof.
  revert start index. induction l as [| x l IH]; intros start index.
  - now destruct index.
  - cbn [List.length seq combine filter fst].
    destruct index as [| index].
    + rewrite Nat.add_0_r, Nat.eqb_refl. cbn [negb firstn skipn app].
      assert (E : forall (m : list A) s, (start < s)%nat ->
                 map snd (filter (fun entry => negb (Nat.eqb (fst entry) start))
                            (combine (seq s (List.length m)) m)) = m).
      { induction m as [| y m IHm]; intros s Hs; [reflexivity |].
        cbn [List.length seq combine filter fst].
        replace (Nat.eqb s start) with false by (symmetry; apply Nat.eqb_neq; lia).
        cbn [negb map snd]. f_equal. apply IHm. lia. }
      apply E. lia.
    + replace (Nat.eqb start (start + S index)) with false
        by (symmetry; apply Nat.eqb_neq; lia).
      cbn [negb map snd firstn skipn app]. f_equal.
      replace (start + S index)%nat with (S start + index)%nat by lia.
      apply IH.
Qed.

Lemma removeAt_spec {A} (index : nat) (l : list A) :
  removeAt index l = firstn index l ++ skipn (S index) l.
Proof. unfold removeAt. apply (removeAt_from l 0 index). Qed.

Lemma timeline_eta t : mkTimeline (frames t) = t.
Proof. now destruct t. Qed.

(** X4.  [deleteFrame] never empties the timeline: it declines on a timeline
    of one frame or none; on a timeline of two frames or more it sets a
    timeline, which is not empty and holds the frames without the one at the
    index, all the others in their order. *)
Theorem deleteFrame_keeps_a_frame t index :
  ((2 <= List.length (frames t))%nat ->
   exists t',
     deleteFrame t index = Some t' /\
     frames t' <> [] /\
     frames t' = firstn index (frames t) ++ skipn (S index) (frames t)) /\
  ((List.length (frames t) <= 1)%nat -> deleteFrame t index = None).
Proof.
  unfold deleteFrame. split.
  - intros Hl. destruct (Nat.leb_spec (List.length (frames t)) 1) as [Hle | _];
      [lia |].
    eexists. split; [reflexivity |]. cbn [frames]. rewrite removeAt_spec.
    split; [| reflexivity].
    destruct (frames t) as [| a [| b l]]; cbn in Hl; try lia.
    destruct index as [| [| index]]; cbn; discriminate.
  - intros Hl. now apply Nat.leb_le in Hl as ->.
Qed.

Lemma deleteFrame_of_two :
  (2 <= List.length (frames twoFrames))%nat /\
  exists t',
    deleteFrame twoFrames 1 = Some t' /\
    frames t' <> [] /\
    frames t' = [frameOne].
Proof.
  assert (Hl : (2 <= List.length (frames twoFrames))%nat) by (cbn; lia).
  split; [exact Hl |].
  exact (proj1 (deleteFrame_keeps_a_frame twoFrames 1) Hl).
Defined.

(** X5.  [addFrame] at the index of a frame puts a new frame right after it,
    with the pose of that frame and the id given, returns the index of the
    new frame, and leaves the frames before and after as they were. *)
Theorem addFrame_inserts_a_copy t now index f :
  nth_error (frames t) index = Some f ->
  exists t',
    addFrame t now index = Ok (t', S index) /\
    List.length (frames t') = S (List.length (frames t)) /\
    firstn (S index) (frames t') = firstn (S index) (frames t) /\
    option_map fpose (nth_error (frames t') (S index)) = Some (fpose f) /\
    option_map fid (nth_error (frames t') (S index)) = Some now /\
    skipn (S (S index)) (frames t') = skipn (S index) (frames t).
Proof.
  intros Hf. unfold addFrame. rewrite Hf, Nat.add_1_r.
  assert (Hlt : (index < List.length (frames t))%nat)
    by (apply nth_error_Some; congruence).
  assert (Hlen : List.length (firstn (S index) (frames t)) = S index)
    by (rewrite length_firstn; lia).
  eexists. split; [reflexivity |]. cbn [frames].
  repeat split.
  - rewrite length_app. cbn [app List.length]. rewrite Hlen, length_skipn. lia.
  - rewrite firstn_app, Hlen, Nat.sub_diag, firstn_O.
    now rewrite app_nil_r, firstn_firstn, Nat.min_id.
  - rewrite nth_error_app2, Hlen, Nat.sub_diag by lia. reflexivity.
  - rewrite nth_error_app2, Hlen, Nat.sub_diag by lia. reflexivity.
  - rewrite skipn_app, Hlen.
    rewrite skipn_all2 by lia.
    replace (S (S index) - S index)%nat with 1%nat by lia. reflexivity.
Qed.

Lemma addFrame_after_the_first :
  nth_error (frames twoFrames) 0 = Some frameOne /\
  exists t', addFrame twoFrames 3 0 = Ok (t', 1%nat) /\
             List.length (frames t') = 3%nat.
Proof.
  split; [reflexivity |].
  destruct (addFrame_inserts_a_copy twoFrames 3 0 frameOne eq_refl)
    as (t' & E & Hl & _).
  exists t'. split; [exact E | exact Hl].
Defined.

(** X6.  Deleting the frame [addFrame] has just added, at the index
    [addFrame] returned, gives the timeline back. *)
Theorem deleteFrame_undoes_addFrame t now index :
  (index < List.length (frames t))%nat ->
  exists t', addFrame t now index = Ok (t', S index) /\
             deleteFrame t' (S index) = Some t.
Proof.
  intros Hlt.
  destruct (nth_error (frames t) index) as [f |] eqn:Hf;
    [| apply nth_error_None in Hf; lia].
  unfold addFrame. rewrite Hf, Nat.add_1_r.
  eexists. split; [reflexivity |].
  unfold deleteFrame. cbn [frames].
  assert (Hlen : List.length (firstn (S index) (frames t)) = S index)
    by (rewrite length_firstn; lia).
  match goal with
  | |- (if Nat.leb ?n 1 then _ else _) = _ =>
      replace (Nat.leb n 1) with false
        by (symmetry; apply Nat.leb_gt; rewrite length_app, Hlen;
            cbn [app List.length]; lia)
  end.
  rewrite removeAt_spec.
  rewrite firstn_app, Hlen, Nat.sub_diag, firstn_O, app_nil_r.
  rewrite firstn_firstn, Nat.min_id.
  rewrite skipn_app, Hlen, (skipn_all2 (firstn _ _)) by lia.
  replace (S (S index) - S index)%nat with 1%nat by lia.
  cbn [skipn app].
  now rewrite firstn_skipn, timeline_eta.
Qed.

Lemma deleteFrame_undoes_addFrame_example :
  (0 < List.length (frames twoFrames))%nat /\
  exists t', addFrame twoFrames 3 0 = Ok (t', 1%nat) /\
             deleteFrame t' 1 = Some twoFrames.
Proof.
  assert (H : (0 < List.length (frames twoFrames))%nat) by (cbn; lia).
  split; [exact H |].
  exact (deleteFrame_undoes_addFrame twoFrames 3 0 H).
Defined.

(** X7.  [commitPose] at the index of a frame replaces the pose of that
    frame and nothing else: ids and assets are kept, and so is every other
    frame.  At an index past the end it does not touch the timeline. *)
Theorem commitPose_writes_one_pose t newPose index :
  ((index < List.length (frames t))%nat ->
   exists t',
     commitPose t newPose index = Some t' /\
     map fid (frames t') = map fid (frames t) /\
     map fassets (frames t') = map fassets (frames t) /\
     nth_error (map fpose (frames t')) index = Some newPose /\
     forall j, j <> index -> nth_error (frames t') j = nth_error (frames t) j) /\
  ((List.length (frames t) <= index)%nat -> commitPose t newPose index = None).
Proof.
  unfold commitPose. split.
  - intros Hlt.
    destruct (nth_error (frames t) index) as [f |] eqn:Hf;
      [| apply nth_error_None in Hf; lia].
    eexists. split; [reflexivity |]. cbn [frames]. repeat split.
    + rewrite map_set_index. apply set_index_same.
      now rewrite nth_error_map, Hf.
    + rewrite map_set_index. apply set_index_same.
      now rewrite nth_error_map, Hf.
    + rewrite map_set_index. apply nth_error_set_index_eq. now rewrite length_map.
    + intros j Hj. apply nth_error_set_index_neq. auto.
  - intros Hge. apply nth_error_None in Hge. now rewrite Hge.
Qed.

Lemma commitPose_on_second_frame :
  (1 < List.length (frames twoFrames))%nat /\
  exists t', commitPose twoFrames getDefaultPose 1 = Some t' /\
             nth_error (map fpose (frames t')) 1 = Some getDefaultPose.
Proof.
  assert (H : (1 < List.length (frames twoFrames))%nat) by (cbn; lia).
  split; [exact H |].
  destruct (proj1 (commitPose_writes_one_pose twoFrames getDefaultPose 1) H)
    as (t' & E & _ & _ & Hp & _).
  exists t'. split; [exact E | exact Hp].
Defined.

(** ** Playback *)

Import Playback.

(** X8.  Whatever the playhead, the direction, the time step and the speed
    were, after a tick the playhead is on the timeline, between 0 and the last
    frame; on a timeline of two frames or more it is at the last frame only
    with the direction turned back and at the first only with the direction
    turned forward. *)
Theorem tick_keeps_playhead_on_timeline numFrames playbackSpeed delta
    currentPlayhead direction :
  let r := tick numFrames playbackSpeed delta currentPlayhead direction in
  0 <= fst r <= Rmax 0 (INR numFrames - 1) /\
  (0 < INR numFrames - 1 ->
   (fst r = INR numFrames - 1 -> snd r = -1) /\ (fst r = 0 -> snd r = 1)).
Proof.
  unfold tick. cbn zeta.
  destruct (Rle_dec (INR numFrames - 1) 0) as [Hm | Hm].
  - cbn [fst snd]. rewrite Rmax_left by lra. split; [lra | lra].
  - rewrite Rmax_right by lra.
    destruct (Rle_dec (INR numFrames - 1) _) as [Hn | Hn]; cbn [fst snd].
    + split; [lra |]. intros _. split; [reflexivity | lra].
    + destruct (Rle_dec _ 0) as [Hz | Hz]; cbn [fst snd].
      * split; [lra |]. intros _. split; [lra | reflexivity].
      * split; [lra |]. intros _. split; lra.
Qed.

Lemma tick_at_the_last_frame :
  0 < INR 3 - 1 /\ tick 3 1 1000 1.5 1 = (INR 3 - 1, -1).
Proof.
  assert (H : 0 < INR 3 - 1) by (cbn; lra).
  split; [exact H |].
  pose proof (tick_keeps_playhead_on_timeline 3 1 1000 1.5 1) as [_ Hd].
  specialize (Hd H).
  unfold tick in *. cbn zeta in *.
  destruct (Rle_dec (INR 3 - 1) 0) as [Hm | Hm]; [lra |].
  destruct (Rle_dec (INR 3 - 1) _) as [Hn | Hn]; [reflexivity |].
  exfalso. apply Hn. cbn. lra.
Defined.

(** ** The body of a pose, and the loop on it *)

Import PhysicsHook.

Lemma bodyParticles_identity pose :
  map identity (bodyParticles pose)
  = [("root", 3.0); ("torso", 3.0); ("waist", 3.0); ("head", 1.0);
     ("left.shoulder", 1.0); ("left.elbow", 1.0); ("left.hand", 0.5);
     ("right.shoulder", 1.0); ("right.elbow", 1.0); ("right.hand", 0.5);
     ("left.hip", 1.0); ("left.knee", 1.0); ("left.foot", 0.5);
     ("right.hip", 1.0); ("right.knee", 1.0); ("right.foot", 0.5)].
Proof. reflexivity. Qed.

(** X9.  The particles of the body of a pose are the joints of its skeleton
    but the ground marker, in their order and at their places; each starts
    at rest ([prevPos] is [pos]) and has a positive mass: 3 for root, torso
    and waist, 0.5 for hands and feet, 1 for the others. *)
Theorem created_particles_are_the_joints pose :
  exists body,
    createPhysicsBodyFromPose pose = Ok body /\
    map (fun p => (pid p, pos p)) (particles body)
    = filter (fun entry => negb (String.eqb (fst entry) "ground"))
             (joints (computeSkeleton pose)) /\
    Forall (fun p => prevPos p = pos p /\ 0 < mass p) (particles body) /\
    map mass (particles body)
    = [3.0; 3.0; 3.0; 1.0; 1.0; 1.0; 0.5; 1.0; 1.0; 0.5; 1.0; 1.0; 0.5; 1.0; 1.0; 0.5].
Proof.
  eexists. split; [apply createPhysicsBodyFromPose_body |].
  cbn [particles]. split; [reflexivity |]. split; [| reflexivity].
  unfold bodyParticles. cbn.
  repeat (apply Forall_cons; [split; [reflexivity | cbn; lra] |]).
  apply Forall_nil.
Qed.

Lemma step_returns body dt targetSkeleton :
  constraintsInRange body = true ->
  Forall (numericTarget targetSkeleton) (particles body) ->
  exists body',
    updatePhysicsBody body dt targetSkeleton = Returned body' /\
    constraints body' = constraints body /\
    particleMap body' = particleMap body /\
    map identity (particles body') = map identity (particles body) /\
    Forall inBounds (particles body').
Proof.
  intros Hwf Hnum. unfold updatePhysicsBody.
  generalize (integratePass_numeric (dt * dt) targetSkeleton _ Hnum)
             (integratePass_identity (dt * dt) targetSkeleton (particles body)).
  destruct (integratePass _ _ _) as [qs numeric]; cbn [fst snd].
  intros -> Hq.
  generalize (relaxLoop_total SOLVER_ITERATIONS (constraints body) qs)
             (relaxLoop_identity SOLVER_ITERATIONS (constraints body) qs).
  rewrite (map_length_eq _ _ _ Hq). intros Ht Hid. specialize (Ht Hwf).
  destruct (relaxLoop _ _ _) as [ps b]; cbn [fst snd] in *; subst b.
  eexists. split; [reflexivity |]. cbn [constraints particleMap particles].
  repeat split.
  - now rewrite map_map, (map_ext _ _ collide_identity), Hid.
  - apply Forall_map, Forall_forall. intros p _. apply collide_inBounds.
Qed.

(** The ids of the rig are keys of their own: none is inherited. *)
Lemma rigShaped_numeric body targetSkeleton :
  rigShaped body -> Forall (numericTarget targetSkeleton) (particles body).
Proof.
  intros (_ & _ & Hid). destruct targetSkeleton as [sk |];
    [| apply Forall_forall; intros p _; exact I].
  assert (Hkeys : Forall (fun e => existsb (String.eqb (fst e)) objectPrototypeKeys = false)
                         (map identity (particles body))).
  { rewrite Hid. repeat constructor. }
  apply Forall_map in Hkeys. revert Hkeys. apply Forall_impl.
  intros p Hp. right. apply getProperty_own_key. exact Hp.
Qed.

Lemma rigShaped_in_range body : rigShaped body -> constraintsInRange body = true.
Proof.
  intros (_ & Hc & Hid). unfold constraintsInRange.
  rewrite Hc, <- (length_map identity), Hid. reflexivity.
Qed.

(** Reading a pose off a body of the shape of the rig. *)
Lemma extract_rigShaped body :
  rigShaped body ->
  exists pose' root,
    (forall p, extractPoseFromPhysicsBody body p = Ok pose') /\
    nth_error (particles body) 0 = Some root /\
    px (offset pose') = px (pos root) - W / 2 /\
    py (offset pose') = py (pos root) + (WAIST_HEIGHT + L_THIGH + L_SHIN) - 650.
Proof.
  intros (Hm & _ & Hid). destruct body as [ps cs pmap]. cbn in Hm, Hid. subst pmap.
  apply (f_equal (@List.length _)) in Hid. rewrite length_map in Hid. cbn in Hid.
  do 16 (destruct ps as [| ? ps]; [discriminate |]).
  destruct ps; [| discriminate].
  unfold extractPoseFromPhysicsBody. cbn.
  do 2 eexists. split; [intros q; reflexivity |].
  split; [reflexivity |]. cbn. split; reflexivity.
Qed.

(** X10.  Read off a body of the shape of the rig (the map, the
    constraints, the ids and the masses of a body made from a pose), the pose
    never fails to come, and it is the same whatever pose the reading starts
    from: every field is written over.  Its offset is the place of the root
    particle, counted from the anchor of the canvas. *)
Theorem extraction_ignores_the_pose_given body :
  rigShaped body ->
  exists pose' root,
    (forall p, extractPoseFromPhysicsBody body p = Ok pose') /\
    nth_error (particles body) 0 = Some root /\
    px (offset pose') = px (pos root) - W / 2 /\
    py (offset pose') = py (pos root) + (WAIST_HEIGHT + L_THIGH + L_SHIN) - 650.
Proof. exact (extract_rigShaped body). Qed.

Lemma created_body_rigShaped pose body :
  createPhysicsBodyFromPose pose = Ok body -> rigShaped body.
Proof.
  rewrite createPhysicsBodyFromPose_body. intros [= <-].
  repeat split.
Qed.

Lemma extraction_ignores_the_pose_given_example :
  exists body,
    createPhysicsBodyFromPose getDefaultPose = Ok body /\
    rigShaped body /\
    exists pose', forall p, extractPoseFromPhysicsBody body p = Ok pose'.
Proof.
  exists (mkBody (bodyParticles getDefaultPose) bodyConstraints bodyMap).
  assert (E : createPhysicsBodyFromPose getDefaultPose
              = Ok (mkBody (bodyParticles getDefaultPose) bodyConstraints bodyMap))
    by apply createPhysicsBodyFromPose_body.
  assert (Hs : rigShaped (mkBody (bodyParticles getDefaultPose) bodyConstraints bodyMap))
    by exact (created_body_rigShaped _ _ E).
  split; [exact E |]. split; [exact Hs |].
  destruct (extraction_ignores_the_pose_given _ Hs) as (pose' & root & Hp & _).
  exists pose'. exact Hp.
Defined.

Lemma physicsFrame_rigShaped targetPose body shown dt :
  rigShaped body ->
  exists body' shown',
    physicsFrame targetPose (body, shown) dt = Ok (body', shown') /\
    rigShaped body' /\
    (Forall inBounds (particles body) \/ 0 < dt -> Forall inBounds (particles body')).
Proof.
  intros Hs. unfold physicsFrame, Rgtb. cbn [fst snd].
  destruct (Rlt_dec 0 dt) as [Hdt | Hdt].
  - destruct (step_returns body (Rmin dt (1 / 30)) (Some (computeSkeleton targetPose))
                (rigShaped_in_range body Hs) (rigShaped_numeric body _ Hs))
      as (body' & E & Hc & Hm & Hid & Hb).
    rewrite E.
    assert (Hs' : rigShaped body').
    { destruct Hs as (Hm0 & Hc0 & Hid0). repeat split; congruence. }
    destruct (extract_rigShaped body' Hs') as (pose' & root & Hp & _).
    rewrite Hp. cbn [bind]. exists body', pose'. auto.
  - exists body, shown. split; [reflexivity |]. split; [exact Hs |].
    intros [Hb | Hc]; [exact Hb | contradiction].
Qed.

Lemma runFrames_rigShaped targetPose dts :
  forall body shown,
    rigShaped body ->
    exists body' shown',
      runFrames targetPose (body, shown) dts = Ok (body', shown') /\
      rigShaped body' /\
      (Forall inBounds (particles body) \/ Exists (fun dt => 0 < dt) dts ->
       Forall inBounds (particles body')).
Proof.
  unfold runFrames.
  induction dts as [| dt dts IH]; intros body shown Hs; cbn [foldRes].
  - exists body, shown. split; [reflexivity |]. split; [exact Hs |].
    intros [Hb | Hc]; [exact Hb | inversion Hc].
  - destruct (physicsFrame_rigShaped targetPose body shown dt Hs)
      as (body1 & shown1 & E1 & Hs1 & Hb1).
    rewrite E1. cbn [bind].
    destruct (IH body1 shown1 Hs1) as (body2 & shown2 & E2 & Hs2 & Hb2).
    exists body2, shown2. split; [exact E2 |]. split; [exact Hs2 |].
    intros [Hb | Hc]; apply Hb2.
    + left. apply Hb1. now left.
    + inversion Hc; subst; [left; apply Hb1; now right | now right].
Qed.

(** X11.  The loop on the body of a pose never fails: however many frames
    it runs and whatever their time steps and the target pose, every step
    returns and every reading gives a pose; the body keeps the shape of the
    rig, and once a frame has had a positive time step every particle is on
    the canvas and not below the ground. *)
Theorem physics_loop_never_fails pose targetPose shown dts body :
  createPhysicsBodyFromPose pose = Ok body ->
  exists body' shown',
    runFrames targetPose (body, shown) dts = Ok (body', shown') /\
    rigShaped body' /\
    (Exists (fun dt => 0 < dt) dts -> Forall inBounds (particles body')).
Proof.
  intros E.
  destruct (runFrames_rigShaped targetPose dts body shown
              (created_body_rigShaped pose body E))
    as (body' & shown' & Er & Hs & Hb).
  exists body', shown'. split; [exact Er |]. split; [exact Hs |].
  intros Hx. apply Hb. now right.
Qed.

Lemma physics_loop_on_default_pose :
  exists body,
    createPhysicsBodyFromPose getDefaultPose = Ok body /\
    exists body' shown',
      runFrames getDefaultPose (body, getDefaultPose) [1 / 60; 1 / 60]
      = Ok (body', shown') /\
      rigShaped body'.
Proof.
  exists (mkBody (bodyParticles getDefaultPose) bodyConstraints bodyMap).
  assert (E : createPhysicsBodyFromPose getDefaultPose
              = Ok (mkBody (bodyParticles getDefaultPose) bodyConstraints bodyMap))
    by apply createPhysicsBodyFromPose_body.
  split; [exact E |].
  destruct (physics_loop_never_fails getDefaultPose getDefaultPose getDefaultPose
              [1 / 60; 1 / 60] _ E) as (body' & shown' & Er & Hs & _).
  exists body', shown'. split; [exact Er | exact Hs].
Defined.

(** ** Reading a body that lacks the core *)

Lemma getParticlePos_in_range body key :
  mapInRange body = true ->
  exists o, getParticlePos body key = Ok o /\
            (dict_get key (particleMap body) = None -> o = None).
Proof.
  intros Hr. unfold getParticlePos.
  destruct (dict_get key (particleMap body)) as [index |] eqn:E.
  - apply dict_get_In in E. unfold mapInRange in Hr.
    rewrite forallb_forall in Hr. specialize (Hr _ E). cbn [snd] in Hr.
    apply Nat.ltb_lt in Hr. unfold at_index.
    destruct (nth_error (particles body) index) eqn:En;
      [| apply nth_error_None in En; lia].
    eexists. split; [reflexivity | discriminate].
  - eexists. split; [reflexivity | reflexivity].
Qed.

(** X12.  When the body has no particle for the root, for the torso or for
    the waist, the reading gives back the pose it was given, untouched. *)
Theorem extraction_without_core_keeps_pose body p :
  mapInRange body = true ->
  dict_get "root" (particleMap body) = None \/
  dict_get "torso" (particleMap body) = None \/
  dict_get "waist" (particleMap body) = None ->
  extractPoseFromPhysicsBody body p = Ok p.
Proof.
  intros Hr Hmiss. unfold extractPoseFromPhysicsBody.
  destruct (getParticlePos_in_range body "root" Hr) as (o1 & -> & H1).
  destruct (getParticlePos_in_range body "torso" Hr) as (o2 & -> & H2).
  destruct (getParticlePos_in_range body "waist" Hr) as (o3 & -> & H3).
  cbn [bind].
  destruct Hmiss as [Hm | [Hm | Hm]].
  - rewrite (H1 Hm). reflexivity.
  - rewrite (H2 Hm). now destruct o1.
  - rewrite (H3 Hm). destruct o1; [destruct o2 |]; reflexivity.
Qed.

Lemma extraction_of_a_loose_hand :
  mapInRange looseHand = true /\
  extractPoseFromPhysicsBody looseHand getDefaultPose = Ok getDefaultPose.
Proof.
  split; [reflexivity |].
  apply extraction_without_core_keeps_pose; [reflexivity | left; reflexivity].
Defined.

(** ** One relaxation of a constraint *)

Lemma movePos_other i j dx dy ps :
  i <> j -> nth_error (movePos i dx dy ps) j = nth_error ps j.
Proof.
  intros H. unfold movePos. destruct (nth_error ps i); [| reflexivity].
  now apply nth_error_set_index_neq.
Qed.

Lemma movePos_at i dx dy ps p :
  nth_error ps i = Some p ->
  nth_error (movePos i dx dy ps) i
  = Some (mkParticle (pid p) (mkPoint (px (pos p) + dx) (py (pos p) + dy))
                     (prevPos p) (mass p)).
Proof.
  intros H. unfold movePos. rewrite H.
  apply nth_error_set_index_eq. apply nth_error_Some. congruence.
Qed.

(** X13.  Between two particles of positive mass, a distinct pair at a
    distance of 0.001 or more, one relaxation of a constraint puts them
    exactly the rest length apart, leaves their mass-weighted mean where it
    was (the lighter one moves more) and moves no other particle. *)
Theorem relax_restores_rest_length ps c pA pB :
  nth_error ps (particleAIndex c) = Some pA ->
  nth_error ps (particleBIndex c) = Some pB ->
  particleAIndex c <> particleBIndex c ->
  0 < mass pA -> 0 < mass pB -> 0 <= restLength c ->
  0.001 <= Ik.distance (pos pB) (pos pA) ->
  exists ps' pA' pB',
    relaxConstraint ps c = Ok ps' /\
    nth_error ps' (particleAIndex c) = Some pA' /\
    nth_error ps' (particleBIndex c) = Some pB' /\
    Ik.distance (pos pB') (pos pA') = restLength c /\
    momentOf pA' pB' = momentOf pA pB /\
    forall j, j <> particleAIndex c -> j <> particleBIndex c ->
              nth_error ps' j = nth_error ps j.
Proof.
  intros HA HB Hne HmA HmB Hrest Hd. unfold relaxConstraint. rewrite HA, HB.
  unfold Ik.distance in Hd.
  set (dx := px (pos pB) - px (pos pA)) in *.
  set (dy := py (pos pB) - py (pos pA)) in *.
  cbn [px py].
  rewrite Rltb_false by exact Hd.
  rewrite Reqb_false by lra.
  rewrite (Rgtb_true (mass pA)), (Rgtb_true (mass pB)) by lra.
  set (dist := hypot dx dy) in *.
  set (diff := (dist - restLength c) / dist).
  set (sA := mass pA / (mass pA + mass pB)).
  set (sB := mass pB / (mass pA + mass pB)).
  assert (Hs : sA + sB = 1) by (unfold sA, sB; field; lra).
  assert (Hk : 1 - diff = restLength c / dist) by (unfold diff; field; lra).
  set (ps1 := movePos (particleAIndex c) (dx * diff * sB) (dy * diff * sB) ps).
  assert (HB1 : nth_error ps1 (particleBIndex c) = Some pB)
    by (unfold ps1; rewrite movePos_other; auto).
  assert (HA1 : nth_error ps1 (particleAIndex c) = Some _)
    by (unfold ps1; apply movePos_at; exact HA).
  do 3 eexists. split; [reflexivity |].
  split; [rewrite movePos_other by auto; exact HA1 |].
  split; [apply movePos_at; exact HB1 |].
  split; [| split].
  - unfold Ik.distance. cbn [pos px py].
    replace (px (pos pB) + - (dx * diff * sA) - (px (pos pA) + dx * diff * sB))
      with (dx - dx * diff * (sA + sB)) by (unfold dx; ring).
    replace (py (pos pB) + - (dy * diff * sA) - (py (pos pA) + dy * diff * sB))
      with (dy - dy * diff * (sA + sB)) by (unfold dy; ring).
    rewrite Hs.
    replace (dx - dx * diff * 1) with ((1 - diff) * dx) by ring.
    replace (dy - dy * diff * 1) with ((1 - diff) * dy) by ring.
    rewrite hypot_scale, Hk. fold dist.
    rewrite Rabs_right; [field; lra |].
    apply Rle_ge. apply Rle_mult_inv_pos; lra.
  - unfold momentOf. cbn [pos px py mass]. unfold sA, sB. f_equal; field; lra.
  - intros j HjA HjB. rewrite movePos_other by auto.
    unfold ps1. now rewrite movePos_other by auto.
Qed.

Lemma hypot_4_0 : hypot (104 - 100) (100 - 100) = 4.
Proof.
  unfold hypot.
  replace ((104 - 100) * (104 - 100) + (100 - 100) * (100 - 100)) with (4 * 4) by lra.
  apply sqrt_square. lra.
Qed.

Lemma relax_between_two_ends :
  0.001 <= Ik.distance (pos heavyEnd) (pos lightEnd) /\
  exists ps' pA' pB',
    relaxConstraint [lightEnd; heavyEnd] (mkConstraint 0 1 2) = Ok ps' /\
    nth_error ps' 0 = Some pA' /\ nth_error ps' 1 = Some pB' /\
    Ik.distance (pos pB') (pos pA') = 2.
Proof.
  assert (Hd : 0.001 <= Ik.distance (pos heavyEnd) (pos lightEnd)).
  { unfold Ik.distance; cbn. rewrite hypot_4_0. lra. }
  split; [exact Hd |].
  destruct (relax_restores_rest_length [lightEnd; heavyEnd] (mkConstraint 0 1 2)
              lightEnd heavyEnd eq_refl eq_refl)
    as (ps' & a & b & E & Ha & Hb & Hdist & _).
  - cbn; lia.
  - cbn; lra.
  - cbn; lra.
  - cbn; lra.
  - exact Hd.
  - exists ps', a, b. auto.
Defined.

(** ** The skeleton *)

Lemma hypot_polar_back x y a L :
  0 <= L -> hypot (x - (x + cos a * L)) (y - (y + sin a * L)) = L.
Proof.
  intros HL.
  replace (x - (x + cos a * L)) with (- L * cos a) by ring.
  replace (y - (y + sin a * L)) with (- L * sin a) by ring.
  rewrite hypot_scale, hypot_unit, Rabs_Ropp, Rabs_right; lra.
Qed.

(** X14.  The bones are rigid: whatever the pose, each bone of the skeleton
    is as long as its part of the rig, the ground marker and the neck have no
    length, and the head bone is of length 1. *)
Theorem bones_keep_their_length pose :
  map (fun b => (bkey b, Ik.distance (bstart b) (bend b)))
      (bones (computeSkeleton pose))
  = [ ("ground", 0); ("torso", TORSO_HEIGHT); ("waist", WAIST_HEIGHT);
      ("neck", 0); ("head", 1);
      ("left.shoulder", L_ARM); ("left.elbow", L_FOREARM); ("left.hand", L_HAND);
      ("right.shoulder", L_ARM); ("right.elbow", L_FOREARM); ("right.hand", L_HAND);
      ("left.hip", L_THIGH); ("left.knee", L_SHIN); ("left.foot", L_FOOT);
      ("right.hip", L_THIGH); ("right.knee", L_SHIN); ("right.foot", L_FOOT) ].
Proof.
  unfold Ik.distance. cbn.
  rewrite hypot_same.
  rewrite !hypot_polar_back;
    unfold TORSO_HEIGHT, WAIST_HEIGHT, NECK_LENGTH, L_ARM, L_FOREARM, L_HAND,
           L_THIGH, L_SHIN, L_FOOT, HEAD_UNIT; try lra.
  reflexivity.
Qed.

(** X15.  The skeleton holds together: whatever the pose, torso and waist
    bones start at the root joint and end at the torso and waist joints, and
    along every limb each bone starts at the joint of its key and ends at the
    joint the next bone starts at. *)
Theorem bones_join_at_the_joints pose :
  Forall (boneJoins (computeSkeleton pose)) jointedBones.
Proof.
  unfold jointedBones.
  repeat (apply Forall_cons;
          [eexists; split; [reflexivity |]; split; reflexivity |]).
  apply Forall_nil.
Qed.

Ltac shape_eq :=
  repeat match goal with
         | |- _ :: _ = _ :: _ => f_equal
         | |- (_, _) = (_, _) => f_equal
         | |- mkPoint _ _ = mkPoint _ _ => f_equal
         | |- mkBone _ _ _ _ _ _ = mkBone _ _ _ _ _ _ => f_equal
         end.

(** X16.  Moving the offset of a pose moves the rig and nothing else: every
    joint and both ends of every bone go by the same [(dx, dy)], but for the
    ground marker, which keeps its column and goes by [dy] only; widths and
    angles of the bones stay. *)
Theorem offset_moves_the_rig pose dx dy :
  joints (computeSkeleton (movedBy dx dy pose))
  = map (shiftJoint dx dy) (joints (computeSkeleton pose)) /\
  bones (computeSkeleton (movedBy dx dy pose))
  = map (shiftBone dx dy) (bones (computeSkeleton pose)).
Proof.
  split; cbn; unfold getEndPoint, shiftJoint, shiftBone, shiftPoint; cbn;
    shape_eq; ring.
Qed.

(** ** More on interpolation *)

Lemma clamp01_flip t : clamp01 (1 - t) = 1 - clamp01 t.
Proof.
  unfold clamp01, Rmin.
  destruct (Rle_dec 1 (1 - t)), (Rle_dec 1 t); unfold Rmax;
    repeat match goal with |- context [Rle_dec ?a ?b] => destruct (Rle_dec a b) end;
    lra.
Qed.

Lemma ease_flip e s : easingOf e (1 - s) = 1 - easingOf e s.
Proof.
  destruct e; cbn; unfold linearEase, sineEase; [reflexivity |].
  replace ((1 - s) * PI) with (PI - s * PI) by ring.
  rewrite cos_minus, cos_PI, sin_PI. lra.
Qed.


Lemma blendPose_flip a b s : blendPose a b (1 - s) = blendPose b a s.
Proof. unfold blendPose, blendLimb. record_eq; ring. Qed.




(** X18.  Interpolation runs the same in both directions: from [a] to [b]
    at time [t] is from [b] to [a] at time [1 - t], with either easing and at
    every [t], the clamped ones included. *)
Theorem interpolatePose_backwards a b t e :
  interpolatePose a b t e = interpolatePose b a (1 - t) e.
Proof.
  rewrite !interpolatePose_fieldwise, clamp01_flip, ease_flip.
  now rewrite blendPose_flip.
Qed.


(** ** More on the chain solver *)

Lemma stretch_length lengths target sc :
  List.length (stretch lengths target sc) = List.length sc.
Proof.
  unfold stretch. apply fold_left_length. intros. apply set_index_length.
Qed.

Lemma backwardPass_length lengths root sc :
  List.length (backwardPass lengths root sc) = List.length sc.
Proof.
  unfold backwardPass. rewrite fold_left_length.
  - apply set_index_length.
  - intros. apply set_index_length.
Qed.

Lemma iterate_length n lengths root target tolerance sc :
  List.length (fst (iterate n lengths root target tolerance sc)) = List.length sc.
Proof.
  revert sc; induction n as [| n IH]; intros sc; cbn [iterate]; [reflexivity |].
  destruct (Rgtb _ _); [| reflexivity].
  specialize (IH (backwardPass lengths root (forwardPass lengths target sc))).
  destruct (iterate n _ _ _ _ _) as [sc' k]; cbn [fst] in *.
  now rewrite IH, backwardPass_length, forwardPass_length.
Qed.

(** X20.  [solveFabrik] returns as many points as it is given, whatever
    the target, the number of rounds and the tolerance. *)
Theorem solveFabrik_keeps_the_number_of_points chain target iterations tolerance :
  List.length (solveFabrik chain target iterations tolerance) = List.length chain.
Proof.
  unfold solveFabrik, solveFabrikRounds.
  destruct chain as [| p chain]; [reflexivity |].
  cbn [List.length Nat.eqb].
  destruct (Rgtb _ _); cbn [fst].
  - rewrite stretch_length. apply length_map.
  - rewrite iterate_length. apply length_map.
Qed.

(** X21.  A target within reach that the end of the chain already touches,
    to the tolerance, leaves the chain as it is, without a round; and so does
    a call that allows no round. *)
Theorem solveFabrik_at_rest chain target iterations tolerance :
  distance (pt chain 0) target <= chainLength chain ->
  iterations = 0%nat \/
  distance (pt chain (List.length chain - 1)) target <= tolerance ->
  solveFabrikRounds chain target iterations tolerance = (chain, 0%nat).
Proof.
  intros Hreach Hrest. unfold solveFabrikRounds.
  destruct chain as [| p chain]; [reflexivity |].
  cbn [List.length Nat.eqb].
  rewrite (map_ext _ (fun p => p) point_eta), map_id, point_eta.
  unfold chainLength in Hreach. rewrite Rgtb_false by exact Hreach.
  destruct Hrest as [-> | Hrest]; [reflexivity |].
  destruct iterations as [| n]; [reflexivity |].
  cbn [iterate]. now rewrite Rgtb_false by exact Hrest.
Qed.

Lemma solveFabrik_at_rest_example :
  distance (pt [mkPoint 0 0; mkPoint 1 0; mkPoint 2 0] 0) (mkPoint 2 0)
  <= chainLength [mkPoint 0 0; mkPoint 1 0; mkPoint 2 0] /\
  solveFabrikRounds [mkPoint 0 0; mkPoint 1 0; mkPoint 2 0] (mkPoint 2 0) 10 0.1
  = ([mkPoint 0 0; mkPoint 1 0; mkPoint 2 0], 0%nat).
Proof.
  assert (H : distance (pt [mkPoint 0 0; mkPoint 1 0; mkPoint 2 0] 0) (mkPoint 2 0)
              <= chainLength [mkPoint 0 0; mkPoint 1 0; mkPoint 2 0]).
  { unfold chainLength, segmentLengths, totalLength, pt. cbn.
    rewrite !distance_on_axis by lra. lra. }
  split; [exact H |].
  apply solveFabrik_at_rest; [exact H |]. right.
  unfold pt; cbn. rewrite distance_on_axis by lra. lra.
Defined.

(** ** Joint limits *)

Import Limits.

Lemma nat_above r : exists n : nat, r <= INR n.
Proof.
  destruct (archimed r) as [Hup _].
  destruct (Z.ltb_spec 0 (up r)) as [Hz | Hz].
  - exists (Z.to_nat (up r)). rewrite INR_IZR_INZ, Z2Nat.id by lia. lra.
  - exists 0%nat. apply IZR_le in Hz. cbn. lra.
Qed.

Lemma lower_spec n :
  forall a fuel, a <= PI + 2 * INR n * PI -> (n < fuel)%nat ->
    exists k : nat,
      lower fuel a = Some (a - 2 * INR k * PI) /\
      a - 2 * INR k * PI <= PI /\
      (a <= PI -> k = 0%nat) /\
      (PI < a -> - PI < a - 2 * INR k * PI).
Proof.
  induction n as [| n IH]; intros a fuel Ha Hf;
    (destruct fuel as [| fuel]; [lia |]); cbn [lower].
  - cbn in Ha. rewrite Rgtb_false by lra. exists 0%nat. cbn.
    repeat split; try lra. f_equal; ring.
  - unfold Rgtb. destruct (Rlt_dec PI a) as [Hgt | Hle].
    + rewrite S_INR in Ha.
      destruct (IH (a - 2 * PI) fuel) as (k & E & Hk & H0 & H1); [lra | lia |].
      exists (S k). rewrite S_INR.
      replace (a - 2 * (INR k + 1) * PI) with (a - 2 * PI - 2 * INR k * PI) by ring.
      split; [exact E |]. split; [exact Hk |]. split; [lra |].
      intros _. destruct (Rle_dec (a - 2 * PI) PI) as [Hs | Hs].
      * rewrite (H0 Hs). cbn. lra.
      * apply H1. lra.
    + exists 0%nat. cbn. repeat split; try lra. f_equal; ring.
Qed.

Lemma raise_spec n :
  forall a fuel, - PI - 2 * INR n * PI <= a -> (n < fuel)%nat ->
    exists k : nat,
      raise fuel a = Some (a + 2 * INR k * PI) /\
      - PI <= a + 2 * INR k * PI /\
      (- PI <= a -> k = 0%nat) /\
      (a < - PI -> a + 2 * INR k * PI < PI).
Proof.
  induction n as [| n IH]; intros a fuel Ha Hf;
    (destruct fuel as [| fuel]; [lia |]); cbn [raise].
  - cbn in Ha. rewrite Rltb_false by lra. exists 0%nat. cbn.
    repeat split; try lra. f_equal; ring.
  - unfold Rltb. destruct (Rlt_dec a (- PI)) as [Hlt | Hge].
    + rewrite S_INR in Ha.
      destruct (IH (a + 2 * PI) fuel) as (k & E & Hk & H0 & H1); [lra | lia |].
      exists (S k). rewrite S_INR.
      replace (a + 2 * (INR k + 1) * PI) with (a + 2 * PI + 2 * INR k * PI) by ring.
      split; [exact E |]. split; [exact Hk |]. split; [lra |].
      intros _. destruct (Rle_dec (- PI) (a + 2 * PI)) as [Hs | Hs].
      * rewrite (H0 Hs). cbn. lra.
      * apply H1. lra.
    + exists 0%nat. cbn. repeat split; try lra. f_equal; ring.
Qed.

Lemma lower_mono fuel :
  forall a r fuel', lower fuel a = Some r -> (fuel <= fuel')%nat ->
                    lower fuel' a = Some r.
Proof.
  induction fuel as [| fuel IH]; intros a r fuel' E Hf; [discriminate |].
  destruct fuel' as [| fuel']; [lia |]. cbn [lower] in *.
  destruct (Rgtb a PI); [| exact E]. apply IH; [exact E | lia].
Qed.

Lemma raise_mono fuel :
  forall a r fuel', raise fuel a = Some r -> (fuel <= fuel')%nat ->
                    raise fuel' a = Some r.
Proof.
  induction fuel as [| fuel IH]; intros a r fuel' E Hf; [discriminate |].
  destruct fuel' as [| fuel']; [lia |]. cbn [raise] in *.
  destruct (Rltb a (- PI)); [| exact E]. apply IH; [exact E | lia].
Qed.

(** X22.  [clampAngle] ends on every angle: with rounds enough the two
    loops bring the angle into [[- PI, PI]] by whole turns (by none when it
    is there), and the result is that angle cut to [[min, max]], so within
    the limits whenever [min <= max]. *)
Theorem clampAngle_normalises angle min max :
  exists (enough : nat) (turns : Z),
    let normAngle := angle + 2 * IZR turns * PI in
    - PI <= normAngle <= PI /\
    (- PI <= angle <= PI -> normAngle = angle) /\
    (forall fuel, (enough <= fuel)%nat ->
       clampAngle fuel angle min max = Ok (Rmax min (Rmin max normAngle))) /\
    (min <= max -> min <= Rmax min (Rmin max normAngle) <= max).
Proof.
  assert (HPI := PI_RGT_0).
  destruct (nat_above ((angle - PI) / (2 * PI))) as [n1 Hn1].
  destruct (nat_above ((- PI - angle) / (2 * PI))) as [n2 Hn2].
  assert (Ha1 : angle <= PI + 2 * INR n1 * PI).
  { apply (Rmult_le_compat_r (2 * PI)) in Hn1; [| lra].
    unfold Rdiv in Hn1. rewrite Rmult_assoc, Rinv_l, Rmult_1_r in Hn1; lra. }
  assert (Ha2 : - PI - 2 * INR n2 * PI <= angle).
  { apply (Rmult_le_compat_r (2 * PI)) in Hn2; [| lra].
    unfold Rdiv in Hn2. rewrite Rmult_assoc, Rinv_l, Rmult_1_r in Hn2; lra. }
  destruct (lower_spec n1 angle (S n1) Ha1 ltac:(lia)) as (k1 & E1 & Hk1 & Hz1 & Hg1).
  set (a1 := angle - 2 * INR k1 * PI) in *.
  assert (Ha3 : - PI - 2 * INR n2 * PI <= a1).
  { destruct (Rle_dec angle PI) as [Hs | Hs].
    - unfold a1. rewrite (Hz1 Hs). cbn. lra.
    - assert (0 <= INR n2) by apply pos_INR. specialize (Hg1 ltac:(lra)). nra. }
  destruct (raise_spec n2 a1 (S n2) Ha3 ltac:(lia)) as (k2 & E2 & Hk2 & Hz2 & Hg2).
  exists (S (n1 + n2)), (Z.of_nat k2 - Z.of_nat k1)%Z.
  rewrite minus_IZR, <- !INR_IZR_INZ.
  replace (angle + 2 * (INR k2 - INR k1) * PI) with (a1 + 2 * INR k2 * PI)
    by (unfold a1; ring).
  cbn zeta. split; [| split; [| split]].
  - split; [exact Hk2 |].
    destruct (Rle_dec (- PI) a1) as [Hs | Hs].
    + rewrite (Hz2 Hs). cbn. lra.
    + apply Rlt_le, Hg2. lra.
  - intros [Hlo Hhi]. rewrite (Hz2 ltac:(unfold a1; rewrite (Hz1 Hhi); cbn; lra)).
    unfold a1. rewrite (Hz1 Hhi). cbn. ring.
  - intros fuel Hfuel. unfold clampAngle.
    rewrite (lower_mono _ _ _ fuel E1) by lia.
    now rewrite (raise_mono _ _ _ fuel E2) by lia.
  - intros Hmm. unfold Rmax, Rmin.
    repeat match goal with |- context [Rle_dec ?a ?b] => destruct (Rle_dec a b) end;
      lra.
Qed.

Lemma clampAngle_of_zero :
  - PI <= 0 <= PI /\ -1 <= 1 /\
  exists enough : nat,
    forall fuel, (enough <= fuel)%nat -> clampAngle fuel 0 (-1) 1 = Ok 0.
Proof.
  assert (H0 : - PI <= 0 <= PI) by (generalize PI_RGT_0; lra).
  split; [exact H0 |]. split; [lra |].
  destruct (clampAngle_normalises 0 (-1) 1) as (enough & turns & _ & Hsame & Hrun & _).
  exists enough. intros fuel Hf. rewrite (Hrun fuel Hf), (Hsame H0).
  rewrite Rmin_right, Rmax_right by lra. reflexivity.
Defined.

(** ** Picking a bone *)

Import Canvas.

Lemma hypot_le a b c d :
  a * a + b * b <= c * c + d * d -> hypot a b <= hypot c d.
Proof. intros H. unfold hypot. apply sqrt_le_1_alt, H. Qed.

Lemma segment_point_distance p v w s :
  distance p (onRay v w s)
  = hypot (px p - px v - s * (px w - px v)) (py p - py v - s * (py w - py v)).
Proof. unfold distance, onRay; cbn. f_equal; ring. Qed.

(** X23.  [distToSegment] is the distance from the point to the segment:
    no point of the segment is nearer, and some point of the segment is at
    that distance.  A segment whose ends coincide counts as that end. *)
Theorem distToSegment_is_the_least_distance p v w :
  (forall s, 0 <= s <= 1 -> distToSegment p v w <= distance p (onRay v w s)) /\
  (exists s, 0 <= s <= 1 /\ distToSegment p v w = distance p (onRay v w s)).
Proof.
  unfold distToSegment.
  set (A := px p - px v). set (B := py p - py v).
  set (U := px w - px v). set (V := py w - py v).
  replace ((px v - px w) ^ 2 + (py v - py w) ^ 2) with (U * U + V * V)
    by (unfold U, V; ring).
  unfold Reqb. destruct (Req_dec_T (U * U + V * V) 0) as [Hz | Hnz].
  - assert (HU : U = 0) by nra. assert (HV : V = 0) by nra.
    split.
    + intros s _. rewrite segment_point_distance. fold A B U V.
      rewrite HU, HV. apply hypot_le. nra.
    + exists 0. split; [lra |]. rewrite segment_point_distance. fold A B U V.
      f_equal; ring.
  - set (l2 := U * U + V * V) in *.
    assert (Hl2 : 0 < l2).
    { assert (Hge : 0 <= l2) by (unfold l2; nra).
      destruct (Rle_lt_or_eq_dec _ _ Hge) as [Hlt | Heq]; [exact Hlt |].
      exfalso. apply Hnz. now symmetry. }
    set (t0 := (A * U + B * V) / l2).
    assert (Hdot : A * U + B * V = t0 * l2) by (unfold t0; field; lra).
    set (t := Rmax 0 (Rmin 1 t0)).
    assert (Ht : 0 <= t <= 1).
    { unfold t, Rmin. destruct (Rle_dec 1 t0); unfold Rmax;
        match goal with |- context [Rle_dec ?a ?b] => destruct (Rle_dec a b) end; lra. }
    assert (Hcase : (t = t0) \/ (t0 < 0 /\ t = 0) \/ (1 < t0 /\ t = 1)).
    { unfold t, Rmin. destruct (Rle_dec 1 t0); unfold Rmax;
        match goal with |- context [Rle_dec ?a ?b] => destruct (Rle_dec a b) end; lra. }
    cbn [px py].
    replace (px p - (px v + t * U)) with (A - t * U) by (unfold A; ring).
    replace (py p - (py v + t * V)) with (B - t * V) by (unfold B; ring).
    split.
    + intros s Hs. rewrite segment_point_distance. fold A B U V.
      apply hypot_le.
      assert (Hfact : (A - s * U) * (A - s * U) + (B - s * V) * (B - s * V)
                      - ((A - t * U) * (A - t * U) + (B - t * V) * (B - t * V))
                      = l2 * ((s - t) * (s + t - 2 * t0))).
      { unfold l2. unfold l2 in Hdot.
        replace ((A - s * U) * (A - s * U) + (B - s * V) * (B - s * V)
                 - ((A - t * U) * (A - t * U) + (B - t * V) * (B - t * V)))
          with ((s - t) * ((s + t) * (U * U + V * V) - 2 * (A * U + B * V))) by ring.
        rewrite Hdot. ring. }
      assert (Hsign : 0 <= (s - t) * (s + t - 2 * t0)).
      { clearbody t. destruct Hcase as [E | [[H0 E] | [H1 E]]]; subst t.
        - replace ((s - t0) * (s + t0 - 2 * t0)) with ((s - t0) * (s - t0)) by ring.
          generalize (Rle_0_sqr (s - t0)). unfold Rsqr. lra.
        - apply Rmult_le_pos; lra.
        - replace ((s - 1) * (s + 1 - 2 * t0)) with ((1 - s) * (2 * t0 - 1 - s)) by ring.
          apply Rmult_le_pos; lra. }
      assert (0 <= l2 * ((s - t) * (s + t - 2 * t0))) by (apply Rmult_le_pos; lra).
      lra.
    + exists t. split; [exact Ht |]. rewrite segment_point_distance. fold A B U V.
      reflexivity.
Qed.

Lemma distToSegment_example :
  0 <= 0.5 <= 1 /\
  distToSegment (mkPoint 0 1) (mkPoint 0 0) (mkPoint 2 0)
  <= distance (mkPoint 0 1) (onRay (mkPoint 0 0) (mkPoint 2 0) 0.5).
Proof.
  assert (H : 0 <= 0.5 <= 1) by lra.
  split; [exact H |].
  exact (proj1 (distToSegment_is_the_least_distance
                  (mkPoint 0 1) (mkPoint 0 0) (mkPoint 2 0)) 0.5 H).
Defined.

(** ** Directions *)

Lemma hypot_pos x y : x <> 0 \/ y <> 0 -> 0 < hypot x y.
Proof.
  intros H. unfold hypot. apply sqrt_lt_R0. destruct H; nra.
Qed.

Lemma hypot_sqr x y : hypot x y * hypot x y = x * x + y * y.
Proof. unfold hypot. apply sqrt_sqrt. nra. Qed.

Lemma sqrt_slope x y :
  x <> 0 -> sqrt (1 + (y / x)²) = hypot x y / Rabs x.
Proof.
  intros Hx.
  assert (Ha : 0 < Rabs x) by now apply Rabs_pos_lt.
  apply sqrt_lem_1.
  - unfold Rsqr. nra.
  - apply Rle_mult_inv_pos; [apply hypot_nonneg | exact Ha].
  - unfold Rdiv. 
    replace (hypot x y * / Rabs x * (hypot x y * / Rabs x))
      with ((hypot x y * hypot x y) * / (Rabs x * Rabs x)) by (field; lra).
    rewrite hypot_sqr.
    replace (Rabs x * Rabs x) with (x * x)
      by (unfold Rabs; destruct (Rcase_abs x); ring).
    unfold Rsqr. field. exact Hx.
Qed.

(** The direction [Math.atan2] gives is the direction of the vector. *)
Lemma atan2_polar y x :
  x <> 0 \/ y <> 0 ->
  cos (atan2 y x) = x / hypot x y /\ sin (atan2 y x) = y / hypot x y.
Proof.
  intros Hxy. assert (Hd := hypot_pos x y Hxy).
  unfold atan2.
  destruct (Rlt_dec 0 x) as [Hpos | Hnpos].
  - rewrite cos_atan, sin_atan, sqrt_slope, Rabs_right by lra.
    split; field; lra.
  - destruct (Rlt_dec x 0) as [Hneg | Hnneg].
    + assert (Hc : cos (atan (y / x)) = - x / hypot x y)
        by (rewrite cos_atan, sqrt_slope, Rabs_left by lra; field; lra).
      assert (Hs : sin (atan (y / x)) = - y / hypot x y)
        by (rewrite sin_atan, sqrt_slope, Rabs_left by lra; field; lra).
      destruct (Rle_dec 0 y).
      * rewrite neg_cos, neg_sin, Hc, Hs. split; field; lra.
      * rewrite cos_minus, sin_minus, cos_PI, sin_PI, Hc, Hs. split; field; lra.
    + assert (Hx : x = 0) by lra. subst x.
      assert (Hy : y <> 0) by (destruct Hxy; [lra | assumption]).
      assert (Hh : hypot 0 y = Rabs y).
      { unfold hypot. replace (0 * 0 + y * y) with (Rsqr y) by (unfold Rsqr; ring).
        apply sqrt_Rsqr_abs. }
      rewrite Hh.
      destruct (Rlt_dec 0 y).
      * rewrite cos_PI2, sin_PI2, Rabs_right by lra. split; field; lra.
      * destruct (Rlt_dec y 0); [| lra].
        rewrite cos_neg, sin_neg, cos_PI2, sin_PI2, Rabs_left by lra.
        split; field; lra.
Qed.

(** A bone laid from [p] in the direction of [t] ends on the ray to [t]. *)
Lemma getEndPoint_towards p t L :
  px t - px p <> 0 \/ py t - py p <> 0 ->
  getEndPoint p (atan2 (py t - py p) (px t - px p)) L
  = onRay p t (L / distance t p).
Proof.
  intros Hne. destruct (atan2_polar _ _ Hne) as [Hc Hs].
  assert (Hd := hypot_pos _ _ Hne).
  unfold getEndPoint, onRay, distance. rewrite Hc, Hs. f_equal; field; lra.
Qed.

(** ** The two-bone solver *)

Import AnalyticIk.

Lemma getEndPoint_polar p a L :
  getEndPoint p a L = mkPoint (px p + cos a * L) (py p + sin a * L).
Proof. reflexivity. Qed.

Lemma ratio_bounds n den :
  0 < den -> - den <= n <= den -> -1 <= n / den <= 1.
Proof.
  intros Hden [Hlo Hhi].
  assert (Hi : 0 < / den) by now apply Rinv_0_lt_compat.
  assert (E : den * / den = 1) by (apply Rinv_r; lra).
  unfold Rdiv. split; nra.
Qed.

(** X24. [solveIK] reaches a target within reach: for bones of positive
    lengths [l1], [l2] and a target at a distance [d > 0] from the root with
    [|l1 - l2| <= d <= l1 + l2], the angles returned, laid out as
    [computeSkeleton] lays out a limb, end the second bone on the target. *)
Theorem solveIK_reaches_the_target rootPos targetPos l1 l2 :
  0 < l1 -> 0 < l2 ->
  0 < distance targetPos rootPos ->
  Rabs (l1 - l2) <= distance targetPos rootPos <= l1 + l2 ->
  exists a, solveIK rootPos targetPos l1 l2 = Some a /\
            twoBoneEnd rootPos (angle1 a) (angle2 a) l1 l2 = targetPos.
Proof.
  intros Hl1 Hl2 Hd [Hlo Hhi].
  unfold solveIK.
  set (dx := px targetPos - px rootPos) in *.
  set (dy := py targetPos - py rootPos) in *.
  change (sqrt (dx * dx + dy * dy)) with (hypot dx dy).
  change (distance targetPos rootPos) with (hypot dx dy) in *.
  set (d := hypot dx dy) in *.
  assert (Hsq : dx * dx + dy * dy = d * d) by (symmetry; apply hypot_sqr).
  rewrite (Rgtb_false d) by lra.
  rewrite (Rltb_false d) by lra.
  eexists. split; [reflexivity |].
  cbn [angle1 angle2]. rewrite Hsq.
  set (c1 := (d * d + l1 * l1 - l2 * l2) / (2 * d * l1)).
  set (c2 := (l1 * l1 + l2 * l2 - d * d) / (2 * l1 * l2)).
  assert (Habs : l1 - l2 <= d /\ l2 - l1 <= d).
  { unfold Rabs in Hlo. destruct (Rcase_abs (l1 - l2)); lra. }
  destruct Habs as [Ha Hb].
  set (Q := 4 * (d * d) * (l1 * l1)
            - (d * d + l1 * l1 - l2 * l2) * (d * d + l1 * l1 - l2 * l2)).
  assert (HQ : 0 <= Q).
  { replace Q with (((l1 + l2) * (l1 + l2) - d * d)
                    * (d * d - (l1 - l2) * (l1 - l2))) by (unfold Q; ring).
    apply Rmult_le_pos; nra. }
  assert (Hc1 : -1 <= c1 <= 1).
  { unfold c1. apply ratio_bounds; [nra |]. split; nra. }
  assert (Hc2 : -1 <= c2 <= 1).
  { unfold c2. apply ratio_bounds; [nra |]. split; nra. }
  set (K := sqrt Q).
  assert (HK : K * K = Q) by (apply sqrt_sqrt; exact HQ).
  assert (HK0 : 0 <= K) by apply sqrt_pos.
  assert (Hs1 : sin (acos c1) = K / (2 * d * l1)).
  { rewrite sin_acos by exact Hc1. apply sqrt_lem_1.
    - unfold Rsqr. nra.
    - apply Rle_mult_inv_pos; nra.
    - replace (K / (2 * d * l1) * (K / (2 * d * l1)))
        with ((K * K) / ((2 * d * l1) * (2 * d * l1))) by (field; lra).
      rewrite HK. unfold Q, c1, Rsqr. field. lra. }
  assert (Hs2 : sin (acos c2) = K / (2 * l1 * l2)).
  { rewrite sin_acos by exact Hc2. apply sqrt_lem_1.
    - unfold Rsqr. nra.
    - apply Rle_mult_inv_pos; nra.
    - replace (K / (2 * l1 * l2) * (K / (2 * l1 * l2)))
        with ((K * K) / ((2 * l1 * l2) * (2 * l1 * l2))) by (field; lra).
      rewrite HK. unfold Q, c2, Rsqr. field. lra. }
  assert (Hne : dx <> 0 \/ dy <> 0).
  { destruct (Req_dec_T dx 0) as [Hx |]; [| now left].
    destruct (Req_dec_T dy 0) as [Hy |]; [| now right].
    exfalso. unfold d, hypot in Hd. rewrite Hx, Hy in Hd.
    replace (0 * 0 + 0 * 0) with 0 in Hd by ring. rewrite sqrt_0 in Hd. lra. }
  destruct (atan2_polar dy dx Hne) as [Hct Hst].
  fold d in Hct, Hst.
  set (t := atan2 dy dx) in *.
  unfold twoBoneEnd. rewrite !getEndPoint_polar. cbn [px py].
  replace (t - acos c1 + (PI - acos c2))
    with ((t - (acos c1 + acos c2)) + PI) by ring.
  rewrite neg_cos, neg_sin.
  rewrite !cos_minus, !sin_minus, cos_plus, sin_plus.
  rewrite !cos_acos by assumption.
  rewrite Hs1, Hs2, Hct, Hst.
  assert (E1 : l1 * c1 - l2 * (c1 * c2 - K / (2 * d * l1) * (K / (2 * l1 * l2))) = d).
  { replace (K / (2 * d * l1) * (K / (2 * l1 * l2)))
      with ((K * K) / ((2 * d * l1) * (2 * l1 * l2))) by (field; lra).
    rewrite HK. unfold Q, c1, c2. field. lra. }
  assert (E2 : l1 * (K / (2 * d * l1))
               - l2 * (K / (2 * d * l1) * c2 + c1 * (K / (2 * l1 * l2))) = 0).
  { unfold c1, c2. field. lra. }
  transitivity (mkPoint (px targetPos) (py targetPos));
    [| now destruct targetPos].
  f_equal.
  - replace (px targetPos) with (px rootPos + dx) by (unfold dx; ring).
    apply (f_equal (fun e => dy / d * e)) in E2.
    apply (f_equal (fun e => dx / d * e)) in E1.
    replace (dx / d * d) with dx in E1 by (field; lra).
    lra.
  - replace (py targetPos) with (py rootPos + dy) by (unfold dy; ring).
    apply (f_equal (fun e => dx / d * e)) in E2.
    apply (f_equal (fun e => dy / d * e)) in E1.
    replace (dy / d * d) with dy in E1 by (field; lra).
    lra.
Qed.

Lemma solveIK_example :
  let rootPos := mkPoint 0 0 in
  let targetPos := mkPoint 5 0 in
  exists a, solveIK rootPos targetPos 3 4 = Some a /\
            twoBoneEnd rootPos (angle1 a) (angle2 a) 3 4 = targetPos.
Proof.
  assert (Hd : distance (mkPoint 5 0) (mkPoint 0 0) = 5).
  { unfold distance, hypot; cbn.
    replace ((5 - 0) * (5 - 0) + (0 - 0) * (0 - 0)) with (5 * 5) by ring.
    apply sqrt_square. lra. }
  apply (solveIK_reaches_the_target (mkPoint 0 0) (mkPoint 5 0) 3 4).
  - lra.
  - lra.
  - rewrite Hd. lra.
  - rewrite Hd. unfold Rabs. destruct (Rcase_abs (3 - 4)); lra.
Defined.

(** X25. [solveIK] towards a target out of reach: the second angle is [0]
    and both bones lie on the ray from the root to the target, the chain
    ending [l1 + l2] along it. *)
Theorem solveIK_out_of_reach rootPos targetPos l1 l2 :
  0 <= l1 + l2 < distance targetPos rootPos ->
  exists a, solveIK rootPos targetPos l1 l2 = Some a /\
            angle2 a = 0 /\
            getEndPoint rootPos (angle1 a) l1
            = onRay rootPos targetPos (l1 / distance targetPos rootPos) /\
            twoBoneEnd rootPos (angle1 a) (angle2 a) l1 l2
            = onRay rootPos targetPos ((l1 + l2) / distance targetPos rootPos).
Proof.
  intros [H0 Hd].
  assert (Hne : px targetPos - px rootPos <> 0 \/ py targetPos - py rootPos <> 0).
  { destruct (Req_dec_T (px targetPos - px rootPos) 0) as [Hx |]; [| now left].
    destruct (Req_dec_T (py targetPos - py rootPos) 0) as [Hy |]; [| now right].
    exfalso. unfold distance, hypot in Hd. rewrite Hx, Hy in Hd.
    replace (0 * 0 + 0 * 0) with 0 in Hd by ring. rewrite sqrt_0 in Hd. lra. }
  unfold solveIK.
  change (sqrt ((px targetPos - px rootPos) * (px targetPos - px rootPos)
                + (py targetPos - py rootPos) * (py targetPos - py rootPos)))
    with (distance targetPos rootPos).
  rewrite Rgtb_true by lra.
  eexists. split; [reflexivity |]. cbn [angle1 angle2].
  split; [reflexivity |].
  split; [apply getEndPoint_towards, Hne |].
  unfold twoBoneEnd. rewrite Rplus_0_r, getEndPoint_towards by exact Hne.
  destruct (atan2_polar _ _ Hne) as [Hc Hs].
  unfold getEndPoint, onRay; cbn [px py]. rewrite Hc, Hs.
  fold (distance targetPos rootPos).
  f_equal; field; lra.
Qed.

Lemma solveIK_out_of_reach_example :
  let rootPos := mkPoint 0 0 in
  let targetPos := mkPoint 5 0 in
  exists a, solveIK rootPos targetPos 1 2 = Some a /\ angle2 a = 0.
Proof.
  assert (Hd : distance (mkPoint 5 0) (mkPoint 0 0) = 5).
  { unfold distance, hypot; cbn.
    replace ((5 - 0) * (5 - 0) + (0 - 0) * (0 - 0)) with (5 * 5) by ring.
    apply sqrt_square. lra. }
  destruct (solveIK_out_of_reach (mkPoint 0 0) (mkPoint 5 0) 1 2)
    as (a & E & H2 & _).
  - rewrite Hd. lra.
  - exists a. split; assumption.
Defined.

(** ** Dragging a limb *)

Lemma atan2_scale k y x : 0 < k -> atan2 (k * y) (k * x) = atan2 y x.
Proof.
  intros Hk. unfold atan2.
  assert (Hr : x <> 0 -> k * y / (k * x) = y / x) by (intros; field; lra).
  repeat match goal with
         | |- context [Rlt_dec ?a ?b] => destruct (Rlt_dec a b)
         | |- context [Rle_dec ?a ?b] => destruct (Rle_dec a b)
         end;
    try reflexivity; try (exfalso; nra); rewrite Hr by lra; reflexivity.
Qed.

(** The direction from one point of a ray to a later one is the direction of
    the ray. *)
Lemma atan2_onRay p t s1 s2 :
  s1 < s2 ->
  atan2 (py (onRay p t s2) - py (onRay p t s1))
        (px (onRay p t s2) - px (onRay p t s1))
  = atan2 (py t - py p) (px t - px p).
Proof.
  intros Hs. unfold onRay; cbn [px py].
  replace (py p + s2 * (py t - py p) - (py p + s1 * (py t - py p)))
    with ((s2 - s1) * (py t - py p)) by ring.
  replace (px p + s2 * (px t - px p) - (px p + s1 * (px t - px p)))
    with ((s2 - s1) * (px t - px p)) by ring.
  apply atan2_scale. lra.
Qed.

Lemma atan2_onRay_from p t s :
  0 < s ->
  atan2 (py (onRay p t s) - py p) (px (onRay p t s) - px p)
  = atan2 (py t - py p) (px t - px p).
Proof.
  intros Hs. unfold onRay; cbn [px py].
  replace (py p + s * (py t - py p) - py p) with (s * (py t - py p)) by ring.
  replace (px p + s * (px t - px p) - px p) with (s * (px t - px p)) by ring.
  apply atan2_scale. lra.
Qed.

(** The unreachable branch of [solveFabrik] on a chain of three points. *)
Lemma solveFabrik_stretched p0 p1 p2 target iterations tolerance :
  distance p0 p1 + distance p1 p2 < distance p0 target ->
  solveFabrik [p0; p1; p2] target iterations tolerance
  = [p0; onRay p0 target (distance p0 p1 / distance p0 target);
     onRay p0 target ((distance p0 p1 + distance p1 p2) / distance p0 target)].
Proof.
  intros Hd.
  set (l1 := distance p0 p1) in *. set (l2 := distance p1 p2) in *.
  set (d := distance p0 target) in *.
  assert (H1 : 0 <= l1) by apply hypot_nonneg.
  assert (H2 : 0 <= l2) by apply hypot_nonneg.
  assert (Hs2 : (l1 + l2) / d < 1).
  { apply (Rmult_lt_reg_r d); [lra |]. unfold Rdiv. rewrite Rmult_assoc, Rinv_l; lra. }
  assert (Hs1 : l1 / d <= (l1 + l2) / d).
  { unfold Rdiv. apply Rmult_le_compat_r; [| lra]. left. apply Rinv_0_lt_compat. lra. }
  unfold solveFabrik, solveFabrikRounds. cbn [List.length Nat.eqb map].
  rewrite !point_eta.
  unfold segmentLengths, totalLength, pt.
  cbn [List.length Nat.sub seq map nth fold_left].
  rewrite ?point_eta. fold l1 l2 d.
  rewrite Rgtb_true by lra.
  unfold stretch, stretchStep, pt, len.
  cbn [List.length Nat.sub seq fold_left nth set_index fst].
  fold d. rewrite !blend_onRay.
  rewrite distance_onRay_to by lra. fold d.
  rewrite onRay_onRay.
  replace (l1 / d + l2 / ((1 - l1 / d) * d) * (1 - l1 / d)) with ((l1 + l2) / d)
    by (field; split; lra).
  reflexivity.
Qed.

Lemma distance_getEndPoint p a L : 0 <= L -> distance p (getEndPoint p a L) = L.
Proof. intros H. unfold distance, getEndPoint; cbn [px py]. now apply hypot_polar_back. Qed.

Lemma distance_sym p q : distance p q = distance q p.
Proof.
  unfold distance, hypot. f_equal. ring.
Qed.

(** Two bones laid out towards a target from [r], the second not turned
    against the first. *)
Lemma straight_limb r t w1 w2 l1 l2 :
  px t - px r <> 0 \/ py t - py r <> 0 ->
  w1 = atan2 (py t - py r) (px t - px r) ->
  w2 = atan2 (py t - py r) (px t - px r) ->
  getEndPoint r w1 l1 = onRay r t (l1 / distance r t) /\
  getEndPoint (getEndPoint r w1 l1) w2 l2 = onRay r t ((l1 + l2) / distance r t).
Proof.
  intros Hne -> ->.
  destruct (atan2_polar _ _ Hne) as [Hc Hs].
  assert (Hd := hypot_pos _ _ Hne).
  rewrite (distance_sym r t).
  unfold getEndPoint, onRay, distance; cbn [px py]. rewrite Hc, Hs.
  split; f_equal; field; lra.
Qed.

(** The three joints of a limb: the bones leave the attachment at the world
    angles [computeSkeleton] sums up, the legs included. *)
Lemma limb_joints pose (arm : bool) (s : Side) :
  let side := sideName s in
  let pa := groundTilt pose + (if arm then torso pose else waist pose) in
  let a1 := if arm then shoulder (limb s pose) else hip (limb s pose) in
  let a2 := if arm then elbow (limb s pose) else knee (limb s pose) in
  let l1 := if arm then L_ARM else L_THIGH in
  let l2 := if arm then L_FOREARM else L_SHIN in
  exists r,
    dict_get (side ++ (if arm then ".shoulder" else ".hip"))%string
             (joints (computeSkeleton pose)) = Some r /\
    dict_get (side ++ (if arm then ".elbow" else ".knee"))%string
             (joints (computeSkeleton pose))
    = Some (getEndPoint r (pa + a1) l1) /\
    dict_get (side ++ (if arm then ".hand" else ".foot"))%string
             (joints (computeSkeleton pose))
    = Some (getEndPoint (getEndPoint r (pa + a1) l1) (pa + a1 + a2) l2).
Proof.
  destruct arm, s; cbn; eexists; repeat split; reflexivity.
Qed.

(** The attachment of a limb does not depend on the angles of the limbs. *)
Lemma limb_root_of_trunk p q (arm : bool) (s : Side) :
  groundTilt p = groundTilt q -> offset p = offset q ->
  torso p = torso q -> waist p = waist q ->
  dict_get (sideName s ++ (if arm then ".shoulder" else ".hip"))%string
           (joints (computeSkeleton p))
  = dict_get (sideName s ++ (if arm then ".shoulder" else ".hip"))%string
             (joints (computeSkeleton q)).
Proof.
  intros Hg Ho Ht Hw. destruct p, q; simpl in Hg, Ho, Ht, Hw; subst.
  destruct arm, s; reflexivity.
Qed.

Lemma constrained_free fuel bypassConstraints key angle :
  constrained fuel bypassConstraints key angle = Ok angle.
Proof. unfold constrained. now destruct bypassConstraints. Qed.

Lemma limb_lengths :
  0 < L_ARM /\ 0 < L_FOREARM /\ 0 < L_THIGH /\ 0 < L_SHIN.
Proof. generalize bone_lengths. intros (_ & _ & ? & ? & ? & ?). repeat split; lra. Qed.

(** What [handleIk] does to a limb whose target is out of reach. *)
Lemma handleIk_limb fuel key pose target bypassConstraints (arm : bool) (s : Side) :
  key <> "" ->
  includes key "hand" = arm ->
  (arm = false -> includes key "foot" = true) ->
  (if String.prefix "left" key then "left" else "right") = sideName s ->
  let rootKey := (sideName s ++ (if arm then ".shoulder" else ".hip"))%string in
  let midKey := (sideName s ++ (if arm then ".elbow" else ".knee"))%string in
  let endKey := (sideName s ++ (if arm then ".hand" else ".foot"))%string in
  let l1 := if arm then L_ARM else L_THIGH in
  let l2 := if arm then L_FOREARM else L_SHIN in
  forall r, jointOf rootKey pose = Some r ->
  l1 + l2 < distance r target ->
  exists update,
    handleIk fuel (Some key) pose (computeSkeleton pose) target bypassConstraints
    = Ok (Some update) /\
    jointOf rootKey (update pose) = Some r /\
    jointOf midKey (update pose) = Some (onRay r target (l1 / distance r target)) /\
    jointOf endKey (update pose)
    = Some (onRay r target ((l1 + l2) / distance r target)).
Proof.
  intros Hne Harm Hfoot Hside rootKey midKey endKey l1 l2 r Hr Hfar.
  destruct limb_lengths as (HA & HF & HT & HS).
  assert (Hl1 : 0 < l1) by (subst l1; destruct arm; assumption).
  assert (Hl2 : 0 < l2) by (subst l2; destruct arm; assumption).
  assert (Hd : 0 < distance r target) by lra.
  assert (Hdir : px target - px r <> 0 \/ py target - py r <> 0).
  { destruct (Req_dec_T (px target - px r) 0) as [Hx |]; [| now left].
    destruct (Req_dec_T (py target - py r) 0) as [Hy |]; [| now right].
    exfalso. rewrite distance_sym in Hd. unfold distance, hypot in Hd.
    rewrite Hx, Hy in Hd.
    replace (0 * 0 + 0 * 0) with 0 in Hd by ring. rewrite sqrt_0 in Hd. lra. }
  unfold jointOf in *.
  destruct (limb_joints pose arm s) as (r0 & E0 & E1 & E2).
  fold rootKey midKey endKey l1 l2 in E0, E1, E2.
  rewrite E0 in Hr. injection Hr as ->.
  unfold handleIk.
  replace (String.eqb key "") with false
    by (symmetry; apply String.eqb_neq; exact Hne).
  rewrite Harm, Hside.
  replace (negb arm && negb (includes key "foot")) with false
    by (destruct arm; [reflexivity | now rewrite Hfoot]).
  fold rootKey midKey endKey.
  rewrite E0, E1, E2.
  rewrite solveFabrik_stretched;
    rewrite !distance_getEndPoint by lra; [| exact Hfar].
  assert (Hpa : getParentWorldAngle rootKey pose
                = Angle (groundTilt pose + (if arm then torso pose else waist pose))).
  { subst rootKey. destruct arm, s; reflexivity. }
  rewrite Hpa.
  rewrite !constrained_free. cbn [bind].
  eexists. split; [reflexivity |].
  cbv beta zeta.
  rewrite atan2_onRay_from by (apply Rdiv_lt_0_compat; lra).
  rewrite atan2_onRay
    by (unfold Rdiv; apply Rmult_lt_compat_r; [apply Rinv_0_lt_compat |]; lra).
  set (a := atan2 (py target - py r) (px target - px r)).
  set (pa := groundTilt pose + (if arm then torso pose else waist pose)).
  set (pose' := setSideAngle _ _ _ (setSideAngle _ _ _ pose)).
  destruct (limb_joints pose' arm s) as (r' & E0' & E1' & E2').
  fold rootKey midKey endKey l1 l2 in E0', E1', E2'.
  assert (Hroot : r' = r).
  { assert (H : Some r' = Some r); [| now injection H].
    rewrite <- E0', <- E0. subst rootKey. apply limb_root_of_trunk;
      subst pose'; destruct s; reflexivity. }
  subst r'.
  assert (Hang : groundTilt pose' + (if arm then torso pose' else waist pose') = pa
                 /\ (if arm then shoulder (limb s pose') else hip (limb s pose')) = a - pa
                 /\ (if arm then elbow (limb s pose') else knee (limb s pose')) = a - a).
  { subst pose' pa. destruct arm, s; repeat split; reflexivity. }
  destruct Hang as (Hg & H1 & H2).
  rewrite Hg, H1 in E1'. rewrite Hg, H1, H2 in E2'.
  destruct (straight_limb r target (pa + (a - pa)) (pa + (a - pa) + (a - a)) l1 l2 Hdir)
    as [S1 S2]; [subst a; ring | subst a; ring |].
  rewrite S1 in E1'. rewrite S2 in E2'.
  repeat split; assumption.
Qed.

(** X26. Dragging a hand or a foot to a point out of reach of the limb:
    [handleIk] updates the pose so that the attachment of the limb stays, and
    the two joints after it lie on the ray from the attachment to the point,
    at the lengths of the two bones. *)
Theorem handleIk_straightens_the_limb fuel key pose target bypassConstraints :
  let isArm := includes key "hand" in
  let side := if String.prefix "left" key then "left" else "right" in
  let rootKey := (side ++ (if isArm then ".shoulder" else ".hip"))%string in
  let midKey := (side ++ (if isArm then ".elbow" else ".knee"))%string in
  let endKey := (side ++ (if isArm then ".hand" else ".foot"))%string in
  let l1 := if isArm then L_ARM else L_THIGH in
  let l2 := if isArm then L_FOREARM else L_SHIN in
  isArm = true \/ includes key "foot" = true ->
  forall r, jointOf rootKey pose = Some r ->
  l1 + l2 < distance r target ->
  exists update,
    handleIk fuel (Some key) pose (computeSkeleton pose) target bypassConstraints
    = Ok (Some update) /\
    jointOf rootKey (update pose) = Some r /\
    jointOf midKey (update pose) = Some (onRay r target (l1 / distance r target)) /\
    jointOf endKey (update pose)
    = Some (onRay r target ((l1 + l2) / distance r target)).
Proof.
  intros isArm side rootKey midKey endKey l1 l2 Hkey.
  assert (Hne : key <> "").
  { intros ->. destruct Hkey as [H | H]; discriminate H. }
  assert (Hfoot : isArm = false -> includes key "foot" = true).
  { intros H. destruct Hkey as [H' | H']; [congruence | exact H']. }
  subst side rootKey midKey endKey l1 l2.
  destruct (String.prefix "left" key) eqn:Eleft.
  - apply (handleIk_limb fuel key pose target bypassConstraints isArm SLeft);
      try assumption; try reflexivity. now rewrite Eleft.
  - apply (handleIk_limb fuel key pose target bypassConstraints isArm SRight);
      try assumption; try reflexivity. now rewrite Eleft.
Qed.

Lemma distance_far p x y L :
  0 <= L -> px p + L < x -> L < distance p (mkPoint x y).
Proof.
  intros HL H. unfold distance, hypot; cbn [px py].
  apply Rlt_le_trans with (x - px p); [lra |].
  rewrite <- (sqrt_square (x - px p)) at 1 by lra.
  apply sqrt_le_1_alt.
  generalize (Rle_0_sqr (py p - y)). unfold Rsqr. intros Hy.
  replace ((px p - x) * (px p - x)) with ((x - px p) * (x - px p)) by ring.
  lra.
Qed.

Lemma handleIk_left_hand_example :
  exists r update,
    jointOf "left.shoulder" getDefaultPose = Some r /\
    handleIk 0 (Some "left.hand") getDefaultPose (computeSkeleton getDefaultPose)
             (mkPoint 5000 0) false
    = Ok (Some update) /\
    jointOf "left.elbow" (update getDefaultPose)
    = Some (onRay r (mkPoint 5000 0) (L_ARM / distance r (mkPoint 5000 0))).
Proof.
  destruct (limb_joints getDefaultPose true SLeft) as (r & E0 & _).
  assert (Hfar : L_ARM + L_FOREARM < distance r (mkPoint 5000 0)).
  { cbn in E0. injection E0 as <-.
    apply distance_far; cbn [px py].
    { unfold L_ARM, L_FOREARM, HEAD_UNIT. lra. }
    unfold W, L_ARM, L_FOREARM, TORSO_HEIGHT, HEAD_UNIT.
    generalize (COS_bound (0 + 0 - PI / 2)) (COS_bound (0 + 0)) (SIN_bound (0 + 0)).
    lra. }
  destruct (handleIk_straightens_the_limb 0 "left.hand" getDefaultPose
              (mkPoint 5000 0) false (or_introl eq_refl) r E0 Hfar)
    as (update & E & _ & Hmid & _).
  exists r, update. repeat split; assumption.
Defined.

(** What [handleAim] does to a limb aimed from its attachment. *)
Lemma handleAim_limb key pivot pose pos (arm : bool) (s : Side) :
  key <> "" ->
  existsb (fun p => includes key p) ["shoulder"; "elbow"; "hand"] = arm ->
  (if String.prefix "left" key then "left" else "right") = sideName s ->
  let rootKey := (sideName s ++ (if arm then ".shoulder" else ".hip"))%string in
  let midKey := (sideName s ++ (if arm then ".elbow" else ".knee"))%string in
  let endKey := (sideName s ++ (if arm then ".hand" else ".foot"))%string in
  let l1 := if arm then L_ARM else L_THIGH in
  let l2 := if arm then L_FOREARM else L_SHIN in
  jointOf rootKey pose = Some pivot ->
  px pos - px pivot <> 0 \/ py pos - py pivot <> 0 ->
  exists update,
    handleAim (Some key) (Some pivot) pose pos = Ok (Some update) /\
    jointOf rootKey (update pose) = Some pivot /\
    jointOf midKey (update pose) = Some (onRay pivot pos (l1 / distance pivot pos)) /\
    (includes key (if arm then "shoulder" else "hip") = false ->
     jointOf endKey (update pose)
     = Some (onRay pivot pos ((l1 + l2) / distance pivot pos))).
Proof.
  intros Hne Harm Hside rootKey midKey endKey l1 l2 Hr Hdir.
  unfold jointOf in *.
  destruct (limb_joints pose arm s) as (r0 & E0 & _).
  fold rootKey in E0. rewrite E0 in Hr. injection Hr as ->.
  unfold handleAim.
  replace (String.eqb key "") with false
    by (symmetry; apply String.eqb_neq; exact Hne).
  rewrite Harm, Hside. fold rootKey.
  assert (Hpa : getParentWorldAngle rootKey pose
                = Angle (groundTilt pose + (if arm then torso pose else waist pose))).
  { subst rootKey. destruct arm, s; reflexivity. }
  rewrite Hpa.
  eexists. split; [reflexivity |].
  set (a := atan2 (py pos - py pivot) (px pos - px pivot)).
  set (pa := groundTilt pose + (if arm then torso pose else waist pose)).
  match goal with |- context [dict_get rootKey (joints (computeSkeleton ?p))] =>
    set (pose' := p) end.
  destruct (limb_joints pose' arm s) as (r' & E0' & E1' & E2').
  fold rootKey midKey endKey l1 l2 in E0', E1', E2'.
  assert (Hroot : r' = pivot).
  { assert (H : Some r' = Some pivot); [| now injection H].
    rewrite <- E0', <- E0. subst rootKey. apply limb_root_of_trunk;
      subst pose'; destruct arm, s, (includes key "shoulder"), (includes key "hip");
      reflexivity. }
  subst r'.
  assert (Hang : groundTilt pose' + (if arm then torso pose' else waist pose') = pa
                 /\ (if arm then shoulder (limb s pose') else hip (limb s pose')) = a - pa).
  { subst pose' pa.
    destruct arm, s, (includes key "shoulder"), (includes key "hip");
      split; reflexivity. }
  destruct Hang as (Hg & H1).
  rewrite Hg, H1 in E1'. rewrite Hg, H1 in E2'.
  split; [exact E0' |]. split.
  - rewrite E1'. f_equal.
    apply (straight_limb pivot pos (pa + (a - pa)) a l1 l2 Hdir);
      subst a; [ring | reflexivity].
  - intros Hwhole.
    assert (H2 : (if arm then elbow (limb s pose') else knee (limb s pose')) = 0).
    { subst pose'. destruct arm; rewrite Hwhole; destruct s; reflexivity. }
    rewrite H2 in E2'. rewrite E2'. f_equal.
    apply (straight_limb pivot pos (pa + (a - pa)) (pa + (a - pa) + 0) l1 l2 Hdir);
      subst a; ring.
Qed.

(** X27. Aiming a limb: with the pivot at the attachment of the limb of the
    dragged part and the cursor off the pivot, [handleAim] updates the pose so
    that the attachment stays and the first bone of the limb points at the
    cursor; unless the dragged part is the first bone itself, the second bone
    lies on the same ray. *)
Theorem handleAim_points_the_limb key pivot pose pos :
  let isArm := existsb (fun p => includes key p) ["shoulder"; "elbow"; "hand"] in
  let side := if String.prefix "left" key then "left" else "right" in
  let rootKey := (side ++ (if isArm then ".shoulder" else ".hip"))%string in
  let midKey := (side ++ (if isArm then ".elbow" else ".knee"))%string in
  let endKey := (side ++ (if isArm then ".hand" else ".foot"))%string in
  let l1 := if isArm then L_ARM else L_THIGH in
  let l2 := if isArm then L_FOREARM else L_SHIN in
  key <> "" ->
  jointOf rootKey pose = Some pivot ->
  px pos - px pivot <> 0 \/ py pos - py pivot <> 0 ->
  exists update,
    handleAim (Some key) (Some pivot) pose pos = Ok (Some update) /\
    jointOf rootKey (update pose) = Some pivot /\
    jointOf midKey (update pose) = Some (onRay pivot pos (l1 / distance pivot pos)) /\
    (includes key (if isArm then "shoulder" else "hip") = false ->
     jointOf endKey (update pose)
     = Some (onRay pivot pos ((l1 + l2) / distance pivot pos))).
Proof.
  intros isArm side rootKey midKey endKey l1 l2 Hne.
  subst side rootKey midKey endKey l1 l2.
  destruct (String.prefix "left" key) eqn:Eleft.
  - apply (handleAim_limb key pivot pose pos isArm SLeft);
      try assumption; try reflexivity. now rewrite Eleft.
  - apply (handleAim_limb key pivot pose pos isArm SRight);
      try assumption; try reflexivity. now rewrite Eleft.
Qed.

Lemma handleAim_right_foot_example :
  exists pivot update,
    jointOf "right.hip" getDefaultPose = Some pivot /\
    handleAim (Some "right.foot") (Some pivot) getDefaultPose
              (mkPoint (px pivot + 1) (py pivot))
    = Ok (Some update) /\
    jointOf "right.hip" (update getDefaultPose) = Some pivot.
Proof.
  destruct (limb_joints getDefaultPose false SRight) as (pivot & E0 & _).
  assert (Hne : "right.foot" <> "") by discriminate.
  assert (Hdir : px (mkPoint (px pivot + 1) (py pivot)) - px pivot <> 0
                 \/ py (mkPoint (px pivot + 1) (py pivot)) - py pivot <> 0).
  { left. cbn [px]. lra. }
  destruct (handleAim_points_the_limb "right.foot" pivot getDefaultPose
              (mkPoint (px pivot + 1) (py pivot)) Hne E0 Hdir)
    as (update & E & Hroot & _).
  exists pivot, update. repeat split; assumption.
Defined.

(** ** Dragging the ground *)

Ltac turn_by g g' dd :=
  repeat match goal with
         | |- context [cos ?a] =>
             match a with
             | context C [g'] =>
                 let old := context C [g] in
                 replace (cos a) with (cos (old + dd))
                   by (f_equal; unfold g'; ring);
                 rewrite (cos_plus old dd)
             end
         | |- context [sin ?a] =>
             match a with
             | context C [g'] =>
                 let old := context C [g] in
                 replace (sin a) with (sin (old + dd))
                   by (f_equal; unfold g'; ring);
                 rewrite (sin_plus old dd)
             end
         end.

(** X28. Dragging the ground turns the rig about its root: the update of
    [handleGroundDrag], applied to the pose the drag began with, turns every
    joint but the ground marker about the root joint by [0.005] times the
    horizontal way of the cursor and moves it down by the vertical way; the
    ground marker only moves down, and the root joint with it. *)
Theorem ground_drag_turns_the_rig initialPose initialMouse pos :
  exists update,
    handleGroundDrag (Some initialPose) initialMouse pos = Some update /\
    jointOf "root" initialPose = Some (rootJoint initialPose) /\
    joints (computeSkeleton (update initialPose))
    = map (groundDragged (rootJoint initialPose)
             ((px pos - px initialMouse) * 0.005) (py pos - py initialMouse))
          (joints (computeSkeleton initialPose)).
Proof.
  eexists. split; [reflexivity |]. split; [reflexivity |].
  destruct initialPose as [g off t w h l r].
  set (dd := (px pos - px initialMouse) * 0.005).
  set (dy := py pos - py initialMouse).
  cbn. unfold groundDragged, turnAbout, rotatePoint, getEndPoint; cbn.
  fold dd dy. set (g' := g + dd).
  shape_eq; try reflexivity; turn_by g g' dd; ring.
Qed.

(** ** Keeping the rig on the canvas *)

Import Utils.









(** ** The displayed pose eases to the local pose *)

Lemma isClose_numbers a b :
  isClose a b = forallb (fun f => closeNumber (f a) (f b)) poseNumbers.
Proof.
  unfold isClose, closeLimb, poseNumbers. cbn [forallb].
  rewrite andb_true_r, <- !andb_assoc. reflexivity.
Qed.

Lemma recursiveLerp_numbers a b t :
  Forall (fun f => f (recursiveLerp a b t) = lerp (f a) (f b) t) poseNumbers.
Proof. unfold poseNumbers. repeat constructor. Qed.

Lemma lerp_gap x y : Rabs (lerp x y DAMPING_FACTOR - y) = 0.85 * Rabs (x - y).
Proof.
  unfold lerp, DAMPING_FACTOR.
  replace (x * (1 - 0.15) + y * 0.15 - y) with (0.85 * (x - y)) by lra.
  rewrite Rabs_mult, (Rabs_right 0.85) by lra. reflexivity.
Qed.

Lemma isClose_refl p : isClose p p = true.
Proof.
  rewrite isClose_numbers. apply forallb_forall. intros f _.
  unfold closeNumber. apply Rltb_true.
  replace (f p - f p) with 0 by ring. rewrite Rabs_R0. lra.
Qed.

Lemma animate_settled localPose : animate localPose localPose = localPose.
Proof. unfold animate. now rewrite isClose_refl. Qed.

Lemma iter_settled localPose n :
  Nat.iter n (animate localPose) localPose = localPose.
Proof.
  induction n as [| n IH]; cbn [Nat.iter nat_rect]; [reflexivity |].
  unfold Nat.iter in IH. rewrite IH. apply animate_settled.
Qed.

Lemma gap_in_sum (c l : PoseData) (fs : list (PoseData -> R)) :
  0 <= fold_right (fun f acc => Rabs (f c - f l) + acc) 0 fs /\
  forall f, In f fs ->
    Rabs (f c - f l) <= fold_right (fun f acc => Rabs (f c - f l) + acc) 0 fs.
Proof.
  induction fs as [| g fs [IH0 IH]]; cbn [fold_right].
  - split; [lra | intros f []].
  - generalize (Rabs_pos (g c - g l)). intros Hg. split; [lra |].
    intros f [<- | Hf]; [lra |]. specialize (IH f Hf). lra.
Qed.

(** X30. The displayed pose eases to the local pose and arrives: a frame
    that finds the two poses not close leaves 0.85 of the gap in every number
    of the pose, and after finitely many frames the displayed pose is the
    local pose itself, and stays. *)
Theorem easing_settles localPose current :
  (forall p, isClose p localPose = false ->
     Forall (fun f => Rabs (f (animate localPose p) - f localPose)
                      = 0.85 * Rabs (f p - f localPose)) poseNumbers) /\
  exists n, forall m, (n <= m)%nat ->
    Nat.iter m (animate localPose) current = localPose.
Proof.
  assert (Hstep : forall p, isClose p localPose = false ->
            Forall (fun f => Rabs (f (animate localPose p) - f localPose)
                             = 0.85 * Rabs (f p - f localPose)) poseNumbers).
  { intros p Hp. unfold animate. rewrite Hp.
    generalize (recursiveLerp_numbers p localPose DAMPING_FACTOR).
    apply Forall_impl. intros f ->. apply lerp_gap. }
  split; [exact Hstep |].
  set (D := fold_right (fun f acc => Rabs (f current - f localPose) + acc) 0 poseNumbers).
  destruct (gap_in_sum current localPose poseNumbers) as [HD0 HD]. fold D in HD0, HD.
  assert (Inv : forall n,
            Nat.iter n (animate localPose) current = localPose \/
            forall f, In f poseNumbers ->
              Rabs (f (Nat.iter n (animate localPose) current) - f localPose)
              <= 0.85 ^ n * D).
  { induction n as [| n [IH | IH]].
    - right. intros f Hf. cbn [Nat.iter nat_rect pow]. rewrite Rmult_1_l. now apply HD.
    - left. change (Nat.iter (S n) (animate localPose) current)
        with (animate localPose (Nat.iter n (animate localPose) current)).
      rewrite IH. apply animate_settled.
    - change (Nat.iter (S n) (animate localPose) current)
        with (animate localPose (Nat.iter n (animate localPose) current)).
      set (p := Nat.iter n (animate localPose) current) in *.
      destruct (isClose p localPose) eqn:Hc.
      + left. unfold animate. now rewrite Hc.
      + right. intros f Hf.
        generalize (Hstep p Hc). rewrite Forall_forall. intros Hs.
        rewrite (Hs f Hf). specialize (IH f Hf). cbn [pow]. lra. }
  destruct (pow_lt_1_zero 0.85) with (y := 0.001 / (D + 1)) as [N HN].
  { rewrite Rabs_right; lra. }
  { apply Rdiv_lt_0_compat; lra. }
  assert (Hreach : Nat.iter (S N) (animate localPose) current = localPose).
  { change (Nat.iter (S N) (animate localPose) current)
      with (animate localPose (Nat.iter N (animate localPose) current)).
    destruct (Inv N) as [E | Hgap]; [rewrite E; apply animate_settled |].
    set (p := Nat.iter N (animate localPose) current) in *.
    assert (Hc : isClose p localPose = true).
    { rewrite isClose_numbers. apply forallb_forall. intros f Hf.
      unfold closeNumber. apply Rltb_true.
      specialize (Hgap f Hf). specialize (HN N (Nat.le_refl N)).
      assert (Hpow : 0 <= 0.85 ^ N) by (apply pow_le; lra).
      rewrite Rabs_right in HN by lra.
      assert (H1 : 0.85 ^ N * (D + 1) < 0.001).
      { apply (Rmult_lt_compat_r (D + 1)) in HN; [| lra].
        unfold Rdiv in HN. rewrite Rmult_assoc, Rinv_l, Rmult_1_r in HN; lra. }
      nra. }
    unfold animate. now rewrite Hc. }
  exists (S N). intros m Hm.
  replace m with ((m - S N) + S N)%nat by lia.
  rewrite Nat.iter_add, Hreach. apply iter_settled.
Qed.

Lemma easing_first_frame :
  let localPose := getDefaultPose in
  let current := fpose frameTwo in
  isClose current localPose = false /\
  Rabs (groundTilt (animate localPose current) - groundTilt localPose)
  = 0.85 * Rabs (groundTilt current - groundTilt localPose).
Proof.
  intros localPose current.
  assert (Hc : isClose current localPose = false).
  { unfold isClose, current, localPose. cbn [fpose frameTwo groundTilt getDefaultPose].
    unfold closeNumber at 1.
    rewrite Rltb_false; [reflexivity |].
    replace (1 - 0) with 1 by ring. rewrite Rabs_R1. lra. }
  split; [exact Hc |].
  destruct (easing_settles localPose current) as [Hstep _].
  exact (Forall_inv (Hstep current Hc)).
Defined.
